(** * Kratos IR: variables, expressions and assignment relocation

    A shallow embedding of [src/expr.cc] (namespace [kratos]).  IR nodes
    live in stores addressed by index: a C++ pointer to a [Var] is an index
    into the variable store, a pointer to an [AssignStmt] an index into the
    statement store, and pointer equality is index equality.  Functions that
    throw return [Throw] with the exception the source raises.  Unsigned
    32-bit members are integers reduced modulo 2^32 where the source computes
    them.  Packed structures, enumerations and function calls
    are embedded through their constructors and layout computations, and
    the source excerpt of [src/except.cc] through the lines it selects. *)

From stdpp Require Import gmap strings list pretty.

Local Open Scope Z_scope.

(** ** Enumerations *)

Inductive VarType :=
| Base | Expression | Slice | ConstValue | PortIO | Parameter_ | BaseCasted.

Inductive VarCastType := Signed | Unsigned | Clock | AsyncReset.

Inductive AssignmentType := Blocking | NonBlocking | Undefined.

Inductive ExprOp :=
| UInvert | UMinus | UPlus | UOr | UXor | UAnd | UNot
| Add | Minus | Divide | Multiply | Mod
| LogicalShiftRight | SignedShiftRight | ShiftLeft
| Or | And | Xor
| LessThan | GreaterThan | LessEqThan | GreaterEqThan | Eq | Neq
| Concat | Extend | Conditional.

#[global] Instance VarType_eq_dec : EqDecision VarType.
Proof. solve_decision. Defined.
#[global] Instance VarCastType_eq_dec : EqDecision VarCastType.
Proof. solve_decision. Defined.
#[global] Instance ExprOp_eq_dec : EqDecision ExprOp.
Proof. solve_decision. Defined.

(** ** Exceptions and results *)

Inductive exn :=
| VarException (msg : string) (nodes : list nat)
| StmtException (msg : string)
| InternalException (msg : string)
| UserException (msg : string).

(** [Fault] is not a C++ exception: it marks a null or dangling pointer
    dereference, or a recursion that ran out of fuel. *)
Inductive result (A : Type) :=
| Ok (a : A)
| Throw (e : exn)
| Fault.
Arguments Ok {A} a.
Arguments Throw {A} e.
Arguments Fault {A}.

#[global] Instance result_ret : MRet result := fun A a => Ok a.
#[global] Instance result_bind : MBind result := fun A B f m =>
  match m with
  | Ok a => f a
  | Throw e => Throw e
  | Fault => Fault
  end.

Definition throws {A} (r : result A) : Prop := ∃ e, r = Throw e.
Definition succeeds {A} (r : result A) : Prop := ∃ a, r = Ok a.

(** ** Nodes *)

Module Expr.
(** The members of [Expr]. *)
Record t := { op : ExprOp; left : nat; right : option nat }.
End Expr.

Module VarSlice.
(** The members of [VarSlice]. *)
Record t := {
  parent_var : nat;
  high : Z;
  low : Z;
  var_high_ : Z;
  var_low_ : Z
}.
End VarSlice.

(** The subclasses of [Expr], [VarSlice] and [Const], with the members they add. *)
Inductive ExprSub :=
| PlainExpr
| ConditionalExpr (condition : nat)
| VarConcat (vars_ : list nat)
| VarExtend (parent_ : nat).

Inductive SliceSub :=
| RangeSlice
| VarVarSlice (sliced_var_ : nat).

Inductive ConstSub :=
| PlainConst
| EnumConst (enum_name : string)
| Param (param_vars_ : list nat) (param_params_ : list nat).

(** The dynamic class of a node, which selects the virtual overrides. *)
Inductive VarClass :=
| CVar
| CEnumVar (enum_type_ : string)
| CConst (value_ : Z) (sub : ConstSub)
| CExpr (e : Expr.t) (sub : ExprSub)
| CSlice (s : VarSlice.t) (sub : SliceSub)
| CCasted (parent_var_ : nat) (cast_type_ : VarCastType).

(** The members of [Var].  [sinks_] and [sources_] are the link sets;
    [slices_], [concat_vars_], [casted_] and [extended_] are the caches of
    derived nodes, in iteration order. *)
Record Var := {
  name : string;
  generator : option nat;
  var_width_ : Z;
  size_ : list Z;
  is_signed_ : bool;
  type_ : VarType;
  explicit_array_ : bool;
  is_packed_ : bool;
  param_ : option nat;
  sinks_ : gset nat;
  sources_ : gset nat;
  slices_ : list nat;
  concat_vars_ : list nat;
  casted_ : list (VarCastType * nat);
  extended_ : list (Z * nat);
  cls : VarClass
}.

Module AssignStmt.
(** The members of [AssignStmt]; [parent] is the scope that
    [Stmt::generator_parent] resolves to. *)
Record t := {
  left_ : nat;
  right_ : nat;
  assign_type_ : AssignmentType;
  parent : option nat
}.
End AssignStmt.

Module Generator.
(** The part of the scope collaborator that [expr.cc] reads and writes. *)
Record t := {
  parent : option nat;
  debug : bool;
  stmts_ : list nat
}.
End Generator.

(** ** Field updates *)

Definition with_var_width (w : Z) (v : Var) : Var :=
  {| name := name v; generator := generator v; var_width_ := w; size_ := size_ v;
     is_signed_ := is_signed_ v; type_ := type_ v; explicit_array_ := explicit_array_ v;
     is_packed_ := is_packed_ v; param_ := param_ v; sinks_ := sinks_ v;
     sources_ := sources_ v; slices_ := slices_ v; concat_vars_ := concat_vars_ v;
     casted_ := casted_ v; extended_ := extended_ v; cls := cls v |}.

Definition with_size (s : list Z) (v : Var) : Var :=
  {| name := name v; generator := generator v; var_width_ := var_width_ v; size_ := s;
     is_signed_ := is_signed_ v; type_ := type_ v; explicit_array_ := explicit_array_ v;
     is_packed_ := is_packed_ v; param_ := param_ v; sinks_ := sinks_ v;
     sources_ := sources_ v; slices_ := slices_ v; concat_vars_ := concat_vars_ v;
     casted_ := casted_ v; extended_ := extended_ v; cls := cls v |}.

Definition with_is_signed (b : bool) (v : Var) : Var :=
  {| name := name v; generator := generator v; var_width_ := var_width_ v; size_ := size_ v;
     is_signed_ := b; type_ := type_ v; explicit_array_ := explicit_array_ v;
     is_packed_ := is_packed_ v; param_ := param_ v; sinks_ := sinks_ v;
     sources_ := sources_ v; slices_ := slices_ v; concat_vars_ := concat_vars_ v;
     casted_ := casted_ v; extended_ := extended_ v; cls := cls v |}.

Definition with_type (t : VarType) (v : Var) : Var :=
  {| name := name v; generator := generator v; var_width_ := var_width_ v; size_ := size_ v;
     is_signed_ := is_signed_ v; type_ := t; explicit_array_ := explicit_array_ v;
     is_packed_ := is_packed_ v; param_ := param_ v; sinks_ := sinks_ v;
     sources_ := sources_ v; slices_ := slices_ v; concat_vars_ := concat_vars_ v;
     casted_ := casted_ v; extended_ := extended_ v; cls := cls v |}.

Definition with_generator (g : option nat) (v : Var) : Var :=
  {| name := name v; generator := g; var_width_ := var_width_ v; size_ := size_ v;
     is_signed_ := is_signed_ v; type_ := type_ v; explicit_array_ := explicit_array_ v;
     is_packed_ := is_packed_ v; param_ := param_ v; sinks_ := sinks_ v;
     sources_ := sources_ v; slices_ := slices_ v; concat_vars_ := concat_vars_ v;
     casted_ := casted_ v; extended_ := extended_ v; cls := cls v |}.

Definition with_param (p : option nat) (v : Var) : Var :=
  {| name := name v; generator := generator v; var_width_ := var_width_ v; size_ := size_ v;
     is_signed_ := is_signed_ v; type_ := type_ v; explicit_array_ := explicit_array_ v;
     is_packed_ := is_packed_ v; param_ := p; sinks_ := sinks_ v;
     sources_ := sources_ v; slices_ := slices_ v; concat_vars_ := concat_vars_ v;
     casted_ := casted_ v; extended_ := extended_ v; cls := cls v |}.

Definition with_sinks (s : gset nat) (v : Var) : Var :=
  {| name := name v; generator := generator v; var_width_ := var_width_ v; size_ := size_ v;
     is_signed_ := is_signed_ v; type_ := type_ v; explicit_array_ := explicit_array_ v;
     is_packed_ := is_packed_ v; param_ := param_ v; sinks_ := s;
     sources_ := sources_ v; slices_ := slices_ v; concat_vars_ := concat_vars_ v;
     casted_ := casted_ v; extended_ := extended_ v; cls := cls v |}.

Definition with_sources (s : gset nat) (v : Var) : Var :=
  {| name := name v; generator := generator v; var_width_ := var_width_ v; size_ := size_ v;
     is_signed_ := is_signed_ v; type_ := type_ v; explicit_array_ := explicit_array_ v;
     is_packed_ := is_packed_ v; param_ := param_ v; sinks_ := sinks_ v;
     sources_ := s; slices_ := slices_ v; concat_vars_ := concat_vars_ v;
     casted_ := casted_ v; extended_ := extended_ v; cls := cls v |}.

Definition with_slices (l : list nat) (v : Var) : Var :=
  {| name := name v; generator := generator v; var_width_ := var_width_ v; size_ := size_ v;
     is_signed_ := is_signed_ v; type_ := type_ v; explicit_array_ := explicit_array_ v;
     is_packed_ := is_packed_ v; param_ := param_ v; sinks_ := sinks_ v;
     sources_ := sources_ v; slices_ := l; concat_vars_ := concat_vars_ v;
     casted_ := casted_ v; extended_ := extended_ v; cls := cls v |}.

Definition with_concat_vars (l : list nat) (v : Var) : Var :=
  {| name := name v; generator := generator v; var_width_ := var_width_ v; size_ := size_ v;
     is_signed_ := is_signed_ v; type_ := type_ v; explicit_array_ := explicit_array_ v;
     is_packed_ := is_packed_ v; param_ := param_ v; sinks_ := sinks_ v;
     sources_ := sources_ v; slices_ := slices_ v; concat_vars_ := l;
     casted_ := casted_ v; extended_ := extended_ v; cls := cls v |}.

Definition with_casted (l : list (VarCastType * nat)) (v : Var) : Var :=
  {| name := name v; generator := generator v; var_width_ := var_width_ v; size_ := size_ v;
     is_signed_ := is_signed_ v; type_ := type_ v; explicit_array_ := explicit_array_ v;
     is_packed_ := is_packed_ v; param_ := param_ v; sinks_ := sinks_ v;
     sources_ := sources_ v; slices_ := slices_ v; concat_vars_ := concat_vars_ v;
     casted_ := l; extended_ := extended_ v; cls := cls v |}.

Definition with_extended (l : list (Z * nat)) (v : Var) : Var :=
  {| name := name v; generator := generator v; var_width_ := var_width_ v; size_ := size_ v;
     is_signed_ := is_signed_ v; type_ := type_ v; explicit_array_ := explicit_array_ v;
     is_packed_ := is_packed_ v; param_ := param_ v; sinks_ := sinks_ v;
     sources_ := sources_ v; slices_ := slices_ v; concat_vars_ := concat_vars_ v;
     casted_ := casted_ v; extended_ := l; cls := cls v |}.

Definition with_cls (c : VarClass) (v : Var) : Var :=
  {| name := name v; generator := generator v; var_width_ := var_width_ v; size_ := size_ v;
     is_signed_ := is_signed_ v; type_ := type_ v; explicit_array_ := explicit_array_ v;
     is_packed_ := is_packed_ v; param_ := param_ v; sinks_ := sinks_ v;
     sources_ := sources_ v; slices_ := slices_ v; concat_vars_ := concat_vars_ v;
     casted_ := casted_ v; extended_ := extended_ v; cls := c |}.

(** ** Stores *)

(** Dereferencing a pointer; a dangling one is a [Fault]. *)
Definition deref {A} (st : list A) (p : nat) : result A :=
  match st !! p with
  | Some a => Ok a
  | None => Fault
  end.

Definition deref_opt {A} (st : list A) (p : option nat) : result (option A) :=
  match p with
  | Some q => a ← deref st q; mret (Some a)
  | None => mret None
  end.

(** [std::make_shared]: the new node gets the next free index. *)
Definition alloc {A} (st : list A) (a : A) : list A * nat := (st ++ [a], length st).

(** In-place update of the node behind a pointer. *)
Definition update {A} (st : list A) (p : nat) (f : A → A) : list A :=
  match st !! p with
  | Some a => <[p := f a]> st
  | None => st
  end.

(** ** Machine integers *)

Definition u32 (z : Z) : Z := z mod 2 ^ 32.
Definition u64 (z : Z) : Z := z mod 2 ^ 64.

(** ** Operator classes (lines 21-35) *)

Definition is_relational_op (op : ExprOp) : bool :=
  bool_decide (op ∈ [LessThan; GreaterThan; LessEqThan; GreaterEqThan; Eq]).

Definition is_reduction_op (op : ExprOp) : bool :=
  bool_decide (op ∈ [UOr; UXor; UAnd; UNot]).

Definition is_expand_op (op : ExprOp) : bool :=
  bool_decide (op ∈ [Concat; Extend]).

(** ** [Var::width] (lines 37-41) *)

Definition width (v : Var) : Z :=
  fold_left (λ w i, u32 (w * i)) (size_ v) (var_width_ v).

Section Kratos.

(** [is_valid_variable_name] is declared in [syntax.hh], outside [src/]:
    the keyword table is a parameter of the development. *)
Variable is_valid_variable_name : string → bool.

(** [Const::const_gen()]: the process-wide scope of constant literals. *)
Variable const_gen : option nat.

(** ** [Var::Var] (lines 445-459)

    The members the constructor does not set start out empty, and the flags
    [explicit_array_] and [is_packed_] unset. *)

Definition Var_ctor (m : option nat) (nm : string) (var_width : Z) (size : list Z)
    (is_signed : bool) (type : VarType) (c : VarClass) : result Var :=
  if bool_decide (m = None ∧ type ≠ ConstValue) then
    Throw (UserException "module is null for {0}")
  else if negb (is_valid_variable_name nm) then
    Throw (UserException "{0} is a SystemVerilog keyword")
  else
    Ok {| name := nm; generator := m; var_width_ := var_width; size_ := size;
          is_signed_ := is_signed; type_ := type; explicit_array_ := false;
          is_packed_ := false; param_ := None; sinks_ := ∅; sources_ := ∅;
          slices_ := []; concat_vars_ := []; casted_ := []; extended_ := [];
          cls := c |}.

(** ** [Expr::set_parent] (lines 405-431) *)

Definition gen_parent (gens : list Generator.t) (g : option nat) : result (option nat) :=
  match g with
  | Some i => gn ← deref gens i; mret (Generator.parent gn)
  | None => Fault
  end.

Definition Expr_set_parent (gens : list Generator.t) (l : Var) (r : option Var)
    : result (option nat) :=
  match r with
  | None => mret (generator l)
  | Some rn =>
    let left_gen := generator l in
    let right_gen := generator rn in
    if bool_decide (left_gen = const_gen) then mret right_gen
    else if bool_decide (right_gen = const_gen) then mret left_gen
    else if bool_decide (left_gen = right_gen) then mret (generator l)
    else
      rp ← gen_parent gens right_gen;
      if bool_decide (left_gen = rp ∧ type_ rn = PortIO) then mret left_gen
      else
        lp ← gen_parent gens left_gen;
        if bool_decide (lp = rp ∧ type_ l = PortIO ∧ type_ rn = PortIO) then mret lp
        else mret right_gen
  end.

(** ** [Expr::Expr] with an operator tag (lines 369-392) *)

Definition Expr_ctor (vars : list Var) (gens : list Generator.t)
    (op : ExprOp) (left : nat) (right : option nat) : result Var :=
  l ← deref vars left;
  r ← deref_opt vars right;
  base ← Var_ctor (generator l) "" (var_width_ l) (size_ l) (is_signed_ l) Expression
         (CExpr {| Expr.op := op; Expr.left := left; Expr.right := right |} PlainExpr);
  match right, r with
  | Some rp, Some rn =>
    if bool_decide (width l ≠ width rn) then
      Throw (VarException
        "left ({0}) width ({1}) doesn't match with right ({2}) width ({3})" [left; rp])
    else
      g ← Expr_set_parent gens l r;
      mret (with_generator g (with_type Expression
             (with_is_signed (is_signed_ l && is_signed_ rn)
               (with_var_width
                  (if is_relational_op op || is_reduction_op op then 1 else width l)
                  base))))
  | _, _ =>
    g ← Expr_set_parent gens l r;
    mret (with_generator g (with_type Expression
           (with_is_signed (is_signed_ l)
             (with_var_width
                (if is_relational_op op || is_reduction_op op then 1 else width l)
                base))))
  end.

(** ** [Var::operator[]] with a (high, low) pair (lines 142-166) and
    [VarSlice::VarSlice] (lines 243-298) *)

Definition is_scalar (v : Var) : bool := bool_decide (size_ v = [1]).

(** The product of the inner dimensions times the element width. *)
Definition base_width (v : Var) : Z :=
  fold_left (λ w i, u32 (w * i)) (tail (size_ v)) (var_width_ v).

Definition as_VarSlice (v : Var) : result VarSlice.t :=
  match cls v with
  | CSlice s _ => Ok s
  | _ => Fault
  end.

Definition VarSlice_ctor (vars : list Var) (parent : nat) (high low : Z) : result Var :=
  par ← deref vars parent;
  base ← Var_ctor (generator par) "" (var_width_ par) [1] (is_signed_ par) Slice
         (CSlice {| VarSlice.parent_var := parent; VarSlice.high := high;
                    VarSlice.low := low; VarSlice.var_high_ := 0;
                    VarSlice.var_low_ := 0 |} RangeSlice);
  (* compute the width *)
  sized ←
    (if is_scalar par && explicit_array_ par then
       if bool_decide (high ≠ 0 ∨ low ≠ 0) then
         Throw (VarException
           "Parent {0} is a scalar but used marked as an explicit array, only [0, 0] allowed"
           [parent])
       else Ok base
     else if is_scalar par then
       Ok (with_var_width (u32 (high - low + 1)) base)
     else
       match size_ par with
       | [] => Fault
       | _ :: rest =>
         Ok (with_var_width (var_width_ par)
               (with_size (u32 (high - low + 1) :: rest) base))
       end);
  (* compute the var high and var_low *)
  '(vh, vl) ←
    (if bool_decide (type_ par ≠ Slice) then
       if is_scalar par && explicit_array_ par then
         Ok (u32 (var_width_ sized - 1), 0)
       else if is_scalar par then
         Ok (high, low)
       else
         Ok (u32 ((high + 1) * base_width par - 1), u32 (low * base_width par))
     else
       slice ← as_VarSlice par;
       if is_scalar par then
         Ok (u32 ((high + 1) + VarSlice.var_low_ slice),
             u32 (low + VarSlice.var_low_ slice))
       else
         Ok (u32 (VarSlice.var_low_ slice + (high + 1) * base_width par - 1),
             u32 (VarSlice.var_low_ slice + low * base_width par)));
  mret (with_cls
          (CSlice {| VarSlice.parent_var := parent; VarSlice.high := high;
                     VarSlice.low := low; VarSlice.var_high_ := vh;
                     VarSlice.var_low_ := vl |} RangeSlice) sized).

Definition slices_emplace (s : nat) (v : Var) : Var :=
  with_slices (slices_ v ++ [s]) v.

Definition Var_index (vars : list Var) (this : nat) (high low : Z)
    : result (list Var * nat) :=
  v ← deref vars this;
  if bool_decide (high < low) then
    Throw (VarException "low ({0}) cannot be larger than ({1})" [this])
  else
    _ ← (if is_scalar v then
           if bool_decide (width v ≤ high) then
             Throw (VarException "high ({0}) has to be smaller than width ({1})" [this])
           else Ok ()
         else
           match size_ v with
           | [] => Fault
           | front :: _ =>
             if bool_decide (front < high) then
               Throw (VarException "high ({0}) has to be smaller than size ({1})" [this])
             else Ok ()
           end);
    var_slice ← VarSlice_ctor vars this high low;
    let '(vars', p) := alloc vars var_slice in
    mret (update vars' this (slices_emplace p), p).

(** [Var::operator[]] with a single bit (line 241). *)
Definition Var_index_bit (vars : list Var) (this : nat) (bit : Z) :=
  Var_index vars this bit bit.

(** ** [VarVarSlice::VarVarSlice] (lines 319-353) *)

(** [std::max<uint32_t>(1, std::ceil(std::log2(d)))].  For [d >= 1] the
    double-precision logarithm of a 32-bit value rounds up to the integer
    ceiling of log2; at [d = 0] the conversion of minus infinity to
    [uint32_t] is undefined. *)
Definition required_width (d : Z) : result Z :=
  if bool_decide (d ≤ 0) then Fault else Ok (Z.max 1 (Z.log2_up d)).

Definition VarVarSlice_ctor (vars : list Var) (parent slice : nat) : result Var :=
  base ← VarSlice_ctor vars parent 0 0;
  par ← deref vars parent;
  idx ← deref vars slice;
  if is_scalar par && negb (explicit_array_ par) then
    mret (with_cls
            (CSlice {| VarSlice.parent_var := parent; VarSlice.high := 0;
                       VarSlice.low := 0; VarSlice.var_high_ := 0;
                       VarSlice.var_low_ := 0 |} (VarVarSlice slice))
            (with_size [1] (with_var_width 1 base)))
  else
    front ← match size_ par with [] => Fault | d :: _ => Ok d end;
    required ← required_width front;
    if bool_decide (required ≠ width idx) then
      Throw (VarException
        "Bit extraction of array[{0}:0] requires {1} bit index, not {2} bits."
        [parent; slice])
    else
      mret (with_cls
              (CSlice {| VarSlice.parent_var := parent; VarSlice.high := 0;
                         VarSlice.low := 0;
                         VarSlice.var_high_ := u32 (var_width_ par - 1);
                         VarSlice.var_low_ := 0 |} (VarVarSlice slice))
              (with_size (if bool_decide (1 < length (size_ par))%nat
                          then tail (size_ par) else [1])
                 (with_var_width (var_width_ par) base))).

(** [Var::operator[]] with an index signal (lines 168-172). *)
Definition Var_index_var (vars : list Var) (this : nat) (var : nat)
    : result (list Var * nat) :=
  var_slice ← VarVarSlice_ctor vars this var;
  let '(vars', p) := alloc vars var_slice in
  mret (update vars' this (slices_emplace p), p).

(** ** [VarCasted::VarCasted] (lines 541-558) and [Var::cast] (lines 575-584) *)

(** The delegated [Var] constructor receives [parent->type()] in its
    [bool is_signed] slot; [Base] is the enumerator with value 0. *)
Definition VarType_as_bool (t : VarType) : bool := bool_decide (t ≠ Base).

Definition VarCasted_ctor (vars : list Var) (parent : nat) (cast_type : VarCastType)
    : result Var :=
  par ← deref vars parent;
  base ← Var_ctor (generator par) "" (width par) [1] (VarType_as_bool (type_ par)) Base
         (CCasted parent cast_type);
  let v := with_type BaseCasted base in
  match cast_type with
  | Signed => Ok (with_is_signed true v)
  | Unsigned => Ok (with_is_signed false v)
  | AsyncReset | Clock =>
    if bool_decide (length (size_ par) ≠ 1%nat ∨ head (size_ par) ≠ Some 1) then
      Throw (VarException
        "Can only cast bit width 1 to Clock or AsyncReset. {0} is {1}" [parent])
    else Ok v
  end.

Fixpoint assoc_find {K V} `{EqDecision K} (k : K) (l : list (K * V)) : option V :=
  match l with
  | [] => None
  | (k', v) :: rest => if decide (k = k') then Some v else assoc_find k rest
  end.

(** [emplace] on a map keeps an existing entry. *)
Definition assoc_emplace {K V} `{EqDecision K} (k : K) (v : V) (l : list (K * V))
    : list (K * V) :=
  match assoc_find k l with
  | Some _ => l
  | None => l ++ [(k, v)]
  end.

Definition Var_cast (vars : list Var) (this : nat) (cast_type : VarCastType)
    : result (list Var * nat) :=
  v ← deref vars this;
  if bool_decide (cast_type = Signed) && is_signed_ v then
    mret (vars, this)
  else
    match assoc_find cast_type (casted_ v) with
    | Some p => mret (vars, p)
    | None =>
      node ← VarCasted_ctor vars this cast_type;
      let '(vars', p) := alloc vars node in
      mret (update vars' this (λ v, with_casted (assoc_emplace cast_type p (casted_ v)) v), p)
    end.

(** ** Concatenation (lines 174-188, 394-403, 684-719) *)

(** [Expr::Expr] with two operands and no operator tag (lines 394-403). *)
Definition Expr_ctor2 (vars : list Var) (gens : list Generator.t) (left right : nat)
    : result Var :=
  l ← deref vars left;
  r ← deref vars right;
  base ← Var_ctor (generator l) "" (var_width_ l) (size_ l) (is_signed_ l) Expression
         (CExpr {| Expr.op := Add; Expr.left := left; Expr.right := Some right |} PlainExpr);
  g ← Expr_set_parent gens l (Some r);
  mret (with_generator g (with_size (size_ l) (with_type Expression base))).

Definition as_VarConcat (v : Var) : result (Expr.t * list nat) :=
  match cls v with
  | CExpr e (VarConcat vs) => Ok (e, vs)
  | _ => Fault
  end.

Definition concat_fields (first second : nat) : Expr.t :=
  {| Expr.op := Concat; Expr.left := first; Expr.right := Some second |}.

(** [VarConcat::VarConcat] from two signals (lines 696-705). *)
Definition VarConcat_ctor (vars : list Var) (gens : list Generator.t) (first second : nat)
    : result Var :=
  e ← Expr_ctor2 vars gens first second;
  f ← deref vars first;
  s ← deref vars second;
  if bool_decide (is_signed_ f ≠ is_signed_ s) then
    Throw (VarException "{0} is signed but {1} is not" [first; second])
  else
    mret (with_cls (CExpr (concat_fields first second) (VarConcat [first; second]))
            (with_var_width (u32 (width f + width s)) e)).

(** [VarConcat::VarConcat] from a concatenation and a signal (lines 684-694). *)
Definition VarConcat_ctor_chain (vars : list Var) (gens : list Generator.t)
    (first second : nat) : result Var :=
  e ← Expr_ctor2 vars gens first second;
  f ← deref vars first;
  s ← deref vars second;
  '(_, fvars) ← as_VarConcat f;
  if bool_decide (is_signed_ f ≠ is_signed_ s) then
    Throw (VarException "{0} is signed but {1} is not" [first; second])
  else
    mret (with_cls (CExpr (concat_fields first second) (VarConcat (fvars ++ [second])))
            (with_var_width (u32 (width f + width s)) e)).

(** The reuse loop of [Var::concat] (lines 179-184). *)
Fixpoint find_concat (vars : list Var) (ptr : nat) (cache : list nat) : result (option nat) :=
  match cache with
  | [] => Ok None
  | exist_var :: rest =>
    e ← deref vars exist_var;
    '(_, vs) ← as_VarConcat e;
    if bool_decide (length vs = 2%nat ∧ last vs = Some ptr) then Ok (Some exist_var)
    else find_concat vars ptr rest
  end.

(** [concat_vars_.emplace]: a set insertion. *)
Definition concat_vars_emplace (c : nat) (v : Var) : Var :=
  if bool_decide (c ∈ concat_vars_ v) then v
  else with_concat_vars (concat_vars_ v ++ [c]) v.

(** [Var::concat] (lines 174-188). *)
Definition Var_concat (vars : list Var) (gens : list Generator.t) (this var : nat)
    : result (list Var * nat) :=
  v ← deref vars this;
  found ← find_concat vars var (concat_vars_ v);
  match found with
  | Some exist_var => mret (vars, exist_var)
  | None =>
    node ← VarConcat_ctor vars gens this var;
    let '(vars', p) := alloc vars node in
    mret (update vars' this (concat_vars_emplace p), p)
  end.

(** [VarConcat::concat] (lines 707-712). *)
Definition VarConcat_concat (vars : list Var) (gens : list Generator.t) (this var : nat)
    : result (list Var * nat) :=
  v ← deref vars this;
  '(_, vs) ← as_VarConcat v;
  node ← VarConcat_ctor_chain vars gens this var;
  let '(vars', p) := alloc vars node in
  match vs with
  | [] => Fault
  | first :: _ =>
    _ ← deref vars' first;
    mret (update vars' first (concat_vars_emplace p), p)
  end.

(** The call [x.concat(y)], dispatched on the class of [x]. *)
Definition concat (vars : list Var) (gens : list Generator.t) (this var : nat)
    : result (list Var * nat) :=
  v ← deref vars this;
  match cls v with
  | CExpr _ (VarConcat _) => VarConcat_concat vars gens this var
  | _ => Var_concat vars gens this var
  end.

(** [VarConcat::replace_var] (lines 714-719): the first occurrence is replaced. *)
Fixpoint replace_first (target item : nat) (l : list nat) : list nat :=
  match l with
  | [] => []
  | x :: rest => if bool_decide (x = target) then item :: rest
                 else x :: replace_first target item rest
  end.

Definition VarConcat_replace_var (target item : nat) (v : Var) : Var :=
  match cls v with
  | CExpr e (VarConcat vs) => with_cls (CExpr e (VarConcat (replace_first target item vs))) v
  | _ => v
  end.

(** ** Extension (lines 190-198, 721-735) *)

Definition VarExtend_ctor (vars : list Var) (gens : list Generator.t) (var : nat) (w : Z)
    : result Var :=
  e ← Expr_ctor vars gens Extend var None;
  p ← deref vars var;
  if bool_decide (w < width p) then
    Throw (VarException "Cannot extend {0} (width={1}) to {2}" [var])
  else
    front ← match size_ p with [] => Fault | d :: _ => Ok d end;
    if bool_decide ((1 < length (size_ p))%nat ∨ 1 < front
                    ∨ (is_packed_ p = true ∧ type_ p ≠ ConstValue)) then
      Throw (VarException "Cannot extend an array ({0})" [var])
    else
      mret (with_cls
              (CExpr {| Expr.op := Extend; Expr.left := var; Expr.right := None |}
                 (VarExtend var))
              (with_is_signed (is_signed_ p) (with_var_width w e))).

Definition Var_extend (vars : list Var) (gens : list Generator.t) (this : nat) (w : Z)
    : result (list Var * nat) :=
  v ← deref vars this;
  match assoc_find w (extended_ v) with
  | Some p => mret (vars, p)
  | None =>
    node ← VarExtend_ctor vars gens this w;
    let '(vars', p) := alloc vars node in
    mret (update vars' this (λ v, with_extended (assoc_emplace w p (extended_ v)) v), p)
  end.

(** ** Link-set notifications *)

Fixpoint foldM {A B} (f : A → B → result A) (l : list B) (a : A) : result A :=
  match l with
  | [] => Ok a
  | x :: rest => a' ← f a x; foldM f rest a'
  end.

(** The loop shared by [VarSlice::add_sink], [VarSlice::add_source]
    (lines 1028-1044) and [VarSlice::get_var_root_parent] (lines 311-317):
    climb while the parent is tagged [Slice]. *)
Fixpoint slice_root (fuel : nat) (vars : list Var) (parent : nat) : result nat :=
  match fuel with
  | O => Fault
  | S n =>
    p ← deref vars parent;
    if bool_decide (type_ p = Slice) then
      s ← as_VarSlice p;
      slice_root n vars (VarSlice.parent_var s)
    else Ok parent
  end.

(** Modelled from the spec: [Var::add_sink] and [Var::add_source] are
    defined inline in [expr.hh], outside [src/]; following the data model of
    section 3 (every signal holds the sets of statements linked to it) they
    insert the statement into the node's own set. *)
Definition Var_add_sink (stmt : nat) (v : Var) : Var :=
  with_sinks ({[stmt]} ∪ sinks_ v) v.

Definition Var_add_source (stmt : nat) (v : Var) : Var :=
  with_sources ({[stmt]} ∪ sources_ v) v.

(** [Const::add_sink] (lines 601-612): nothing is recorded; the constant
    adopts the scope above the written signal's scope. *)
Definition Const_add_sink (stmts : list AssignStmt.t) (gens : list Generator.t)
    (vars : list Var) (this stmt : nat) : result (list Var) :=
  s ← deref stmts stmt;
  left ← deref vars (AssignStmt.left_ s);
  match generator left with
  | None => Throw (StmtException "Unable to find left hand side generator")
  | Some g =>
    gn ← deref gens g;
    match Generator.parent gn with
    | Some gp => Ok (update vars this (with_generator (Some gp)))
    | None => Ok vars
    end
  end.

(** The virtual call [this->add_sink(stmt)]: [Expr::add_sink] (1023-1026),
    [ConditionalExpr::add_sink] (1066-1070), [VarConcat::add_sink] (651-655),
    [VarExtend::add_sink] (743), [VarSlice::add_sink] (1028-1035),
    [VarVarSlice::add_sink] (355-358), [VarCasted::add_sink] (573),
    [Const::add_sink] (601-612). *)
Fixpoint add_sink (fuel : nat) (stmts : list AssignStmt.t) (gens : list Generator.t)
    (vars : list Var) (this stmt : nat) : result (list Var) :=
  match fuel with
  | O => Fault
  | S n =>
    v ← deref vars this;
    match cls v with
    | CVar | CEnumVar _ => Ok (update vars this (Var_add_sink stmt))
    | CConst _ _ => Const_add_sink stmts gens vars this stmt
    | CExpr e PlainExpr =>
      vars1 ← add_sink n stmts gens vars (Expr.left e) stmt;
      match Expr.right e with
      | Some r => add_sink n stmts gens vars1 r stmt
      | None => Ok vars1
      end
    | CExpr e (ConditionalExpr c) =>
      vars1 ← add_sink n stmts gens vars c stmt;
      vars2 ← add_sink n stmts gens vars1 (Expr.left e) stmt;
      match Expr.right e with
      | Some r => add_sink n stmts gens vars2 r stmt
      | None => Fault
      end
    | CExpr _ (VarConcat vs) =>
      foldM (λ vars' var, add_sink n stmts gens vars' var stmt) vs vars
    | CExpr _ (VarExtend parent_) => add_sink n stmts gens vars parent_ stmt
    | CSlice s sub =>
      root ← slice_root fuel vars (VarSlice.parent_var s);
      vars1 ← add_sink n stmts gens vars root stmt;
      match sub with
      | RangeSlice => Ok vars1
      | VarVarSlice sliced_var_ => add_sink n stmts gens vars1 sliced_var_ stmt
      end
    | CCasted parent_var_ _ => add_sink n stmts gens vars parent_var_ stmt
    end
  end.

(** The virtual call [this->add_source(stmt)]: [Const::add_source] (596-599),
    [VarConcat::add_source] (645-649), [VarExtend::add_source] (737-741),
    [VarSlice::add_source] (1037-1044), [VarVarSlice::add_source] (360-363);
    the classes for which [expr.cc] defines no override use [Var::add_source]. *)
Fixpoint add_source (fuel : nat) (vars : list Var) (this stmt : nat) : result (list Var) :=
  match fuel with
  | O => Fault
  | S n =>
    v ← deref vars this;
    match cls v with
    | CConst _ _ =>
      Throw (VarException "const {0} is not allowed to be driven by a net" [this])
    | CExpr _ (VarConcat vs) =>
      foldM (λ vars' var, add_source n vars' var stmt) vs vars
    | CExpr _ (VarExtend parent_) =>
      Throw (StmtException "Cannot add source to an extended variable ({0})")
    | CSlice s sub =>
      root ← slice_root fuel vars (VarSlice.parent_var s);
      vars1 ← add_source n vars root stmt;
      match sub with
      | RangeSlice => Ok vars1
      | VarVarSlice sliced_var_ => add_source n vars1 sliced_var_ stmt
      end
    | CVar | CEnumVar _ | CExpr _ PlainExpr | CExpr _ (ConditionalExpr _) | CCasted _ _ =>
      Ok (update vars this (Var_add_source stmt))
    end
  end.

(** ** Assignment (lines 464-483, 560-562, 1201-1216) *)

(** Modelled from the spec: [AssignStmt::AssignStmt] is defined in
    [stmt.cc], outside [src/].  Following section 4.5, creating the statement
    links the written operand and the read operand and registers the
    statement on both, through the notifications above: the read operand is
    told [add_sink], the written operand [add_source]. *)
Definition AssignStmt_ctor (fuel : nat) (gens : list Generator.t)
    (vars : list Var) (stmts : list AssignStmt.t)
    (left right : nat) (type : AssignmentType)
    : result (list Var * list AssignStmt.t * nat) :=
  let '(stmts', stmt) :=
    alloc stmts {| AssignStmt.left_ := left; AssignStmt.right_ := right;
                   AssignStmt.assign_type_ := type; AssignStmt.parent := None |} in
  vars1 ← add_sink fuel stmts' gens vars right stmt;
  vars2 ← add_source fuel vars1 left stmt;
  mret (vars2, stmts', stmt).

(** [Var::assign] (lines 472-483). *)
Definition Var_assign (fuel : nat) (gens : list Generator.t)
    (vars : list Var) (stmts : list AssignStmt.t)
    (this var : nat) (type : AssignmentType)
    : result (list Var * list AssignStmt.t * nat) :=
  v ← deref vars this;
  if bool_decide (type_ v = ConstValue) then
    Throw (VarException "Cannot assign {0} to a const {1}" [this; var])
  else if bool_decide (type_ v = Expression) then
    Throw (VarException "Cannot assign {0} to an expression" [this; var])
  else AssignStmt_ctor fuel gens vars stmts this var type.

(** Modelled from the spec: [Var::is_enum] is defined in [expr.hh], outside
    [src/]; it holds of the enum variables and enum constants of section 3. *)
Definition is_enum (v : Var) : bool :=
  match cls v with
  | CEnumVar _ | CConst _ (EnumConst _) => true
  | _ => false
  end.

(** [EnumVar::assign] (lines 1201-1216). *)
Definition EnumVar_assign (fuel : nat) (gens : list Generator.t)
    (vars : list Var) (stmts : list AssignStmt.t)
    (this var : nat) (type : AssignmentType)
    : result (list Var * list AssignStmt.t * nat) :=
  v ← deref vars this;
  src ← deref vars var;
  match cls v with
  | CEnumVar enum_type_ =>
    if negb (is_enum src) then
      Throw (VarException "Cannot assign enum type to non enum type" [this; var])
    else
      other ←
        (if bool_decide (type_ src = ConstValue) then
           match cls src with
           | CConst _ (EnumConst enum_def) => Ok enum_def
           | _ => Fault
           end
         else
           match cls src with
           | CEnumVar t => Ok t
           | _ => Fault
           end);
      if bool_decide (other ≠ enum_type_) then
        Throw (VarException "Cannot assign different enum type" [this; var])
      else Var_assign fuel gens vars stmts this var type
  | _ => Fault
  end.

(** The virtual call [this->assign(var, type)]; [VarCasted::assign]
    (lines 560-562) always throws. *)
Definition assign (fuel : nat) (gens : list Generator.t)
    (vars : list Var) (stmts : list AssignStmt.t)
    (this var : nat) (type : AssignmentType)
    : result (list Var * list AssignStmt.t * nat) :=
  v ← deref vars this;
  match cls v with
  | CCasted _ _ => Throw (VarException "{0} is not allowed to be a sink" [this])
  | CEnumVar _ => EnumVar_assign fuel gens vars stmts this var type
  | _ => Var_assign fuel gens vars stmts this var type
  end.

(** ** Constants and parameters (lines 494-520, 586-594, 614-643) *)

(** The range check of [Const::Const].  A shift by 64 or more is undefined. *)
Definition Const_range_check (value width : Z) (is_signed : bool) : result () :=
  if is_signed then
    if bool_decide (64 ≤ u32 (width - 1)) then Fault
    else
      let min := - 2 ^ (width - 1) in
      let max := 2 ^ (width - 1) - 1 in
      if bool_decide (value < min) then
        Throw (UserException "{0} is smaller than the minimum value ({1}) given width {2}")
      else if bool_decide (max < value) then
        Throw (UserException "{0} is larger than the maximum value ({1}) given width {2}")
      else Ok ()
  else
    if bool_decide (64 ≤ width) then Fault
    else
      let max := 2 ^ width - 1 in
      if bool_decide (max < u64 value) then
        Throw (UserException "{0} is larger than the maximum value ({1}) given width {2}")
      else Ok ().

Definition Const_ctor (g : option nat) (value width : Z) (is_signed : bool) : result Var :=
  base ← Var_ctor g (pretty value) width [1] is_signed ConstValue (CConst 0 PlainConst);
  _ ← Const_range_check value width is_signed;
  mret (with_cls (CConst value PlainConst) base).

Definition with_value (value : Z) (v : Var) : Var :=
  match cls v with
  | CConst _ sub => with_cls (CConst value sub) v
  | _ => v
  end.

(** [Const::set_value] (lines 586-594): a value that does not pass the
    constructor's checks is reported on [std::cerr] and not stored. *)
Definition Const_set_value (vars : list Var) (this : nat) (new_value : Z)
    : result (list Var) :=
  v ← deref vars this;
  match Const_ctor (generator v) new_value (width v) (is_signed_ v) with
  | Ok _ => Ok (update vars this (with_value new_value))
  | Throw _ => Ok vars
  | Fault => Fault
  end.

Definition as_Param (v : Var) : result (Z * list nat * list nat) :=
  match cls v with
  | CConst value (Param pv pp) => Ok (value, pv, pp)
  | _ => Fault
  end.

(** The statement [var->var_width() = new_value] through a pointer. *)
Definition set_var_width (vars : list Var) (var : nat) (w : Z) : result (list Var) :=
  _ ← deref vars var;
  mret (update vars var (with_var_width (u32 w))).

(** [Param::set_value] (lines 620-638). *)
Fixpoint Param_set_value (fuel : nat) (vars : list Var) (this : nat) (new_value : Z)
    : result (list Var) :=
  match fuel with
  | O => Fault
  | S n =>
    v ← deref vars this;
    '(_, param_vars_, param_params_) ← as_Param v;
    if bool_decide (new_value ≤ 0 ∧ param_vars_ ≠ []) then
      Throw (VarException
        "{0} is used for parametrizing variable width, thus cannot be non-positive ({1})"
        [this])
    else
      vars1 ← Const_set_value vars this new_value;
      vars2 ← foldM (λ vars' var, set_var_width vars' var new_value) param_vars_ vars1;
      foldM (λ vars' param, Param_set_value n vars' param new_value) param_params_ vars2
  end.

(** Modelled from the spec: [Param::add_param_var] is defined in [expr.hh],
    outside [src/]; it adds a signal to the parameter's set of dependent
    signals. *)
Definition add_param_var (var : nat) (v : Var) : Var :=
  match cls v with
  | CConst value (Param pv pp) =>
    if bool_decide (var ∈ pv) then v
    else with_cls (CConst value (Param (pv ++ [var]) pp)) v
  | _ => v
  end.

(** [Var::set_width_param] (lines 228-239). *)
Definition Var_set_width_param (vars : list Var) (this param : nat) : result (list Var) :=
  p ← deref vars param;
  '(value, _, _) ← as_Param p;
  if bool_decide (value ≤ 0) then
    Throw (VarException
      "{0} is non-positive ({1}), thus cannot be used for parametrization width" [param])
  else
    _ ← deref vars this;
    let vars1 := update vars this (λ v, with_param (Some param) (with_var_width (u32 value) v)) in
    mret (update vars1 param (add_param_var this)).

(** [Param::set_value] with a parent parameter (lines 640-643): [this]
    joins the chain of [param]. *)
Definition Param_chain (vars : list Var) (this param : nat) : result (list Var) :=
  _ ← deref vars this;
  p ← deref vars param;
  '(value, pv, pp) ← as_Param p;
  mret (update vars param
          (with_cls (CConst value (Param pv (if bool_decide (this ∈ pp) then pp
                                             else pp ++ [this]))))).

(** ** Relocation (lines 826-1021) *)

(** Modelled from the spec: [VarSlice::set_parent] and
    [VarCasted::set_parent] are defined in [expr.hh], outside [src/]; per
    section 4.6 they re-parent a derived node so that it references the
    replacement signal. *)
Definition VarSlice_set_parent (vars : list Var) (slice parent : nat) : result (list Var) :=
  v ← deref vars slice;
  match cls v with
  | CSlice s sub =>
    Ok (update vars slice (with_cls
          (CSlice {| VarSlice.parent_var := parent; VarSlice.high := VarSlice.high s;
                     VarSlice.low := VarSlice.low s;
                     VarSlice.var_high_ := VarSlice.var_high_ s;
                     VarSlice.var_low_ := VarSlice.var_low_ s |} sub)))
  | _ => Fault
  end.

Definition VarCasted_set_parent (vars : list Var) (casted parent : nat) : result (list Var) :=
  v ← deref vars casted;
  match cls v with
  | CCasted _ ct => Ok (update vars casted (with_cls (CCasted parent ct)))
  | _ => Fault
  end.

(** [Var::move_linked_to] (lines 980-1021).  The loops run over the
    containers as they are when the loop starts. *)
Fixpoint move_linked_to (fuel : nat) (vars : list Var) (this new_var : nat)
    : result (list Var) :=
  match fuel with
  | O => Fault
  | S n =>
    t ← deref vars this;
    nv ← deref vars new_var;
    if bool_decide (width nv ≠ width t) then
      Throw (VarException
        "Try to move linked variable to a variable that doesn't match width. Need {0}, got {1}"
        [this; new_var])
    else if bool_decide (is_signed_ nv ≠ is_signed_ t) then
      Throw (VarException
        "Try to move linked variable to a variable that doesn't match sign. Need {0}, got {1}"
        [this; new_var])
    else
      (* slices *)
      vars1 ← foldM (λ vars' slice, VarSlice_set_parent vars' slice new_var) (slices_ t) vars;
      t1 ← deref vars1 this;
      let vars2 := update vars1 new_var (with_slices (slices_ t1)) in
      let vars3 := update vars2 this (with_slices []) in
      (* concat'ed vars *)
      t3 ← deref vars3 this;
      vars4 ← foldM (λ vars' concat,
                       vars'' ← move_linked_to n vars' concat new_var;
                       c ← deref vars'' concat;
                       _ ← as_VarConcat c;
                       mret (update vars'' concat (VarConcat_replace_var this new_var)))
                    (concat_vars_ t3) vars3;
      t4 ← deref vars4 this;
      let vars5 := update vars4 new_var (with_concat_vars (concat_vars_ t4)) in
      let vars6 := update vars5 this (with_concat_vars []) in
      (* casted *)
      t6 ← deref vars6 this;
      vars7 ← foldM (λ vars' iter,
                       vars'' ← VarCasted_set_parent vars' (snd iter) new_var;
                       mret (update vars'' new_var
                               (λ v, with_casted
                                       (assoc_emplace (fst iter) (snd iter) (casted_ v)) v)))
                    (casted_ t6) vars6;
      mret (update vars7 this (with_casted []))
  end.

(** The climbing loop of [set_var_parent] (lines 830-835): the slices met,
    outermost first, and the node the chain hangs from. *)
Fixpoint collect_slices (fuel : nat) (vars : list Var) (parent_var : nat)
    : result (list nat * nat) :=
  match fuel with
  | O => Fault
  | S n =>
    p ← deref vars parent_var;
    if bool_decide (type_ p = Slice) then
      s ← as_VarSlice p;
      '(slices, root) ← collect_slices n vars (VarSlice.parent_var s);
      mret (parent_var :: slices, root)
    else Ok ([], parent_var)
  end.

(** Modelled from the spec: [VarSlice::slice_var] is defined in [expr.hh],
    outside [src/]; per section 4.6 it re-slices the given signal with the
    same bounds (a variable-indexed slice, with the same index signal). *)
Definition slice_var (vars : list Var) (slice var : nat) : result (list Var * nat) :=
  sv ← deref vars slice;
  match cls sv with
  | CSlice s RangeSlice => Var_index vars var (VarSlice.high s) (VarSlice.low s)
  | CSlice s (VarVarSlice sliced_var_) => Var_index_var vars var sliced_var_
  | _ => Fault
  end.

(** [set_var_parent] (lines 826-850); the result carries the new value of
    the pointer passed by reference. *)
Definition set_var_parent (fuel : nat) (vars : list Var) (var target new_var : nat)
    (check_target : bool) : result (list Var * nat) :=
  '(slices, parent_var) ← collect_slices fuel vars var;
  if bool_decide (parent_var ≠ target) then
    if check_target then Throw (InternalException "Target not found")
    else Ok (vars, var)
  else if bool_decide (slices = []) then
    Throw (InternalException "Slice cannot be null")
  else
    foldM (λ st s, slice_var (fst st) s (snd st)) (rev slices) (vars, new_var).

Definition as_Expr (v : Var) : result (Expr.t * ExprSub) :=
  match cls v with
  | CExpr e sub => Ok (e, sub)
  | _ => Fault
  end.

Definition with_expr_left (p : nat) (v : Var) : Var :=
  match cls v with
  | CExpr e sub =>
    with_cls (CExpr {| Expr.op := Expr.op e; Expr.left := p; Expr.right := Expr.right e |}
                sub) v
  | _ => v
  end.

Definition with_expr_right (p : nat) (v : Var) : Var :=
  match cls v with
  | CExpr e sub =>
    with_cls (CExpr {| Expr.op := Expr.op e; Expr.left := Expr.left e; Expr.right := Some p |}
                sub) v
  | _ => v
  end.

(** [change_var_expr] (lines 852-882).  After [expr->left = new_var] the
    call [expr->left->move_linked_to(new_var)] has [new_var] as receiver. *)
Fixpoint change_var_expr (fuel : nat) (vars : list Var) (expr target new_var : nat)
    : result (list Var) :=
  match fuel with
  | O => Fault
  | S n =>
    e ← deref vars expr;
    '(f, _) ← as_Expr e;
    l ← deref vars (Expr.left f);
    vars1 ← (if bool_decide (type_ l = Expression)
             then change_var_expr n vars (Expr.left f) target new_var
             else Ok vars);
    vars2 ← match Expr.right f with
            | Some r =>
              rn ← deref vars1 r;
              if bool_decide (type_ rn = Expression)
              then change_var_expr n vars1 r target new_var
              else Ok vars1
            | None => Ok vars1
            end;
    e2 ← deref vars2 expr;
    '(f2, _) ← as_Expr e2;
    vars3 ← (if bool_decide (Expr.left f2 = target)
             then move_linked_to fuel (update vars2 expr (with_expr_left new_var))
                    new_var new_var
             else Ok vars2);
    vars4 ← (if bool_decide (Expr.right f2 = Some target)
             then move_linked_to fuel (update vars3 expr (with_expr_right new_var))
                    new_var new_var
             else Ok vars3);
    (* need to change the parent as well *)
    e4 ← deref vars4 expr;
    '(f4, _) ← as_Expr e4;
    l4 ← deref vars4 (Expr.left f4);
    vars5 ← (if bool_decide (type_ l4 = Slice) then
               '(vars', p) ← set_var_parent fuel vars4 (Expr.left f4) target new_var false;
               mret (update vars' expr (with_expr_left p))
             else Ok vars4);
    vars6 ← match Expr.right f4 with
            | Some r =>
              r4 ← deref vars5 r;
              if bool_decide (type_ r4 = Slice) then
                '(vars', p) ← set_var_parent fuel vars5 r target new_var false;
                mret (update vars' expr (with_expr_right p))
              else Ok vars5
            | None => Ok vars5
            end;
    if bool_decide (Expr.op f4 = Concat) then
      e6 ← deref vars6 expr;
      _ ← as_VarConcat e6;
      mret (update vars6 expr (VarConcat_replace_var target new_var))
    else Ok vars6
  end.

Definition with_left (p : nat) (s : AssignStmt.t) : AssignStmt.t :=
  {| AssignStmt.left_ := p; AssignStmt.right_ := AssignStmt.right_ s;
     AssignStmt.assign_type_ := AssignStmt.assign_type_ s;
     AssignStmt.parent := AssignStmt.parent s |}.

Definition with_right (p : nat) (s : AssignStmt.t) : AssignStmt.t :=
  {| AssignStmt.left_ := AssignStmt.left_ s; AssignStmt.right_ := p;
     AssignStmt.assign_type_ := AssignStmt.assign_type_ s;
     AssignStmt.parent := AssignStmt.parent s |}.

Definition with_stmt_parent (g : option nat) (s : AssignStmt.t) : AssignStmt.t :=
  {| AssignStmt.left_ := AssignStmt.left_ s; AssignStmt.right_ := AssignStmt.right_ s;
     AssignStmt.assign_type_ := AssignStmt.assign_type_ s;
     AssignStmt.parent := g |}.

Definition is_storage_type (t : VarType) : bool :=
  bool_decide (t = Base ∨ t = PortIO ∨ t = ConstValue).

(** [stmt_set_left] (lines 901-916).  [left] is a reference to the
    statement's operand slot: after [set_left] it designates [new_var], which
    is therefore the receiver of [move_linked_to]. *)
Definition stmt_set_left (fuel : nat) (vars : list Var) (stmts : list AssignStmt.t)
    (stmt target new_var : nat) : result (list Var * list AssignStmt.t) :=
  s ← deref stmts stmt;
  left ← deref vars (AssignStmt.left_ s);
  if is_storage_type (type_ left) then
    if bool_decide (AssignStmt.left_ s = target) then
      let stmts' := update stmts stmt (with_left new_var) in
      vars' ← move_linked_to fuel vars new_var new_var;
      mret (vars', stmts')
    else Throw (InternalException "Target not found")
  else if bool_decide (type_ left = Slice) then
    '(vars', p) ← set_var_parent fuel vars (AssignStmt.left_ s) target new_var true;
    mret (vars', update stmts stmt (with_left p))
  else if bool_decide (type_ left = Expression) then
    vars' ← change_var_expr fuel vars (AssignStmt.left_ s) target new_var;
    mret (vars', stmts)
  else mret (vars, stmts).

(** [stmt_set_right] (lines 884-899). *)
Definition stmt_set_right (fuel : nat) (vars : list Var) (stmts : list AssignStmt.t)
    (stmt target new_var : nat) : result (list Var * list AssignStmt.t) :=
  s ← deref stmts stmt;
  right ← deref vars (AssignStmt.right_ s);
  if is_storage_type (type_ right) then
    if bool_decide (AssignStmt.right_ s = target) then
      let stmts' := update stmts stmt (with_right new_var) in
      vars' ← move_linked_to fuel vars new_var new_var;
      mret (vars', stmts')
    else Throw (InternalException "Target not found")
  else if bool_decide (type_ right = Slice) then
    '(vars', p) ← set_var_parent fuel vars (AssignStmt.right_ s) target new_var true;
    mret (vars', update stmts stmt (with_right p))
  else if bool_decide (type_ right = Expression) then
    vars' ← change_var_expr fuel vars (AssignStmt.right_ s) target new_var;
    mret (vars', stmts)
  else mret (vars, stmts).

(** Modelled from the spec: [Stmt::generator_parent] is defined in
    [stmt.cc], outside [src/]; it resolves the owning scope of a statement,
    and a statement without one is a statement-level structural error
    (section 7). *)
Definition generator_parent (s : AssignStmt.t) : result nat :=
  match AssignStmt.parent s with
  | Some g => Ok g
  | None => Throw (StmtException "statement has no owning scope")
  end.

(** Modelled from the spec: [Generator::add_stmt] is defined in
    [generator.cc], outside [src/]; it adds the statement to the scope's
    statement list, which makes the scope the statement's owner. *)
Definition Generator_add_stmt (gens : list Generator.t) (stmts : list AssignStmt.t)
    (g stmt : nat) : result (list Generator.t * list AssignStmt.t) :=
  gn ← deref gens g;
  _ ← deref stmts stmt;
  mret (update gens g (λ gn, {| Generator.parent := Generator.parent gn;
                                Generator.debug := Generator.debug gn;
                                Generator.stmts_ := Generator.stmts_ gn ++ [stmt] |}),
        update stmts stmt (with_stmt_parent (Some g))).

(** Modelled from the spec: [Var::parametrized] is defined in [expr.hh],
    outside [src/]; a signal is parametrized when a parameter is attached to
    its width. *)
Definition parametrized (v : Var) : bool := bool_decide (param_ v ≠ None).

(** The body of the loop of [Var::move_src_to] (lines 923-934). *)
Definition move_src_step (fuel : nat) (gens : list Generator.t)
    (var new_var parent : nat) (st : list Var * list AssignStmt.t) (stmt : nat)
    : result (list Var * list AssignStmt.t) :=
  s ← deref (snd st) stmt;
  gp ← generator_parent s;
  if bool_decide (gp ≠ parent) then Ok st
  else
    '(vars1, stmts1) ← stmt_set_left fuel (fst st) (snd st) stmt var new_var;
    _ ← deref gens parent;
    vars2 ← add_source fuel vars1 new_var stmt;
    s1 ← deref stmts1 stmt;
    r ← deref vars2 (AssignStmt.right_ s1);
    nv ← deref vars2 new_var;
    match param_ r with
    | Some p =>
      if negb (parametrized nv) then
        vars3 ← Var_set_width_param vars2 new_var p;
        mret (vars3, stmts1)
      else mret (vars2, stmts1)
    | None => mret (vars2, stmts1)
    end.

(** [Var::move_src_to] (lines 918-946).  The loop runs over the source set
    as it is when the loop starts. *)
Definition move_src_to (fuel : nat) (gens : list Generator.t)
    (vars : list Var) (stmts : list AssignStmt.t)
    (var new_var parent : nat) (keep_connection : bool)
    : result (list Var * list AssignStmt.t * list Generator.t) :=
  v ← deref vars var;
  if bool_decide (type_ v = Expression ∨ type_ v = ConstValue) then
    Throw (VarException "Only base or port variables are allowed." [var; new_var])
  else
    '(vars1, stmts1) ← foldM (move_src_step fuel gens var new_var parent)
                          (elements (sources_ v)) (vars, stmts);
    (* now clear the sources *)
    let vars2 := update vars1 var (with_sources ∅) in
    if keep_connection then
      '(vars3, stmts3, stmt) ← assign fuel gens vars2 stmts1 var new_var Undefined;
      '(gens', stmts4) ← Generator_add_stmt gens stmts3 parent stmt;
      mret (vars3, stmts4, gens')
    else mret (vars2, stmts1, gens).

(** The body of the loop of [Var::move_sink_to] (lines 953-966). *)
Definition move_sink_step (fuel : nat) (gens : list Generator.t)
    (var new_var parent : nat) (st : list Var * list AssignStmt.t) (stmt : nat)
    : result (list Var * list AssignStmt.t) :=
  s ← deref (snd st) stmt;
  gp ← generator_parent s;
  if bool_decide (gp ≠ parent) then Ok st
  else
    '(vars1, stmts1) ← stmt_set_right fuel (fst st) (snd st) stmt var new_var;
    _ ← deref gens parent;
    vars2 ← add_sink fuel stmts1 gens vars1 new_var stmt;
    s1 ← deref stmts1 stmt;
    l ← deref vars2 (AssignStmt.left_ s1);
    nv ← deref vars2 new_var;
    match param_ l with
    | Some p =>
      if negb (parametrized nv) then
        vars3 ← Var_set_width_param vars2 new_var p;
        mret (vars3, stmts1)
      else mret (vars2, stmts1)
    | None => mret (vars2, stmts1)
    end.

(** [Var::move_sink_to] (lines 948-978).  The loop runs over the sink set
    as it is when the loop starts. *)
Definition move_sink_to (fuel : nat) (gens : list Generator.t)
    (vars : list Var) (stmts : list AssignStmt.t)
    (var new_var parent : nat) (keep_connection : bool)
    : result (list Var * list AssignStmt.t * list Generator.t) :=
  v ← deref vars var;
  if bool_decide (type_ v = Expression ∨ type_ v = ConstValue) then
    Throw (VarException "Only base or port variables are allowed." [var; new_var])
  else
    '(vars1, stmts1) ← foldM (move_sink_step fuel gens var new_var parent)
                          (elements (sinks_ v)) (vars, stmts);
    (* now clear the sinks *)
    let vars2 := update vars1 var (with_sinks ∅) in
    if keep_connection then
      '(vars3, stmts3, stmt) ← assign fuel gens vars2 stmts1 new_var var Undefined;
      '(gens', stmts4) ← Generator_add_stmt gens stmts3 parent stmt;
      mret (vars3, stmts4, gens')
    else mret (vars2, stmts1, gens).

End Kratos.

(** * Specification-side definitions *)

(** The node that slicing a non-array signal [v] (at [this]) with
    [(high, low)] allocates, with absolute offsets [(vh, vl)]. *)
Definition scalar_slice_node (v : Var) (this : nat) (high low vh vl : Z) : Var :=
  {| name := ""; generator := generator v; var_width_ := u32 (high - low + 1);
     size_ := [1]; is_signed_ := is_signed_ v; type_ := Slice;
     explicit_array_ := false; is_packed_ := false; param_ := None;
     sinks_ := ∅; sources_ := ∅; slices_ := []; concat_vars_ := [];
     casted_ := []; extended_ := [];
     cls := CSlice {| VarSlice.parent_var := this; VarSlice.high := high;
                      VarSlice.low := low; VarSlice.var_high_ := vh;
                      VarSlice.var_low_ := vl |} RangeSlice |}.

(** A node tagged [Slice] is an instance of [VarSlice]. *)
Definition slice_tag_ok (v : Var) : Prop :=
  type_ v = Slice → ∃ s sub, cls v = CSlice s sub.

(** A plain signal: an instance of [Var] itself (base signal or port) or
    of [EnumVar]; it has storage and link sets of its own. *)
Definition plain_signal (v : Var) : Prop :=
  cls v = CVar ∨ ∃ t, cls v = CEnumVar t.

(** An extension, cast or slice node: a view of another signal. *)
Definition is_view (v : Var) : Prop :=
  match cls v with
  | CExpr _ (VarExtend _) | CCasted _ _ | CSlice _ _ => True
  | _ => False
  end.

(** [slice_chain vars p q k]: climbing from [p] through [k] nodes tagged
    [Slice] reaches [q], which is not tagged [Slice]. *)
Inductive slice_chain (vars : list Var) : nat → nat → nat → Prop :=
| slice_chain_root p v :
    vars !! p = Some v → type_ v ≠ Slice → slice_chain vars p p 0
| slice_chain_step p v s sub q k :
    vars !! p = Some v → type_ v = Slice → cls v = CSlice s sub →
    slice_chain vars (VarSlice.parent_var s) q k →
    slice_chain vars p q (S k).

(** [sink_path vars w r d]: [w] is the plain signal [r], or a nest of
    extension, cast and range-slice views over it; [d] bounds the depth of
    the calls that a notification of [w] makes. *)
Inductive sink_path (vars : list Var) : nat → nat → nat → Prop :=
| sink_path_plain r v :
    vars !! r = Some v → plain_signal v → sink_path vars r r 1
| sink_path_extend w v e p r d :
    vars !! w = Some v → cls v = CExpr e (VarExtend p) →
    sink_path vars p r d → sink_path vars w r (S d)
| sink_path_casted w v p ct r d :
    vars !! w = Some v → cls v = CCasted p ct →
    sink_path vars p r d → sink_path vars w r (S d)
| sink_path_slice w v s q k r d :
    vars !! w = Some v → cls v = CSlice s RangeSlice →
    slice_chain vars (VarSlice.parent_var s) q k →
    sink_path vars q r d → sink_path vars w r (S (d `max` S k)).

(** [source_path vars w r d]: [w] is the plain signal [r] or a range slice
    whose chain of slices hangs from [r]. *)
Inductive source_path (vars : list Var) : nat → nat → nat → Prop :=
| source_path_plain r v :
    vars !! r = Some v → plain_signal v → source_path vars r r 1
| source_path_slice w v s r rv k :
    vars !! w = Some v → cls v = CSlice s RangeSlice →
    slice_chain vars (VarSlice.parent_var s) r k →
    vars !! r = Some rv → plain_signal rv →
    source_path vars w r (S (S k)).

(** The enum type an operand belongs to, if any. *)
Definition enum_type_of (v : Var) : option string :=
  match cls v with
  | CEnumVar t => Some t
  | CConst _ (EnumConst d) => Some d
  | _ => None
  end.

(** The tag [ConstValue] marks exactly the instances of [Const]. *)
Definition const_tag_ok (v : Var) : Prop :=
  type_ v = ConstValue ↔ ∃ value sub, cls v = CConst value sub.

(** [chained vars p q]: parameter [q] is [p] or is reached from [p]
    through [param_params_] links. *)
Inductive chained (vars : list Var) : nat → nat → Prop :=
| chained_refl p : chained vars p p
| chained_step p v value pv pp c q :
    vars !! p = Some v → cls v = CConst value (Param pv pp) →
    c ∈ pp → chained vars c q → chained vars p q.

(** The shifts of [Const::Const] are defined for this width. *)
Definition shift_defined (is_signed : bool) (w : Z) : Prop :=
  if is_signed then u32 (w - 1) < 64 else w < 64.

(** [param_ok nv vars p d]: the parameters chained below [p] form a tree of
    depth at most [d] whose nodes are parameters with valid dependents, and
    whose range check is defined both at their current width and at the
    width [nv]. *)
Inductive param_ok (nv : Z) (vars : list Var) : nat → nat → Prop :=
| param_ok_node p v value pv pp d :
    vars !! p = Some v → cls v = CConst value (Param pv pp) →
    (∀ x, x ∈ pv → is_Some (vars !! x)) →
    shift_defined (is_signed_ v) (width v) →
    shift_defined (is_signed_ v) (width (with_var_width (u32 nv) v)) →
    (∀ c, c ∈ pp → param_ok nv vars c d) →
    param_ok nv vars p (S d).

(** What a cascade of [Param::set_value] with value [nv] may change in the
    store: widths become [nv], parameter values become [nv]. *)
Definition param_frame (nv : Z) (vars vars' : list Var) : Prop :=
  ∀ p v, vars !! p = Some v →
    ∃ v', vars' !! p = Some v'
      ∧ size_ v' = size_ v ∧ is_signed_ v' = is_signed_ v
      ∧ generator v' = generator v
      ∧ (var_width_ v' = var_width_ v ∨ var_width_ v' = u32 nv)
      ∧ (cls v' = cls v
         ∨ ∃ value sub, cls v = CConst value sub ∧ cls v' = CConst nv sub).

(** What registering statement [s] may change in the store: [s] joins
    link sets; nothing appears or disappears otherwise. *)
Definition link_frame (s : nat) (vars vars' : list Var) : Prop :=
  length vars' = length vars
  ∧ ∀ q v, vars !! q = Some v →
      ∃ v', vars' !! q = Some v'
        ∧ sources_ v' ⊆ {[s]} ∪ sources_ v
        ∧ sinks_ v' ⊆ {[s]} ∪ sinks_ v.

(** What the relocation loop may change in the statement store: the
    statements owned by [parent]. *)
Definition stmts_frame (parent : nat) (stmts stmts' : list AssignStmt.t) : Prop :=
  length stmts' = length stmts
  ∧ ∀ s st, stmts !! s = Some st → AssignStmt.parent st ≠ Some parent →
      stmts' !! s = Some st.

(** Repeatedly splits a hypothesis stating that a monadic computation
    returned [Ok]. *)
Ltac inv_Ok H :=
  repeat first
    [ discriminate H
    | match type of H with
      | Ok _ = Ok _ => injection H as H
      | mret _ = Ok _ => injection H as H
      | mbind _ ?m = Ok _ =>
        let x := fresh "x" in let Hx := fresh "Hx" in
        destruct m as [x| |] eqn:Hx; cbn [mbind result_bind] in H
      | (if ?b then _ else _) = Ok _ => destruct b eqn:?
      | (let '(_, _) := ?x in _) = Ok _ => destruct x eqn:?
      | match ?x with _ => _ end = Ok _ => destruct x eqn:?
      end ].

(** Splits every hypothesis of that form. *)
Ltac inv_all :=
  repeat match goal with
  | H : mbind _ _ = Ok _ |- _ => progress inv_Ok H
  | H : match _ with _ => _ end = Ok _ |- _ => progress inv_Ok H
  | H : Ok _ = Ok _ |- _ => injection H as H
  end.

(** * Example circuits *)

(** A sample of the reserved words, as an instance of the keyword table. *)
Definition keywords : list string :=
  ["module"; "wire"; "logic"; "input"; "output"; "assign"].

Definition sample_valid_name (s : string) : bool := negb (bool_decide (s ∈ keywords)).

(** A base signal in scope 0. *)
Definition signal (nm : string) (w : Z) (sz : list Z) (sg : bool) : Var :=
  {| name := nm; generator := Some 0%nat; var_width_ := w; size_ := sz;
     is_signed_ := sg; type_ := Base; explicit_array_ := false;
     is_packed_ := false; param_ := None; sinks_ := ∅; sources_ := ∅;
     slices_ := []; concat_vars_ := []; casted_ := []; extended_ := [];
     cls := CVar |}.

(** A scalar that the user marked as an explicit array. *)
Definition explicit_signal (nm : string) (w : Z) : Var :=
  {| name := nm; generator := Some 0%nat; var_width_ := w; size_ := [1];
     is_signed_ := false; type_ := Base; explicit_array_ := true;
     is_packed_ := false; param_ := None; sinks_ := ∅; sources_ := ∅;
     slices_ := []; concat_vars_ := []; casted_ := []; extended_ := [];
     cls := CVar |}.

(** A constant literal in scope 0. *)
Definition literal (value w : Z) : Var :=
  {| name := pretty value; generator := Some 0%nat; var_width_ := w; size_ := [1];
     is_signed_ := false; type_ := ConstValue; explicit_array_ := false;
     is_packed_ := false; param_ := None; sinks_ := ∅; sources_ := ∅;
     slices_ := []; concat_vars_ := []; casted_ := []; extended_ := [];
     cls := CConst value PlainConst |}.


Definition top : list Generator.t :=
  [ {| Generator.parent := None; Generator.debug := false; Generator.stmts_ := [] |} ].

(** Signals [a] (0), [b] (1), [x] (2), [i] (3), [s] (4), [t] (5), the
    array [arr] (6), [j] (7), the flagged scalar [e] (8) and the literal 5 (9). *)
Definition circuit : list Var :=
  [signal "a" 8 [1] false; signal "b" 4 [1] false; signal "x" 8 [1] false;
   signal "i" 3 [1] false; signal "s" 4 [1] true; signal "t" 4 [1] true;
   signal "arr" 8 [4] false; signal "j" 2 [1] false; explicit_signal "e" 8;
   literal 5 8].

Definition vars_of {A} (r : result (list Var * A)) : list Var :=
  match r with Ok (v, _) => v | _ => [] end.

Definition ptr_of (r : result (list Var * nat)) : option nat :=
  match r with Ok (_, p) => Some p | _ => None end.

(** [circuit] with the derived nodes [16'(b)] (10), [a[7:4]] (11),
    [a[7:4][1:0]] (12) and [unsigned'(a)] (13). *)
Definition circuit_views : list Var :=
  let v1 := vars_of (Var_extend sample_valid_name None circuit top 1 16) in
  let v2 := vars_of (Var_index sample_valid_name v1 0 7 4) in
  let v3 := vars_of (Var_index sample_valid_name v2 11 1 0) in
  vars_of (Var_cast sample_valid_name v3 0 Unsigned).

(** The assignment [a := x] owned by scope 0 (statement 0) and [a := b]
    owned by scope 1 (statement 1), registered on their operands. *)
Definition wired_stmts : list AssignStmt.t :=
  [ {| AssignStmt.left_ := 0%nat; AssignStmt.right_ := 2%nat;
       AssignStmt.assign_type_ := Undefined; AssignStmt.parent := Some 0%nat |};
    {| AssignStmt.left_ := 0%nat; AssignStmt.right_ := 1%nat;
       AssignStmt.assign_type_ := Undefined; AssignStmt.parent := Some 1%nat |} ].

Definition wired_scopes : list Generator.t :=
  [ {| Generator.parent := None; Generator.debug := false; Generator.stmts_ := [0%nat] |};
    {| Generator.parent := Some 0%nat; Generator.debug := false;
       Generator.stmts_ := [1%nat] |} ].

Definition wired : list Var :=
  [with_sources {[0%nat; 1%nat]} (signal "a" 8 [1] false);
   with_sinks {[1%nat]} (signal "b" 4 [1] false);
   with_sinks {[0%nat]} (signal "x" 8 [1] false);
   signal "n" 4 [1] false].


(** * Further constructors and queries *)

Section Constructors.

Variable is_valid_variable_name : string → bool.
Variable const_gen : option nat.

(** ** [Param::Param] (lines 614-618)

    The base constructor receives the value 0; the parameter's name is kept
    in [parameter_name_], a member that no function of [expr.cc] reads. *)
Definition Param_ctor (m : option nat) (nm : string) (width : Z) (is_signed : bool)
    : result Var :=
  c ← Const_ctor is_valid_variable_name m 0 width is_signed;
  mret (with_type Parameter_ (with_cls (CConst 0 (Param [] [])) c)).

(** ** [VarSlice::get_var_root_parent] (lines 311-317) *)
Definition VarSlice_get_var_root_parent (fuel : nat) (vars : list Var) (this : nat)
    : result nat :=
  v ← deref vars this;
  s ← as_VarSlice v;
  slice_root fuel vars (VarSlice.parent_var s).


(** ** Enumerations (lines 1169-1192) *)

(** The conversion of a [uint64_t] argument to the [int64_t] parameter of
    [EnumConst::EnumConst]. *)
Definition s64 (z : Z) : Z := (z + 2 ^ 63) mod 2 ^ 64 - 2 ^ 63.

(** [EnumConst::EnumConst] (lines 1190-1192); the constant refers to its
    enumeration, which is identified by its name. *)
Definition EnumConst_ctor (m : option nat) (value width : Z) (parent : string)
    : result Var :=
  c ← Const_ctor is_valid_variable_name m value width false;
  mret (with_cls (CConst value (EnumConst parent)) c).

End Constructors.

Module Enum.
(** The members of [Enum]; [values] maps an enumerator name to its constant. *)
Record t := {
  name : string;
  width_ : Z;
  values : gmap string nat
}.
End Enum.

(** [emplace] on a [std::map] keeps an existing entry. *)
Definition map_emplace (k : string) (p : nat) (m : gmap string nat) : gmap string nat :=
  match m !! k with
  | Some _ => m
  | None => <[k := p]> m
  end.

Section Enumerations.

Variable is_valid_variable_name : string → bool.

(** The body of the loop of [Enum::Enum] (lines 1172-1175). *)
Definition Enum_step (generator : option nat) (nm : string) (width : Z)
    (st : list Var * gmap string nat) (entry : string * Z)
    : result (list Var * gmap string nat) :=
  c ← EnumConst_ctor is_valid_variable_name generator (s64 (snd entry)) width nm;
  let '(vars1, p) := alloc (fst st) c in
  mret (vars1, map_emplace (fst entry) p (snd st)).

(** [Enum::Enum] (lines 1169-1176).  [values] lists the entries of the
    argument map in its iteration order. *)
Definition Enum_ctor (vars : list Var) (generator : option nat) (nm : string)
    (values : list (string * Z)) (width : Z) : result (list Var * Enum.t) :=
  '(vars', m) ← foldM (Enum_step generator nm width) values (vars, ∅);
  mret (vars', {| Enum.name := nm; Enum.width_ := width; Enum.values := m |}).

(** [Enum::get_enum] (lines 1178-1182). *)
Definition Enum_get_enum (e : Enum.t) (enum_name : string) : result nat :=
  match Enum.values e !! enum_name with
  | None => Throw (UserException "Cannot find {0} in {1}")
  | Some p => Ok p
  end.

End Enumerations.

(** ** Packed structures (lines 1087-1163) *)

Module PackedStruct.
(** The members of [PackedStruct]: the name and the field table of
    (name, width, signedness) triples. *)
Record t := {
  struct_name : string;
  attributes : list (string * Z * bool)
}.
End PackedStruct.

(** The loop of [PackedSlice::set_up] (lines 1105-1119): the values it
    assigns to [high], [low] and [is_signed_] when the member is found;
    [var_high_] and [var_low_] receive the same [high] and [low]. *)
Fixpoint set_up_loop (attributes : list (string * Z * bool)) (member_name : string)
    (low_ : Z) : option (Z * Z * bool) :=
  match attributes with
  | [] => None
  | (name, width, is_signed) :: rest =>
    if bool_decide (name = member_name) then
      Some (u32 (width + low_ - 1), low_, is_signed)
    else set_up_loop rest member_name (u32 (low_ + width))
  end.

(** [PackedSlice::set_up] (lines 1103-1125). *)
Definition PackedSlice_set_up (struct_ : PackedStruct.t) (member_name : string)
    : result (Z * Z * bool) :=
  match set_up_loop (PackedStruct.attributes struct_) member_name 0 with
  | Some r => Ok r
  | None => Throw (InternalException "{0} does not exist in {1}")
  end.

(** The width that [VarPackedStruct::VarPackedStruct] computes
    (lines 1149-1154). *)
Definition VarPackedStruct_width (struct_ : PackedStruct.t) : Z :=
  fold_left (λ width def, u32 (width + snd (fst def))) (PackedStruct.attributes struct_) 0.

(** [VarPackedStruct::member_names] (lines 1157-1163). *)
Definition VarPackedStruct_member_names (struct_ : PackedStruct.t) : gset string :=
  fold_left (λ result def, {[fst (fst def)]} ∪ result) (PackedStruct.attributes struct_) ∅.

(** ** Function-call placeholders (lines 1218-1255) *)

Module FunctionStmtBlock.
(** The members of [FunctionStmtBlock] and [DPIFunctionStmtBlock] that
    [FunctionCallVar::FunctionCallVar] reads through the accessors of
    [stmt.hh]; [ports_] lists the entries of the port map in its iteration
    order. *)
Record t := {
  ports_ : list (string * nat);
  function_handler_ : option nat;
  is_dpi : bool;
  return_width_ : Z
}.
End FunctionStmtBlock.

(** The body of the loop over the ports (lines 1224-1236). *)
Definition check_port (vars : list Var) (args : gmap string nat) (entry : string * nat)
    : result () :=
  match args !! fst entry with
  | None => Throw (VarException "{0} is not connected" [snd entry])
  | Some arg_port =>
    fp ← deref vars (snd entry);
    ap ← deref vars arg_port;
    if bool_decide (width fp ≠ width ap) then
      Throw (VarException "{0}'s width doesn't match" [snd entry; arg_port])
    else if bool_decide (is_signed_ fp ≠ is_signed_ ap) then
      Throw (VarException "{0}'s sign doesn't match" [snd entry; arg_port])
    else Ok ()
  end.

Section FunctionCalls.

Variable is_valid_variable_name : string → bool.

(** [FunctionCallVar::FunctionCallVar] (lines 1218-1255).  The result is
    the [Var] part of the new node; its members [func_def_] and [args_] hold
    the arguments of the constructor. *)
Definition FunctionCallVar_ctor (vars : list Var) (m : option nat)
    (func_def : FunctionStmtBlock.t) (args : gmap string nat) (has_return : bool)
    : result Var :=
  base ← Var_ctor is_valid_variable_name m "" 0 [0] false Base CVar;
  _ ← foldM (λ _ entry, check_port vars args entry) (FunctionStmtBlock.ports_ func_def) ();
  let handle := FunctionStmtBlock.function_handler_ func_def in
  if bool_decide (handle = None) && has_return && negb (FunctionStmtBlock.is_dpi func_def)
  then Throw (StmtException "{0} doesn't have return value")
  else if has_return && negb (FunctionStmtBlock.is_dpi func_def) then
    match handle with
    | None => Fault
    | Some hp =>
      h ← deref vars hp;
      mret (with_is_signed (is_signed_ h) (with_size (size_ h) (with_var_width (width h) base)))
    end
  else if has_return && FunctionStmtBlock.is_dpi func_def then
    if bool_decide (FunctionStmtBlock.return_width_ func_def ≠ 0) then
      mret (with_is_signed false
              (with_size [1] (with_var_width (FunctionStmtBlock.return_width_ func_def) base)))
    else mret base
  else mret base.

End FunctionCalls.

(** ** Removing an assignment (lines 485-492) *)

Section Unassign.

(** [Generator::remove_stmt] is defined in [generator.cc], outside [src/]. *)
Variable Generator_remove_stmt : list Generator.t → nat → nat → result (list Generator.t).

(** [Var::unassign] (lines 485-492). *)
Definition Var_unassign (vars : list Var) (stmts : list AssignStmt.t)
    (gens : list Generator.t) (this stmt : nat) : result (list Var * list Generator.t) :=
  s ← deref stmts stmt;
  _ ← deref vars (AssignStmt.right_ s);
  let vars1 := update vars (AssignStmt.right_ s) (λ v, with_sinks (sinks_ v ∖ {[stmt]}) v) in
  t ← deref vars1 this;
  let vars2 := update vars1 this (λ v, with_sources (sources_ v ∖ {[stmt]}) v) in
  match generator t with
  | None => Fault
  | Some g =>
    gens' ← Generator_remove_stmt gens g stmt;
    mret (vars2, gens')
  end.

End Unassign.

(** ** Names (lines 200-224, 300-305, 769-815) *)

(** [VarSlice::get_slice_name] (lines 300-305). *)
Definition get_slice_name (parent_name : string) (high low : Z) : string :=
  if bool_decide (high = low) then parent_name +:+ "[" +:+ pretty high +:+ "]"
  else parent_name +:+ "[" +:+ pretty high +:+ ":" +:+ pretty low +:+ "]".

(** The string part of [Var::handle_name(bool)] (lines 204-210), from the
    handle name of the signal's scope and the signal's own text. *)
Definition Var_handle_name (gen_name to_string : string) : string :=
  if bool_decide (gen_name ≠ "") then gen_name +:+ "." +:+ to_string
  else to_string.

(** The outcomes of [Var::handle_name] with a scope argument. *)
Inductive scoped_name :=
| ScopedName (s : string)
| NotAccessible        (* the [VarException] of line 218 *)
| OutOfRange.          (* [std::out_of_range], raised by [substr] *)

(** [std::string::substr] with a start position only. *)
Fixpoint substr (s : string) (pos : nat) : option string :=
  match pos, s with
  | O, _ => Some s
  | S n, String _ rest => substr rest n
  | S _, EmptyString => None
  end.

(** The string part of [Var::handle_name] with a scope argument (lines 212-224),
    from the handle name of the scope and the handle name of the signal. *)
Definition Var_handle_name_scope (gen_name var_name : string) : scoped_name :=
  match String.index 0 gen_name var_name with
  | Some O =>
    match substr var_name (0 + String.length gen_name + 1) with
    | Some s => ScopedName s
    | None => OutOfRange
    end
  | _ => NotAccessible
  end.

Section Rendering.

(** [ExprOpStr] is declared in [expr.hh], outside [src/]. *)
Variable ExprOpStr : ExprOp → string.

(** The virtual calls [x->to_string()], [x->handle_name(ignore_top)] and
    [x->handle_name(scope)] on a node. *)
Variable to_string : nat → result string.
Variable handle_name : bool → nat → result string.
Variable handle_name_scope : nat → nat → result string.

(** The choice [use_handle ? x->handle_name(ignore_top)
    : scope ? x->handle_name(scope) : x->to_string()]. *)
Definition render (use_handle ignore_top : bool) (scope : option nat) (x : nat)
    : result string :=
  if use_handle then handle_name ignore_top x
  else match scope with
       | Some g => handle_name_scope g x
       | None => to_string x
       end.

(** [expr_to_string] (lines 769-805). *)
Fixpoint expr_to_string (fuel : nat) (vars : list Var) (expr : nat)
    (is_top use_handle ignore_top : bool) (scope : option nat) : result string :=
  match fuel with
  | O => Fault
  | S n =>
    e ← deref vars expr;
    '(f, _) ← as_Expr e;
    if bool_decide (Expr.op f = Concat) then render use_handle ignore_top scope expr
    else if bool_decide (Expr.op f = Conditional) then
      s ← render use_handle ignore_top scope expr;
      mret ("(" +:+ s +:+ ")")
    else
      l ← deref vars (Expr.left f);
      left_str ←
        (if bool_decide (type_ l = Expression) then
           '(lf, _) ← as_Expr l;
           expr_to_string n vars (Expr.left f) (bool_decide (Expr.op f = Expr.op lf))
             use_handle ignore_top scope
         else render use_handle ignore_top scope (Expr.left f));
      match Expr.right f with
      | Some rp =>
        r ← deref vars rp;
        right_str ←
          (if bool_decide (type_ r = Expression) then
             '(rf, _) ← as_Expr r;
             expr_to_string n vars rp (bool_decide (Expr.op f = Expr.op rf))
               use_handle ignore_top scope
           else render use_handle ignore_top scope rp);
        if is_top then
          mret (left_str +:+ " " +:+ ExprOpStr (Expr.op f) +:+ " " +:+ right_str)
        else
          mret ("(" +:+ left_str +:+ " " +:+ ExprOpStr (Expr.op f) +:+ " " +:+ right_str
                +:+ ")")
      | None =>
        if is_top then mret (ExprOpStr (Expr.op f) +:+ left_str)
        else mret ("(" +:+ ExprOpStr (Expr.op f) +:+ left_str +:+ ")")
      end
  end.

(** [Expr::to_string] (line 807). *)
Definition Expr_to_string (fuel : nat) (vars : list Var) (this : nat) : result string :=
  expr_to_string fuel vars this true false false None.

(** [Expr::handle_name(bool)] (lines 809-811). *)
Definition Expr_handle_name (fuel : nat) (vars : list Var) (this : nat) (ignore_top : bool)
    : result string :=
  expr_to_string fuel vars this true true ignore_top None.

(** [Expr::handle_name] with a scope argument (lines 813-815): the call passes four
    arguments, so the scope pointer lands in the [bool ignore_top] parameter
    and the [scope] parameter keeps its default, the null pointer. *)
Definition Expr_handle_name_scope (fuel : nat) (vars : list Var) (this : nat)
    (scope : option nat) : result string :=
  expr_to_string fuel vars this true false (bool_decide (scope ≠ None)) None.

End Rendering.

(** ** Source echo of [print_ast_node] ([except.cc], lines 29-59) *)

Definition CODE_RANGE : Z := 2.
Definition LINE_WIDTH : nat := 80.

Definition ESC : string := String (Ascii.ascii_of_nat 27) EmptyString.
Definition RED : string := ESC +:+ "[91m".
Definition GREEN : string := ESC +:+ "[92m".
Definition BLUE : string := ESC +:+ "[94m".
Definition ENDC : string := ESC +:+ "[0m".

(** [blue_line] (lines 18-27). *)
Definition blue_line : string :=
  Nat.iter LINE_WIDTH (λ result, result +:+ "-") BLUE +:+ ENDC.

(** The [while] loop over the lines of one file (lines 41-49): the lines
    written to [std::cerr], given the number of lines read so far. *)
Fixpoint echo_lines (line_number line_count : Z) (lines : list string) : list string :=
  match lines with
  | [] => []
  | line :: rest =>
    let line_count := u32 (line_count + 1) in
    (if bool_decide (line_count = line_number) then [RED +:+ ">" +:+ line +:+ ENDC]
     else if bool_decide (u32 (line_number - CODE_RANGE) ≤ line_count
                          ∧ line_count ≤ u32 (line_number + CODE_RANGE))
          then [GREEN +:+ " " +:+ line +:+ ENDC]
          else [])
    ++ echo_lines line_number line_count rest
  end.

(** [print_ast_node] (lines 29-59) on a Unix system: the lines written to
    [std::cerr] for the source locations [fn_name_ln] of a node, where
    [files] gives the lines of the files that exist. *)
Definition print_ast_node (files : string → option (list string))
    (fn_name_ln : list (string * Z)) : list string :=
  flat_map (λ loc,
    match files (fst loc) with
    | Some lines =>
      [fst loc; blue_line] ++ echo_lines (snd loc) 0 lines ++ [blue_line]
    | None => []
    end) fn_name_ln.

(** * Specification-side definitions, continued *)

(** The values a constant of the given width and signedness can hold. *)
Definition representable (is_signed : bool) (w value : Z) : Prop :=
  if is_signed then - 2 ^ (w - 1) ≤ value ≤ 2 ^ (w - 1) - 1
  else 0 ≤ value ≤ 2 ^ w - 1.

(** The product of a dimension list. *)
Definition dims_product (l : list Z) : Z := foldr Z.mul 1 l.

(** The operands that [Expr::add_sink], [ConditionalExpr::add_sink] and
    [VarConcat::add_sink] notify, in order. *)
Definition operands (v : Var) : option (list nat) :=
  match cls v with
  | CExpr e PlainExpr =>
    Some (Expr.left e :: match Expr.right e with Some r => [r] | None => [] end)
  | CExpr e (ConditionalExpr c) =>
    match Expr.right e with
    | Some r => Some [c; Expr.left e; r]
    | None => None
    end
  | CExpr _ (VarConcat vs) => Some vs
  | _ => None
  end.

(** [operand_tree vars w d]: the operands under [w] form a tree of
    operator, conditional and concatenation nodes of depth at most [d],
    whose leaves are plain signals. *)
Inductive operand_tree (vars : list Var) : nat → nat → Prop :=
| operand_tree_leaf r v d :
    vars !! r = Some v → plain_signal v → operand_tree vars r (S d)
| operand_tree_node w v ops d :
    vars !! w = Some v → operands v = Some ops →
    (∀ x, x ∈ ops → operand_tree vars x d) →
    operand_tree vars w (S d).

(** [leaf_of vars w r]: the plain signal [r] is [w] or is read, through
    operands, by [w]. *)
Inductive leaf_of (vars : list Var) : nat → nat → Prop :=
| leaf_of_self r v :
    vars !! r = Some v → plain_signal v → leaf_of vars r r
| leaf_of_step w v ops x r :
    vars !! w = Some v → operands v = Some ops → x ∈ ops →
    leaf_of vars x r → leaf_of vars w r.

(** What notifying the signals in [L] of statement [stmt] may change in
    the store: [stmt] joins the sink sets of the signals in [L]. *)
Definition sink_reg (stmt : nat) (L : nat → Prop) (vars vars' : list Var) : Prop :=
  (∀ q, vars !! q = None → vars' !! q = None)
  ∧ ∀ q v, vars !! q = Some v →
      ∃ v', vars' !! q = Some v' ∧ cls v' = cls v ∧ sinks_ v ⊆ sinks_ v'
        ∧ (L q → stmt ∈ sinks_ v') ∧ (¬ L q → v' = v).

(** The sum of the total widths of the members of a concatenation. *)
Definition members_width (vars : list Var) (vs : list nat) : Z :=
  foldr (λ x acc, match vars !! x with
                  | Some m => width m + acc
                  | None => acc
                  end) 0 vs.

(** The sum of the field widths of a field table. *)
Definition fields_width (attributes : list (string * Z * bool)) : Z :=
  foldr (λ def acc, snd (fst def) + acc) 0 attributes.

(** Decimal digits, and strings of decimal digits. *)
Definition is_digit (c : Ascii.ascii) : bool :=
  (48 <=? Ascii.nat_of_ascii c)%nat && (Ascii.nat_of_ascii c <=? 57)%nat.

Fixpoint all_digits (s : string) : Prop :=
  match s with
  | EmptyString => True
  | String c rest => is_digit c = true ∧ all_digits rest
  end.

(** The marked forms of a source line in the echo of [print_ast_node]. *)
Definition red_line (line : string) : string := RED +:+ ">" +:+ line +:+ ENDC.
Definition green_line (line : string) : string := GREEN +:+ " " +:+ line +:+ ENDC.

(** A port of a function that the call connects to an argument of the same
    total width and signedness. *)
Definition port_connected (vars : list Var) (args : gmap string nat) (entry : string * nat)
    : Prop :=
  ∃ arg_port fp ap, args !! fst entry = Some arg_port
    ∧ vars !! snd entry = Some fp ∧ vars !! arg_port = Some ap
    ∧ width fp = width ap ∧ is_signed_ fp = is_signed_ ap.

(** * Example circuits, continued *)


(** An unsigned operator node of scope 0. *)
Definition operator_node (e : Expr.t) (sub : ExprSub) (w : Z) : Var :=
  {| name := ""; generator := Some 0%nat; var_width_ := w; size_ := [1];
     is_signed_ := false; type_ := Expression; explicit_array_ := false;
     is_packed_ := false; param_ := None; sinks_ := ∅; sources_ := ∅;
     slices_ := []; concat_vars_ := []; casted_ := []; extended_ := [];
     cls := CExpr e sub |}.

(** The signals [a] (0), [b] (1) and [c] (2), the sum [a + b] (3) and the
    conditional [c ? a + b : a] (4). *)
Definition expression_circuit : list Var :=
  [signal "a" 8 [1] false; signal "b" 8 [1] false; signal "c" 1 [1] false;
   operator_node {| Expr.op := Add; Expr.left := 0; Expr.right := Some 1%nat |} PlainExpr 8;
   operator_node {| Expr.op := Conditional; Expr.left := 3; Expr.right := Some 0%nat |}
     (ConditionalExpr 2) 8].

(** The signals [a] (0), [b] (1) and [c] (2) with the differences [b - c]
    (3), [a - (b - c)] (4), [a - b] (5) and [(a - b) - c] (6). *)
Definition grouping_circuit : list Var :=
  [signal "a" 8 [1] false; signal "b" 8 [1] false; signal "c" 8 [1] false;
   operator_node {| Expr.op := Minus; Expr.left := 1; Expr.right := Some 2%nat |} PlainExpr 8;
   operator_node {| Expr.op := Minus; Expr.left := 0; Expr.right := Some 3%nat |} PlainExpr 8;
   operator_node {| Expr.op := Minus; Expr.left := 0; Expr.right := Some 1%nat |} PlainExpr 8;
   operator_node {| Expr.op := Minus; Expr.left := 5; Expr.right := Some 2%nat |} PlainExpr 8].

(** An instance of the operator table, and the text of a plain signal,
    which [Var::to_string] (line 200) makes its name. *)
Definition sample_ExprOpStr (op : ExprOp) : string :=
  match op with
  | Add => "+"
  | Minus => "-"
  | _ => "?"
  end.

Definition Var_to_string (vars : list Var) (x : nat) : result string :=
  v ← deref vars x; mret (name v).

(** The concatenation node [{a, a}] over signal 0. *)
Definition doubled_concat : Var :=
  operator_node (concat_fields 0 0) (VarConcat [0%nat; 0%nat]) 16.

(** A packed structure with the fields [tag], [payload] and [valid]. *)
Definition sample_struct : PackedStruct.t :=
  {| PackedStruct.struct_name := "packet";
     PackedStruct.attributes := [("tag", 4, false); ("payload", 8, true);
                                 ("valid", 1, false)] |}.

(** A function whose port [x] is signal 0 and whose return handler is
    signal 2. *)
Definition sample_function : FunctionStmtBlock.t :=
  {| FunctionStmtBlock.ports_ := [("x", 0%nat)];
     FunctionStmtBlock.function_handler_ := Some 2%nat;
     FunctionStmtBlock.is_dpi := false;
     FunctionStmtBlock.return_width_ := 0 |}.

(** An instance of [Generator::remove_stmt]: the statement leaves the
    statement list of the scope. *)
Definition sample_remove_stmt (gens : list Generator.t) (g stmt : nat)
    : result (list Generator.t) :=
  _ ← deref gens g;
  mret (update gens g (λ gn, {| Generator.parent := Generator.parent gn;
                                Generator.debug := Generator.debug gn;
                                Generator.stmts_ :=
                                  filter (λ s, s ≠ stmt) (Generator.stmts_ gn) |})).

(** Closed side conditions are settled by evaluation. *)
Ltac evaluated := vm_compute; first [reflexivity | intuition congruence].

(** * Specification-side definitions for assignments and parameter chains *)


(** The index signal of a variable-indexed slice. *)
Definition slice_index (sub : SliceSub) : list nat :=
  match sub with
  | RangeSlice => []
  | VarVarSlice sliced_var_ => [sliced_var_]
  end.

(** [sink_operands vars v ops k]: the nodes that a sink notification of
    the node [v] is passed on to, in order: the operands of an operator, a
    conditional or a concatenation, the signal under an extension or a cast,
    and for a slice the signal found by climbing [k] slices from its parent,
    followed by the index signal of a variable-indexed slice. *)
Inductive sink_operands (vars : list Var) (v : Var) : list nat → nat → Prop :=
| sink_operands_expr e :
    cls v = CExpr e PlainExpr →
    sink_operands vars v
      (Expr.left e :: match Expr.right e with Some r => [r] | None => [] end) 0
| sink_operands_conditional e c r :
    cls v = CExpr e (ConditionalExpr c) → Expr.right e = Some r →
    sink_operands vars v [c; Expr.left e; r] 0
| sink_operands_concat e vs :
    cls v = CExpr e (VarConcat vs) → sink_operands vars v vs 0
| sink_operands_extend e p :
    cls v = CExpr e (VarExtend p) → sink_operands vars v [p] 0
| sink_operands_casted p ct :
    cls v = CCasted p ct → sink_operands vars v [p] 0
| sink_operands_slice s sub q k :
    cls v = CSlice s sub → slice_chain vars (VarSlice.parent_var s) q k →
    sink_operands vars v (q :: slice_index sub) k.

(** [sink_tree vars w d]: a well-formed source operand.  [w] is a plain
    signal, a constant, or a node whose operands are such operands again;
    [d] bounds the depth of the calls that a sink notification of [w]
    makes. *)
Inductive sink_tree (vars : list Var) : nat → nat → Prop :=
| sink_tree_plain r v d :
    vars !! r = Some v → plain_signal v → sink_tree vars r (S d)
| sink_tree_const r v value sub d :
    vars !! r = Some v → cls v = CConst value sub → sink_tree vars r (S d)
| sink_tree_node w v ops k d :
    vars !! w = Some v → sink_operands vars v ops k → (k ≤ d)%nat →
    (∀ x, x ∈ ops → sink_tree vars x d) →
    sink_tree vars w (S d).

(** [sink_leaf vars w r]: the plain signal [r] is read by the operand [w]:
    it is [w], or is reached from [w] through operands. *)
Inductive sink_leaf (vars : list Var) : nat → nat → Prop :=
| sink_leaf_self r v :
    vars !! r = Some v → plain_signal v → sink_leaf vars r r
| sink_leaf_step w v ops k x r :
    vars !! w = Some v → sink_operands vars v ops k → x ∈ ops →
    sink_leaf vars x r → sink_leaf vars w r.

(** [source_tree vars w d]: a well-formed target.  [w] is a plain signal,
    or a slice (with bounds or with an index signal) whose chain of slices
    hangs from such a target and whose index signal, if any, is one too;
    [d] bounds the depth of the calls that a source notification of [w]
    makes. *)
Inductive source_tree (vars : list Var) : nat → nat → Prop :=
| source_tree_plain r v d :
    vars !! r = Some v → plain_signal v → source_tree vars r (S d)
| source_tree_slice w v s sub q k d :
    vars !! w = Some v → cls v = CSlice s sub →
    slice_chain vars (VarSlice.parent_var s) q k → (k ≤ d)%nat →
    (∀ x, x ∈ q :: slice_index sub → source_tree vars x d) →
    source_tree vars w (S d).

(** [source_leaf vars w r]: the plain signal [r] is written through the
    target [w]. *)
Inductive source_leaf (vars : list Var) : nat → nat → Prop :=
| source_leaf_self r v :
    vars !! r = Some v → plain_signal v → source_leaf vars r r
| source_leaf_step w v s sub q k x r :
    vars !! w = Some v → cls v = CSlice s sub →
    slice_chain vars (VarSlice.parent_var s) q k →
    x ∈ q :: slice_index sub → source_leaf vars x r →
    source_leaf vars w r.

(** What registering statement [stmt] changes in the store: the signals
    in [R] have it in their sink sets and the signals in [W] in their source
    sets; no other link set changes; classes and type tags stay, and so do
    the scopes of all nodes but constants. *)
Definition link_reg (stmt : nat) (R W : nat → Prop) (vars vars' : list Var) : Prop :=
  length vars' = length vars
  ∧ ∀ q v, vars !! q = Some v →
      ∃ v', vars' !! q = Some v'
        ∧ cls v' = cls v ∧ type_ v' = type_ v
        ∧ ((∀ value sub, cls v ≠ CConst value sub) → generator v' = generator v)
        ∧ sinks_ v ⊆ sinks_ v' ∧ sources_ v ⊆ sources_ v'
        ∧ (R q → stmt ∈ sinks_ v') ∧ (¬ R q → sinks_ v' = sinks_ v)
        ∧ (W q → stmt ∈ sources_ v') ∧ (¬ W q → sources_ v' = sources_ v).

(** Two stores with the same nodes, up to link sets and scopes. *)
Definition same_shape (a b : list Var) : Prop :=
  ∀ q, (cls <$> b !! q) = (cls <$> a !! q) ∧ (type_ <$> b !! q) = (type_ <$> a !! q).

(** The node [l] is not a constant and belongs to scope [g]. *)
Definition scoped (vars : list Var) (l g : nat) : Prop :=
  ∃ lv, vars !! l = Some lv ∧ (∀ value sub, cls lv ≠ CConst value sub)
        ∧ generator lv = Some g.

(** * Example circuits for assignments, arrays and enumerations *)

(** Two arrays [p] (0) and [q] (1) of four 8-bit elements. *)
Definition array_circuit : list Var :=
  [signal "p" 8 [4] false; signal "q" 8 [4] false].

(** An enum variable of the enumeration [t] in scope 0. *)
Definition enum_signal (nm t : string) (w : Z) : Var :=
  with_cls (CEnumVar t) (signal nm w [1] false).

(** The enum variables [state] (0) and [next] (1) of the enumeration [st]
    and [mode] (2) of the enumeration [md]. *)
Definition enum_circuit : list Var :=
  [enum_signal "state" "st" 2; enum_signal "next" "st" 2; enum_signal "mode" "md" 2].

(** * Properties *)

Section Properties.

Variable is_valid_variable_name : string → bool.
Variable const_gen : option nat.

(** Derived nodes are created with the empty name, which is not a keyword. *)
Hypothesis empty_name_valid : is_valid_variable_name "" = true.

Lemma bind_Ok {A B} (m : result A) (k : A → result B) b :
  m ≫= k = Ok b → ∃ a, m = Ok a ∧ k a = Ok b.
Proof. destruct m; cbn; [eauto|done..]. Qed.

Lemma deref_Ok {A} (st : list A) p a : deref st p = Ok a ↔ st !! p = Some a.
Proof. unfold deref. destruct (st !! p); split; congruence. Qed.

Lemma deref_lookup {A} (st : list A) p a : st !! p = Some a → deref st p = Ok a.
Proof. apply deref_Ok. Qed.

Lemma u32_idemp z : u32 (u32 z) = u32 z.
Proof. unfold u32. apply Z.mod_mod. lia. Qed.

Lemma u32_small z : 0 ≤ z < 2 ^ 32 → u32 z = z.
Proof. unfold u32. intros. apply Z.mod_small. lia. Qed.

Lemma u32_range z : 0 ≤ u32 z < 2 ^ 32.
Proof. unfold u32. apply Z.mod_pos_bound. lia. Qed.

Lemma width_scalar v : size_ v = [1] → width v = u32 (var_width_ v).
Proof. unfold width. intros ->. simpl. by rewrite Z.mul_1_r. Qed.

Lemma Var_ctor_Ok m nm w sz sg t c :
  m ≠ None → is_valid_variable_name nm = true →
  Var_ctor is_valid_variable_name m nm w sz sg t c =
    Ok {| name := nm; generator := m; var_width_ := w; size_ := sz;
          is_signed_ := sg; type_ := t; explicit_array_ := false;
          is_packed_ := false; param_ := None; sinks_ := ∅; sources_ := ∅;
          slices_ := []; concat_vars_ := []; casted_ := []; extended_ := [];
          cls := c |}.
Proof.
  intros Hm Hn. unfold Var_ctor.
  rewrite bool_decide_eq_false_2 by tauto. by rewrite Hn.
Qed.

(** [Expr::Expr]: with a right operand whose total width differs from
    the left operand's, construction throws the width-mismatch exception
    that carries both operands; a constructed expression has width
    (the [var_width_] member, which is the total width when the operand is
    not an array) 1 for a relational or reduction operator and the left
    operand's width otherwise; it is signed iff both operands are (with no
    right operand: iff the operand is). *)
Theorem Expr_ctor_width_sign (vars : list Var) (gens : list Generator.t)
    (op : ExprOp) (left : nat) (right : option nat) (l : Var) :
  vars !! left = Some l →
  generator l ≠ None →
  (∀ rp rn, right = Some rp → vars !! rp = Some rn →
     (width l ≠ width rn →
      Expr_ctor is_valid_variable_name const_gen vars gens op left right =
        Throw (VarException
          "left ({0}) width ({1}) doesn't match with right ({2}) width ({3})" [left; rp]))
     ∧ (width l = width rn → generator rn = generator l →
        succeeds (Expr_ctor is_valid_variable_name const_gen vars gens op left right)))
  ∧ (right = None →
     succeeds (Expr_ctor is_valid_variable_name const_gen vars gens op left right))
  ∧ (∀ e, Expr_ctor is_valid_variable_name const_gen vars gens op left right = Ok e →
       var_width_ e = (if is_relational_op op || is_reduction_op op then 1 else width l)
       ∧ size_ e = size_ l
       ∧ (size_ l = [1] → width e = var_width_ e)
       ∧ is_signed_ e = match right ≫= (vars !!.) with
                        | Some rn => is_signed_ l && is_signed_ rn
                        | None => is_signed_ l
                        end).
Proof.
  intros Hl Hg. unfold Expr_ctor.
  rewrite (deref_lookup _ _ _ Hl). cbn [mbind result_bind].
  split; [|split].
  - intros rp rn -> Hr. cbn [deref_opt mbind result_bind mret result_ret].
    rewrite (deref_lookup _ _ _ Hr). cbn [mbind result_bind mret result_ret].
    rewrite Var_ctor_Ok by done. cbn [mbind result_bind].
    split.
    + intros Hw. by rewrite bool_decide_eq_true_2.
    + intros Hw Hgen. rewrite bool_decide_eq_false_2 by (intros ?; done).
      unfold Expr_set_parent.
      destruct (bool_decide (generator l = const_gen)); [by eexists|].
      destruct (bool_decide (generator rn = const_gen)); [by eexists|].
      rewrite bool_decide_eq_true_2 by done. by eexists.
  - intros ->. cbn [deref_opt mbind result_bind mret result_ret].
    rewrite Var_ctor_Ok by done. by eexists.
  - intros e. destruct right as [rp|]; cbn [deref_opt mbind result_bind mret result_ret].
    + destruct (vars !! rp) as [rn|] eqn:Hr; unfold deref; rewrite Hr;
        cbn [mbind result_bind mret result_ret]; [|done].
      rewrite Var_ctor_Ok by done. cbn [mbind result_bind].
      case_bool_decide; [done|].
      destruct (Expr_set_parent _ _ _ _) as [g| |]; cbn [mbind result_bind mret result_ret];
        [|done..].
      intros [= <-]. cbn. rewrite Hr. split_and!; try done.
      intros Hs. rewrite Hs. cbn. rewrite Z.mul_1_r.
      destruct (is_relational_op op || is_reduction_op op); [done|].
      rewrite width_scalar by done. apply u32_idemp.
    + rewrite Var_ctor_Ok by done. cbn [mbind result_bind mret result_ret].
      intros [= <-]. cbn. split_and!; try done.
      intros Hs. rewrite Hs. cbn. rewrite Z.mul_1_r.
      destruct (is_relational_op op || is_reduction_op op); [done|].
      rewrite width_scalar by done. apply u32_idemp.
Qed.

(** ** Stores *)

Lemma update_lookup_eq {A} (st : list A) p f a :
  st !! p = Some a → update st p f !! p = Some (f a).
Proof.
  intros H. unfold update. rewrite H. apply list_lookup_insert_eq.
  by eapply lookup_lt_Some.
Qed.

Lemma update_lookup_ne {A} (st : list A) p q f :
  p ≠ q → update st p f !! q = st !! q.
Proof.
  intros H. unfold update. destruct (st !! p); [|done].
  by apply list_lookup_insert_ne.
Qed.

Lemma update_length {A} (st : list A) p f : length (update st p f) = length st.
Proof. unfold update. destruct (st !! p); [|done]. apply length_insert. Qed.

Lemma lookup_alloc_new {A} (st : list A) a : (st ++ [a]) !! length st = Some a.
Proof. rewrite lookup_app_r by lia. by rewrite Nat.sub_diag. Qed.

Lemma lookup_alloc_old {A} (st : list A) a p x :
  st !! p = Some x → (st ++ [a]) !! p = Some x.
Proof. intros H. by apply lookup_app_l_Some. Qed.

(** ** Slicing *)

Lemma Var_index_scalar (vars : list Var) (this : nat) (v : Var) (high low : Z) :
  vars !! this = Some v →
  size_ v = [1] → explicit_array_ v = false → generator v ≠ None →
  slice_tag_ok v →
  low ≤ high → high < width v →
  ∃ vh vl,
    Var_index is_valid_variable_name vars this high low =
      Ok (update (vars ++ [scalar_slice_node v this high low vh vl]) this
            (slices_emplace (length vars)), length vars)
    ∧ (type_ v ≠ Slice → vh = high ∧ vl = low)
    ∧ (∀ s sub, type_ v = Slice → cls v = CSlice s sub →
         vl = u32 (low + VarSlice.var_low_ s)).
Proof.
  intros Hv Hsz Hex Hg Htag Hlh Hhw.
  unfold Var_index. rewrite (deref_lookup _ _ _ Hv). cbn [mbind result_bind].
  rewrite bool_decide_eq_false_2 by lia.
  assert (Hsc : is_scalar v = true) by (unfold is_scalar; by rewrite bool_decide_eq_true_2).
  rewrite Hsc. rewrite bool_decide_eq_false_2 by lia. cbn [mbind result_bind].
  unfold VarSlice_ctor. rewrite (deref_lookup _ _ _ Hv). cbn [mbind result_bind].
  rewrite Var_ctor_Ok by done. cbn [mbind result_bind].
  rewrite Hsc, Hex. cbn [andb mbind result_bind].
  destruct (decide (type_ v = Slice)) as [Hty|Hty].
  - destruct (Htag Hty) as (s & sub & Hcls).
    rewrite bool_decide_eq_false_2 by (intros ?; done).
    unfold as_VarSlice. rewrite Hcls. cbn [mbind result_bind mret result_ret alloc].
    eexists _, _. split; [reflexivity|]. split; [done|].
    intros s' sub' _ [= <- <-]. done.
  - rewrite bool_decide_eq_true_2 by done.
    cbn [mbind result_bind mret result_ret alloc].
    eexists _, _. split; [reflexivity|]. split; [done|].
    intros s sub Hty'. done.
Qed.

Lemma scalar_slice_node_width v this high low vh vl :
  0 ≤ high - low + 1 < 2 ^ 32 →
  width (scalar_slice_node v this high low vh vl) = high - low + 1.
Proof.
  intros H. rewrite width_scalar by done. cbn. rewrite u32_idemp. by apply u32_small.
Qed.

Lemma width_range v : size_ v = [1] → 0 ≤ width v < 2 ^ 32.
Proof. intros H. rewrite width_scalar by done. apply u32_range. Qed.

(** C3 (as amended).  Slicing a scalar signal that is not marked as an
    explicit array with [low <= high <= width - 1] yields a node of width
    [high - low + 1] (with absolute offsets [(high, low)] when the signal is
    not itself a slice); slicing that slice with local bounds [(h2, l2)]
    yields a node of width [h2 - l2 + 1] whose absolute low offset is the
    outer slice's absolute low offset plus [l2]. *)
Theorem slice_scalar_compose (vars : list Var) (this : nat) (v : Var) (high low : Z) :
  vars !! this = Some v →
  size_ v = [1] → explicit_array_ v = false → slice_tag_ok v →
  generator v ≠ None →
  0 ≤ low → low ≤ high → high ≤ width v - 1 →
  ∃ vars1 s sn f,
    Var_index is_valid_variable_name vars this high low = Ok (vars1, s)
    ∧ vars1 !! s = Some sn
    ∧ width sn = high - low + 1
    ∧ cls sn = CSlice f RangeSlice
    ∧ VarSlice.parent_var f = this
    ∧ (type_ v ≠ Slice → VarSlice.var_high_ f = high ∧ VarSlice.var_low_ f = low)
    ∧ ∀ h2 l2, 0 ≤ l2 → l2 ≤ h2 → h2 ≤ width sn - 1 →
        ∃ vars2 t tn f2,
          Var_index is_valid_variable_name vars1 s h2 l2 = Ok (vars2, t)
          ∧ vars2 !! t = Some tn
          ∧ width tn = h2 - l2 + 1
          ∧ cls tn = CSlice f2 RangeSlice
          ∧ VarSlice.parent_var f2 = s
          ∧ VarSlice.var_low_ f2 = u32 (VarSlice.var_low_ f + l2)
          ∧ (type_ v ≠ Slice → VarSlice.var_low_ f2 = low + l2).
Proof.
  intros Hv Hsz Hex Htag Hg Hl Hlh Hhw.
  pose proof (width_range v Hsz) as Hwr.
  destruct (Var_index_scalar vars this v high low) as (vh & vl & Heq & Hns & _);
    [done..|lia|].
  assert (Hlt : (this < length vars)%nat) by by eapply lookup_lt_Some.
  set (sn := scalar_slice_node v this high low vh vl) in *.
  set (vars1 := update (vars ++ [sn]) this (slices_emplace (length vars))) in *.
  assert (Hsn : vars1 !! length vars = Some sn).
  { unfold vars1. rewrite update_lookup_ne by lia. apply lookup_alloc_new. }
  assert (Hwsn : width sn = high - low + 1)
    by (apply scalar_slice_node_width; lia).
  eexists vars1, (length vars), sn, _.
  split; [done|]. split; [done|]. split; [done|]. split; [reflexivity|].
  split; [done|]. split; [exact Hns|].
  intros h2 l2 Hl2 Hlh2 Hhw2.
  destruct (Var_index_scalar vars1 (length vars) sn h2 l2) as (vh2 & vl2 & Heq2 & _ & Hsl);
    [done..| |lia|lia|].
  { intros _. by eexists _, _. }
  eexists _, _, _, _. split; [exact Heq2|].
  split.
  { rewrite update_lookup_ne; [apply lookup_alloc_new|].
    unfold vars1. rewrite update_length, length_app. simpl. lia. }
  split; [apply scalar_slice_node_width; lia|].
  split; [reflexivity|]. split; [done|].
  cbn. rewrite (Hsl _ _ eq_refl eq_refl). cbn.
  split; [by rewrite Z.add_comm|].
  intros Hty. destruct (Hns Hty) as [_ ->]. rewrite u32_small by lia. lia.
Qed.

(** ** Variable-indexed slices *)

Lemma VarSlice_ctor_00 (vars : list Var) (parent : nat) (par : Var) :
  vars !! parent = Some par →
  generator par ≠ None → slice_tag_ok par → size_ par ≠ [] →
  succeeds (VarSlice_ctor is_valid_variable_name vars parent 0 0).
Proof.
  intros Hp Hg Htag Hsz. unfold VarSlice_ctor.
  rewrite (deref_lookup _ _ _ Hp). cbn [mbind result_bind].
  rewrite Var_ctor_Ok by done. cbn [mbind result_bind].
  destruct (decide (type_ par = Slice)) as [Hty|Hty].
  - destruct (Htag Hty) as (s & sub & Hcls).
    rewrite (bool_decide_eq_false_2 (type_ par ≠ Slice)) by (intros ?; done).
    unfold as_VarSlice. rewrite Hcls.
    destruct (is_scalar par), (explicit_array_ par); cbn;
      try (by eexists); destruct (size_ par); try done; cbn; by eexists.
  - rewrite (bool_decide_eq_true_2 (type_ par ≠ Slice)) by done.
    destruct (is_scalar par), (explicit_array_ par); cbn;
      try (by eexists); destruct (size_ par); try done; cbn; by eexists.
Qed.

(** C9 (as amended).  [VarVarSlice::VarVarSlice]: when the parent is an
    array (or is marked as an explicit array), construction succeeds when the
    index signal's width equals the ceiling of log2 of the parent's outer
    dimension, with a minimum of 1, and otherwise throws; when the parent is
    a plain scalar the index width is not examined and construction succeeds. *)
Theorem VarVarSlice_index_width (vars : list Var) (parent slice : nat) (par idx : Var) :
  vars !! parent = Some par → vars !! slice = Some idx →
  generator par ≠ None → slice_tag_ok par →
  (size_ par = [1] → explicit_array_ par = false →
   succeeds (VarVarSlice_ctor is_valid_variable_name vars parent slice))
  ∧ (∀ d rest, size_ par = d :: rest →
       size_ par ≠ [1] ∨ explicit_array_ par = true → 0 < d →
       (width idx = Z.max 1 (Z.log2_up d) →
        succeeds (VarVarSlice_ctor is_valid_variable_name vars parent slice))
       ∧ (width idx ≠ Z.max 1 (Z.log2_up d) →
          VarVarSlice_ctor is_valid_variable_name vars parent slice =
            Throw (VarException
              "Bit extraction of array[{0}:0] requires {1} bit index, not {2} bits."
              [parent; slice]))).
Proof.
  intros Hp Hi Hg Htag. split.
  - intros Hsz Hex. unfold VarVarSlice_ctor.
    destruct (VarSlice_ctor_00 vars parent par) as [base ->]; [done..|by rewrite Hsz|].
    cbn [mbind result_bind].
    rewrite (deref_lookup _ _ _ Hp), (deref_lookup _ _ _ Hi). cbn [mbind result_bind].
    unfold is_scalar. rewrite bool_decide_eq_true_2 by done. rewrite Hex. cbn.
    by eexists.
  - intros d rest Hsz Harr Hd. unfold VarVarSlice_ctor.
    destruct (VarSlice_ctor_00 vars parent par) as [base ->]; [done..|by rewrite Hsz|].
    cbn [mbind result_bind].
    rewrite (deref_lookup _ _ _ Hp), (deref_lookup _ _ _ Hi). cbn [mbind result_bind].
    assert (is_scalar par && negb (explicit_array_ par) = false) as ->.
    { unfold is_scalar. destruct Harr as [Hn| ->].
      - by rewrite bool_decide_eq_false_2.
      - by rewrite andb_false_r. }
    rewrite Hsz. cbn [mbind result_bind].
    unfold required_width. rewrite (bool_decide_eq_false_2 (d ≤ 0)) by lia.
    cbn [mbind result_bind]. split; intros Hw.
    + rewrite (bool_decide_eq_false_2 (_ ≠ width idx)) by (intros ?; done).
      by eexists.
    + rewrite (bool_decide_eq_true_2 (_ ≠ width idx)) by (intros ?; done). done.
Qed.

(** ** Link-set notifications *)

Lemma elem_of_add (x : nat) (X : gset nat) : x ∈ ({[x]} ∪ X : gset nat).
Proof. apply elem_of_union. left. by apply elem_of_singleton. Qed.

Lemma slice_root_chain (vars : list Var) p q k :
  slice_chain vars p q k → ∀ fuel, (k < fuel)%nat → slice_root fuel vars p = Ok q.
Proof.
  induction 1 as [p v Hp Hty|p v s sub q k Hp Hty Hcls _ IH]; intros fuel Hf.
  - destruct fuel as [|n]; [lia|]. cbn [slice_root].
    rewrite (deref_lookup _ _ _ Hp). cbn [mbind result_bind].
    by rewrite bool_decide_eq_false_2.
  - destruct fuel as [|n]; [lia|]. cbn [slice_root].
    rewrite (deref_lookup _ _ _ Hp). cbn [mbind result_bind].
    rewrite bool_decide_eq_true_2 by done.
    unfold as_VarSlice. rewrite Hcls. cbn [mbind result_bind].
    apply IH. lia.
Qed.

Lemma add_sink_path (stmts : list AssignStmt.t) (gens : list Generator.t)
    (vars : list Var) (stmt : nat) w r d :
  sink_path vars w r d →
  ∀ fuel, (d ≤ fuel)%nat →
    add_sink fuel stmts gens vars w stmt = Ok (update vars r (Var_add_sink stmt)).
Proof.
  induction 1 as [r v Hr Hpl|w v e p r d Hw Hcls _ IH|w v p ct r d Hw Hcls _ IH
                 |w v s q k r d Hw Hcls Hch _ IH]; intros fuel Hf;
    (destruct fuel as [|n]; [lia|]); cbn [add_sink];
    first [rewrite (deref_lookup _ _ _ Hw)|rewrite (deref_lookup _ _ _ Hr)];
    cbn [mbind result_bind].
  - by destruct Hpl as [->|[t ->]].
  - rewrite Hcls. apply IH. lia.
  - rewrite Hcls. apply IH. lia.
  - rewrite Hcls. rewrite (slice_root_chain _ _ _ _ Hch) by lia.
    cbn [mbind result_bind]. rewrite IH by lia. done.
Qed.

Lemma add_source_path (vars : list Var) (stmt : nat) w r d :
  source_path vars w r d →
  ∀ fuel, (d ≤ fuel)%nat →
    add_source fuel vars w stmt = Ok (update vars r (Var_add_source stmt)).
Proof.
  destruct 1 as [r v Hr Hpl|w v s r rv k Hw Hcls Hch Hr Hpl]; intros fuel Hf;
    (destruct fuel as [|n]; [lia|]); cbn [add_source].
  - rewrite (deref_lookup _ _ _ Hr). cbn [mbind result_bind].
    by destruct Hpl as [->|[t ->]].
  - rewrite (deref_lookup _ _ _ Hw). cbn [mbind result_bind].
    rewrite Hcls. rewrite (slice_root_chain _ _ _ _ Hch) by lia.
    cbn [mbind result_bind].
    destruct n as [|n]; [lia|]. cbn [add_source].
    rewrite (deref_lookup _ _ _ Hr). cbn [mbind result_bind].
    by destruct Hpl as [->|[t ->]].
Qed.

Lemma sink_path_root_plain vars w r d :
  sink_path vars w r d → ∃ rv, vars !! r = Some rv ∧ plain_signal rv.
Proof. induction 1; eauto. Qed.

Lemma view_not_plain v : is_view v → plain_signal v → False.
Proof.
  unfold is_view, plain_signal. intros Hv [H|[t H]]; rewrite H in Hv; done.
Qed.

Lemma source_path_root_plain vars w r d :
  source_path vars w r d → ∃ rv, vars !! r = Some rv ∧ plain_signal rv.
Proof. destruct 1; eauto. Qed.

(** C6 (as amended).  A sink notification delivered to an extension, cast
    or range-slice node is recorded in the sink set of the plain signal
    under the views and leaves the node itself as it was; so is a source
    notification delivered to a range slice, in the source set.  A source
    notification delivered to an extension node throws.  A variable-indexed
    slice forwards to the signal under it in the same way and then notifies
    its index signal. *)
Theorem wrapper_notifications_forward (stmts : list AssignStmt.t)
    (gens : list Generator.t) (vars : list Var) (stmt w : nat) (v : Var) :
  vars !! w = Some v → is_view v →
  (∀ r d fuel, sink_path vars w r d → (d ≤ fuel)%nat →
     add_sink fuel stmts gens vars w stmt = Ok (update vars r (Var_add_sink stmt))
     ∧ update vars r (Var_add_sink stmt) !! w = Some v
     ∧ ∃ rv, update vars r (Var_add_sink stmt) !! r = Some rv ∧ stmt ∈ sinks_ rv)
  ∧ (∀ r d fuel, source_path vars w r d → (d ≤ fuel)%nat →
     add_source fuel vars w stmt = Ok (update vars r (Var_add_source stmt))
     ∧ update vars r (Var_add_source stmt) !! w = Some v
     ∧ ∃ rv, update vars r (Var_add_source stmt) !! r = Some rv ∧ stmt ∈ sources_ rv)
  ∧ (∀ e p fuel, cls v = CExpr e (VarExtend p) →
     add_source (S fuel) vars w stmt =
       Throw (StmtException "Cannot add source to an extended variable ({0})"))
  ∧ (∀ s i q k r d fuel, cls v = CSlice s (VarVarSlice i) →
     slice_chain vars (VarSlice.parent_var s) q k → (k ≤ fuel)%nat →
     (sink_path vars q r d → (d ≤ fuel)%nat →
      add_sink (S fuel) stmts gens vars w stmt =
        add_sink fuel stmts gens (update vars r (Var_add_sink stmt)) i stmt)
     ∧ (source_path vars q r d → (d ≤ fuel)%nat →
        add_source (S fuel) vars w stmt =
          add_source fuel (update vars r (Var_add_source stmt)) i stmt)).
Proof.
  intros Hw Hview. split_and!.
  - intros r d fuel Hp Hf.
    destruct (sink_path_root_plain _ _ _ _ Hp) as (rv & Hr & Hpl).
    assert (r ≠ w).
    { intros ->. rewrite Hw in Hr. injection Hr as <-. by eapply view_not_plain. }
    split; [by apply add_sink_path with d|].
    split; [by rewrite update_lookup_ne|].
    exists (Var_add_sink stmt rv). split; [by apply update_lookup_eq|].
    cbn. apply elem_of_add.
  - intros r d fuel Hp Hf.
    destruct (source_path_root_plain _ _ _ _ Hp) as (rv & Hr & Hpl).
    assert (r ≠ w).
    { intros ->. rewrite Hw in Hr. injection Hr as <-. by eapply view_not_plain. }
    split; [by apply add_source_path with d|].
    split; [by rewrite update_lookup_ne|].
    exists (Var_add_source stmt rv). split; [by apply update_lookup_eq|].
    cbn. apply elem_of_add.
  - intros e p fuel Hcls. cbn [add_source].
    rewrite (deref_lookup _ _ _ Hw). cbn [mbind result_bind]. by rewrite Hcls.
  - intros s i q k r d fuel Hcls Hch Hk. split; intros Hp Hf.
    + cbn [add_sink]. rewrite (deref_lookup _ _ _ Hw). cbn [mbind result_bind].
      rewrite Hcls. rewrite (slice_root_chain _ _ _ _ Hch) by lia.
      cbn [mbind result_bind].
      rewrite (add_sink_path stmts gens vars stmt q r d Hp) by done. done.
    + cbn [add_source]. rewrite (deref_lookup _ _ _ Hw). cbn [mbind result_bind].
      rewrite Hcls. rewrite (slice_root_chain _ _ _ _ Hch) by lia.
      cbn [mbind result_bind].
      rewrite (add_source_path vars stmt q r d Hp) by done. done.
Qed.

(** ** Assignment *)

Lemma update_lookup {A} (st : list A) q f p :
  update st q f !! p = if decide (q = p) then f <$> st !! p else st !! p.
Proof.
  case_decide as H.
  - subst. destruct (st !! p) eqn:E.
    + by erewrite update_lookup_eq.
    + unfold update. by rewrite E.
  - by apply update_lookup_ne.
Qed.

Lemma update_lookup_Some {A} (st : list A) q f p a :
  st !! p = Some a →
  ∃ a', update st q f !! p = Some a' ∧ (a' = a ∨ a' = f a).
Proof.
  intros H. rewrite update_lookup. case_decide; rewrite H; cbn; eauto.
Qed.

Lemma slice_chain_update vars q f p r k :
  (∀ x, cls (f x) = cls x ∧ type_ (f x) = type_ x) →
  slice_chain vars p r k → slice_chain (update vars q f) p r k.
Proof.
  intros Hf. induction 1 as [p v Hp Hty|p v s sub r k Hp Hty Hcls _ IH].
  - destruct (update_lookup_Some vars q f p v Hp) as (v' & Hv' & [->| ->]).
    + by eapply slice_chain_root.
    + eapply slice_chain_root; [done|]. by rewrite (proj2 (Hf v)).
  - destruct (update_lookup_Some vars q f p v Hp) as (v' & Hv' & [->| ->]).
    + by eapply slice_chain_step.
    + eapply slice_chain_step; [done| | |done].
      * by rewrite (proj2 (Hf v)).
      * by rewrite (proj1 (Hf v)).
Qed.

Lemma plain_signal_cls v v' : cls v' = cls v → plain_signal v → plain_signal v'.
Proof. unfold plain_signal. by intros ->. Qed.

Lemma source_path_update vars q f w r d :
  (∀ x, cls (f x) = cls x ∧ type_ (f x) = type_ x) →
  source_path vars w r d → source_path (update vars q f) w r d.
Proof.
  intros Hf. destruct 1 as [r v Hr Hpl|w v s r rv k Hw Hcls Hch Hr Hpl].
  - destruct (update_lookup_Some vars q f r v Hr) as (v' & Hv' & [->| ->]).
    + by eapply source_path_plain.
    + eapply source_path_plain; [done|].
      eapply plain_signal_cls; [|done]. apply Hf.
  - destruct (update_lookup_Some vars q f w v Hw) as (v' & Hv' & Hv).
    destruct (update_lookup_Some vars q f r rv Hr) as (rv' & Hrv' & Hrv).
    eapply source_path_slice; [done| |by apply slice_chain_update|done|].
    + destruct Hv as [->| ->]; [done|]. by rewrite (proj1 (Hf v)).
    + destruct Hrv as [->| ->]; [done|].
      eapply plain_signal_cls; [|done]. apply Hf.
Qed.

Lemma Var_add_sink_tags stmt x :
  cls (Var_add_sink stmt x) = cls x ∧ type_ (Var_add_sink stmt x) = type_ x.
Proof. done. Qed.

Lemma Var_add_source_tags stmt x :
  cls (Var_add_source stmt x) = cls x ∧ type_ (Var_add_source stmt x) = type_ x.
Proof. done. Qed.

Lemma with_generator_tags g x :
  cls (with_generator g x) = cls x ∧ type_ (with_generator g x) = type_ x.
Proof. done. Qed.

(** Assignment along paths.  Assigning to a constant, to an expression node, or to
    an enum variable from a source that is not of the same named enum type
    throws.  Assigning to a plain signal (or a range slice of one) from a
    plain signal or a view of one succeeds and registers the new statement
    in the source set of the written signal and in the sink set of the read
    signal.  When the source is a constant the assignment also succeeds and
    is registered on the written signal, while the constant's own sink set is
    left as it was. *)
Lemma assign_along_paths (gens : list Generator.t) (vars : list Var)
    (stmts : list AssignStmt.t) (this var : nat) (v : Var) (type : AssignmentType)
    (fuel : nat) :
  vars !! this = Some v →
  ((∃ value sub, cls v = CConst value sub) → type_ v = ConstValue →
     assign fuel gens vars stmts this var type =
       Throw (VarException "Cannot assign {0} to a const {1}" [this; var]))
  ∧ ((∃ e sub, cls v = CExpr e sub) → type_ v = Expression →
     assign fuel gens vars stmts this var type =
       Throw (VarException "Cannot assign {0} to an expression" [this; var]))
  ∧ (∀ t src, cls v = CEnumVar t → vars !! var = Some src → const_tag_ok src →
       enum_type_of src ≠ Some t →
       throws (assign fuel gens vars stmts this var type))
  ∧ (∀ rt dt r d,
       cls v = CVar ∨ (∃ s, cls v = CSlice s RangeSlice) →
       type_ v ≠ ConstValue → type_ v ≠ Expression →
       source_path vars this rt dt → sink_path vars var r d →
       (dt ≤ fuel)%nat → (d ≤ fuel)%nat →
       assign fuel gens vars stmts this var type =
         Ok (update (update vars r (Var_add_sink (length stmts))) rt
               (Var_add_source (length stmts)),
             stmts ++ [{| AssignStmt.left_ := this; AssignStmt.right_ := var;
                          AssignStmt.assign_type_ := type;
                          AssignStmt.parent := None |}],
             length stmts)
       ∧ (∃ tv, update (update vars r (Var_add_sink (length stmts))) rt
                  (Var_add_source (length stmts)) !! rt = Some tv
                ∧ length stmts ∈ sources_ tv)
       ∧ (∃ sv, update (update vars r (Var_add_sink (length stmts))) rt
                  (Var_add_source (length stmts)) !! r = Some sv
                ∧ length stmts ∈ sinks_ sv))
  ∧ (∀ c value sub g gn,
       cls v = CVar → type_ v ≠ ConstValue → type_ v ≠ Expression →
       vars !! var = Some c → cls c = CConst value sub →
       generator v = Some g → gens !! g = Some gn → (1 ≤ fuel)%nat →
       ∃ vars',
         assign fuel gens vars stmts this var type =
           Ok (vars',
               stmts ++ [{| AssignStmt.left_ := this; AssignStmt.right_ := var;
                            AssignStmt.assign_type_ := type;
                            AssignStmt.parent := None |}],
               length stmts)
         ∧ (∃ tv, vars' !! this = Some tv ∧ length stmts ∈ sources_ tv)
         ∧ (∃ c', vars' !! var = Some c' ∧ sinks_ c' = sinks_ c)).
Proof.
  intros Hv. split_and!.
  - intros (value & sub & Hcls) Hty. unfold assign, Var_assign.
    rewrite !(deref_lookup _ _ _ Hv). cbn [mbind result_bind]. rewrite Hcls.
    by rewrite bool_decide_eq_true_2.
  - intros (e & sub & Hcls) Hty. unfold assign, Var_assign.
    rewrite !(deref_lookup _ _ _ Hv). cbn [mbind result_bind]. rewrite Hcls.
    rewrite bool_decide_eq_false_2 by (rewrite Hty; done).
    by rewrite bool_decide_eq_true_2.
  - intros t src Hcls Hsrc Htag Hne. unfold assign, EnumVar_assign.
    rewrite !(deref_lookup _ _ _ Hv), ?(deref_lookup _ _ _ Hsrc).
    cbn [mbind result_bind]. rewrite !Hcls.
    unfold is_enum, enum_type_of in *.
    destruct (cls src) as [|t'|value [|d|]| | |] eqn:Hc; cbn [negb];
      try (by eexists).
    + assert (type_ src ≠ ConstValue) as Hn.
      { intros H. apply Htag in H as (? & ? & ?). congruence. }
      rewrite (bool_decide_eq_false_2 (type_ src = ConstValue)) by done.
      cbn [mbind result_bind].
      rewrite bool_decide_eq_true_2 by congruence. by eexists.
    + assert (type_ src = ConstValue) as Hn by (apply Htag; eauto).
      rewrite (bool_decide_eq_true_2 (type_ src = ConstValue)) by done.
      cbn [mbind result_bind].
      rewrite bool_decide_eq_true_2 by congruence. by eexists.
  - intros rt dt r d Hcls Hnc Hne Hsrc Hsnk Hdt Hd.
    assert (Has : assign fuel gens vars stmts this var type =
                  Var_assign fuel gens vars stmts this var type).
    { unfold assign. rewrite (deref_lookup _ _ _ Hv). cbn [mbind result_bind].
      by destruct Hcls as [->|[s ->]]. }
    rewrite Has. unfold Var_assign.
    rewrite (deref_lookup _ _ _ Hv). cbn [mbind result_bind].
    rewrite !bool_decide_eq_false_2 by done.
    unfold AssignStmt_ctor. cbn [alloc].
    rewrite (add_sink_path _ gens vars (length stmts) var r d Hsnk) by done.
    cbn [mbind result_bind].
    rewrite (add_source_path _ (length stmts) this rt dt) by
      (done || by apply source_path_update; [apply Var_add_sink_tags|]).
    cbn [mbind result_bind mret result_ret]. split; [done|].
    destruct (source_path_root_plain _ _ _ _ Hsrc) as (tv & Htv & _).
    destruct (sink_path_root_plain _ _ _ _ Hsnk) as (sv & Hsv & _).
    destruct (update_lookup_Some vars r (Var_add_sink (length stmts)) rt tv Htv)
      as (tv' & Htv' & _).
    split.
    + eexists. split; [by apply update_lookup_eq|]. cbn. apply elem_of_add.
    + rewrite update_lookup. rewrite (update_lookup_eq _ _ _ _ Hsv).
      case_decide; eexists; (split; [reflexivity|]); cbn; apply elem_of_add.
  - intros c value sub g gn Hcls Hnc Hne Hc Hcc Hg Hgn Hf.
    assert (this ≠ var) as Hneq.
    { intros ->. rewrite Hv in Hc. injection Hc as <-. congruence. }
    unfold assign. rewrite (deref_lookup _ _ _ Hv). cbn [mbind result_bind].
    rewrite Hcls. unfold Var_assign.
    rewrite ?(deref_lookup _ _ _ Hv). cbn [mbind result_bind].
    rewrite !bool_decide_eq_false_2 by done.
    unfold AssignStmt_ctor. cbn [alloc].
    destruct fuel as [|n]; [lia|]. cbn [add_sink].
    rewrite (deref_lookup _ _ _ Hc). cbn [mbind result_bind]. rewrite Hcc.
    unfold Const_add_sink.
    rewrite (deref_lookup _ _ _ (lookup_alloc_new stmts _)).
    cbn [mbind result_bind AssignStmt.left_].
    rewrite (deref_lookup _ _ _ Hv). cbn [mbind result_bind]. rewrite Hg.
    rewrite (deref_lookup _ _ _ Hgn). cbn [mbind result_bind].
    destruct (Generator.parent gn) as [gp|]; cbn [mbind result_bind add_source].
    + unfold deref at 1. rewrite update_lookup_ne by done. rewrite Hv.
      cbn [mbind result_bind]. rewrite Hcls. cbn [mbind result_bind mret result_ret].
      eexists. split; [reflexivity|]. split.
      * eexists. split; [apply update_lookup_eq; by rewrite update_lookup_ne|].
        cbn. apply elem_of_add.
      * eexists. split; [rewrite update_lookup_ne by done; by apply update_lookup_eq|].
        done.
    + rewrite (deref_lookup _ _ _ Hv).
      cbn [mbind result_bind]. rewrite Hcls. cbn [mbind result_bind mret result_ret].
      eexists. split; [reflexivity|]. split.
      * eexists. split; [by apply update_lookup_eq|]. cbn. apply elem_of_add.
      * eexists. split; [by rewrite update_lookup_ne|]. done.
Qed.

(** ** Concatenation *)


Lemma VarConcat_ctor_cls vars gens first second node :
  VarConcat_ctor is_valid_variable_name const_gen vars gens first second = Ok node →
  cls node = CExpr (concat_fields first second) (VarConcat [first; second]).
Proof.
  unfold VarConcat_ctor. intros H.
  apply bind_Ok in H as (e & _ & H). apply bind_Ok in H as (f & _ & H).
  apply bind_Ok in H as (s & _ & H).
  case_bool_decide; [done|]. by injection H as <-.
Qed.

Lemma VarConcat_ctor_sign vars gens first second f s :
  vars !! first = Some f → vars !! second = Some s →
  is_signed_ f ≠ is_signed_ s →
  (∀ node, VarConcat_ctor is_valid_variable_name const_gen vars gens first second
           ≠ Ok node)
  ∧ (generator f ≠ None → generator s = generator f →
     VarConcat_ctor is_valid_variable_name const_gen vars gens first second =
       Throw (VarException "{0} is signed but {1} is not" [first; second])).
Proof.
  intros Hf Hs Hne. unfold VarConcat_ctor. split.
  - intros node H. apply bind_Ok in H as (e & _ & H).
    rewrite (deref_lookup _ _ _ Hf), (deref_lookup _ _ _ Hs) in H.
    cbn [mbind result_bind] in H. by rewrite bool_decide_eq_true_2 in H.
  - intros Hg Hgs. unfold Expr_ctor2.
    rewrite !(deref_lookup _ _ _ Hf), !(deref_lookup _ _ _ Hs).
    cbn [mbind result_bind]. rewrite Var_ctor_Ok by done. cbn [mbind result_bind].
    unfold Expr_set_parent.
    destruct (bool_decide (generator f = const_gen));
      [|destruct (bool_decide (generator s = const_gen));
        [|rewrite (bool_decide_eq_true_2 (generator f = generator s)) by done]];
      cbn [mbind result_bind mret result_ret];
      by rewrite bool_decide_eq_true_2.
Qed.

Lemma find_concat_None_lookup vars ptr cache :
  find_concat vars ptr cache = Ok None →
  ∀ e, e ∈ cache → is_Some (vars !! e).
Proof.
  induction cache as [|x rest IH]; intros H e He; [by apply elem_of_nil in He|].
  cbn [find_concat] in H. apply bind_Ok in H as (xe & Hx & H).
  apply deref_Ok in Hx. apply bind_Ok in H as ([? vs] & _ & H).
  case_bool_decide; [done|].
  apply elem_of_cons in He as [->|He]; eauto.
Qed.

Lemma find_concat_app_new vars vars1 ptr cache p node e a :
  find_concat vars ptr cache = Ok None →
  (∀ c x, c ∈ cache → vars !! c = Some x →
     ∃ x', vars1 !! c = Some x' ∧ cls x' = cls x) →
  vars1 !! p = Some node →
  cls node = CExpr e (VarConcat [a; ptr]) →
  find_concat vars1 ptr (cache ++ [p]) = Ok (Some p).
Proof.
  intros H Hsame Hp Hcls. induction cache as [|x rest IH]; cbn [app find_concat].
  - rewrite (deref_lookup _ _ _ Hp). cbn [mbind result_bind].
    unfold as_VarConcat. rewrite Hcls. cbn [mbind result_bind].
    by rewrite bool_decide_eq_true_2.
  - cbn [find_concat] in H. apply bind_Ok in H as (xe & Hx & H).
    apply deref_Ok in Hx. apply bind_Ok in H as ([? vs] & Hvs & H).
    destruct (Hsame x xe) as (xe' & Hx' & Hc); [by left|done|].
    rewrite (deref_lookup _ _ _ Hx'). cbn [mbind result_bind].
    unfold as_VarConcat in *. rewrite Hc, Hvs. cbn [mbind result_bind].
    case_bool_decide; [done|]. apply IH; [done|].
    intros c y Hin. apply Hsame. by right.
Qed.

(** C7 (as amended).  For a signal that is not itself a concatenation
    node, concatenating the same trailing operand onto it a second time
    returns the node of the first call and allocates nothing.  Concatenating
    operands of differing signedness fails whenever a concatenation node is
    constructed, that is unless a memoized node of the pair is returned. *)
Theorem concat_memo_and_sign (vars : list Var) (gens : list Generator.t)
    (this var : nat) (v : Var) :
  vars !! this = Some v →
  ((∀ e vs, cls v ≠ CExpr e (VarConcat vs)) →
   ∀ vars1 n,
     concat is_valid_variable_name const_gen vars gens this var = Ok (vars1, n) →
     concat is_valid_variable_name const_gen vars1 gens this var = Ok (vars1, n))
  ∧ (∀ s, vars !! var = Some s → is_signed_ v ≠ is_signed_ s →
       (∀ e vs, cls v ≠ CExpr e (VarConcat vs)) →
       find_concat vars var (concat_vars_ v) = Ok None →
       (∀ r, concat is_valid_variable_name const_gen vars gens this var ≠ Ok r)
       ∧ (generator v ≠ None → generator s = generator v →
          concat is_valid_variable_name const_gen vars gens this var =
            Throw (VarException "{0} is signed but {1} is not" [this; var])))
  ∧ (∀ s e vs, vars !! var = Some s → is_signed_ v ≠ is_signed_ s →
       cls v = CExpr e (VarConcat vs) →
       ∀ r, concat is_valid_variable_name const_gen vars gens this var ≠ Ok r).
Proof.
  intros Hv.
  assert (Hdisp : (∀ e vs, cls v ≠ CExpr e (VarConcat vs)) →
            concat is_valid_variable_name const_gen vars gens this var =
            Var_concat is_valid_variable_name const_gen vars gens this var).
  { intros Hnc. unfold concat. rewrite (deref_lookup _ _ _ Hv).
    cbn [mbind result_bind]. destruct (cls v) as [|t|value sub|e [|c|vs|q]|sl sub|q ct] eqn:Hc; try done.
    by destruct (Hnc e vs). }
  split_and!.
  - intros Hnc vars1 n. rewrite Hdisp by done. unfold Var_concat at 1.
    rewrite (deref_lookup _ _ _ Hv). cbn [mbind result_bind].
    intros H. apply bind_Ok in H as (found & Hfound & H).
    destruct found as [exist_var|].
    + injection H as <- <-. rewrite Hdisp by done. unfold Var_concat.
      rewrite (deref_lookup _ _ _ Hv). cbn [mbind result_bind].
      by rewrite Hfound.
    + apply bind_Ok in H as (node & Hnode & H). cbn [alloc mret result_ret] in H.
      injection H as <- <-.
      assert (Hlt : (this < length vars)%nat) by by eapply lookup_lt_Some.
      assert (Hfresh : length vars ∉ concat_vars_ v).
      { intros Hin. destruct (find_concat_None_lookup _ _ _ Hfound _ Hin) as [x Hx].
        apply lookup_lt_Some in Hx. lia. }
      assert (Hv1 : update (vars ++ [node]) this (concat_vars_emplace (length vars))
                    !! this = Some (with_concat_vars (concat_vars_ v ++ [length vars]) v)).
      { erewrite update_lookup_eq; [|by apply lookup_alloc_old].
        unfold concat_vars_emplace. by rewrite bool_decide_eq_false_2. }
      unfold concat. rewrite (deref_lookup _ _ _ Hv1). cbn [mbind result_bind cls].
      assert (Var_concat is_valid_variable_name const_gen
                (update (vars ++ [node]) this (concat_vars_emplace (length vars)))
                gens this var =
              Ok (update (vars ++ [node]) this (concat_vars_emplace (length vars)),
                  length vars)) as Hres.
      { unfold Var_concat. rewrite (deref_lookup _ _ _ Hv1).
        cbn [mbind result_bind concat_vars_ with_concat_vars].
        erewrite find_concat_app_new; [done|exact Hfound| | |].
        - intros c x Hin Hx.
          destruct (update_lookup_Some (vars ++ [node]) this
                      (concat_vars_emplace (length vars)) c x) as (x' & Hx' & Hor);
            [by apply lookup_alloc_old|].
          exists x'. split; [done|].
          destruct Hor as [->| ->]; [done|].
          unfold concat_vars_emplace. by case_bool_decide.
        - rewrite update_lookup_ne by lia. apply lookup_alloc_new.
        - by apply VarConcat_ctor_cls in Hnode. }
      change (cls (with_concat_vars (concat_vars_ v ++ [length vars]) v)) with (cls v).
      destruct (cls v) as [|t|value sub|e [|c|vs|q]|sl sub|q ct] eqn:Hc; try exact Hres.
      by destruct (Hnc e vs).
  - intros s Hs Hne Hnc Hfound. rewrite Hdisp by done. unfold Var_concat.
    rewrite (deref_lookup _ _ _ Hv). cbn [mbind result_bind]. rewrite Hfound.
    cbn [mbind result_bind].
    destruct (VarConcat_ctor_sign vars gens this var v s Hv Hs Hne) as [Hno Hthrow].
    split.
    + intros r H. apply bind_Ok in H as (node & Hnode & _). by eapply Hno.
    + intros Hg Hgs. by rewrite Hthrow.
  - intros s e vs Hs Hne Hcls r. unfold concat, VarConcat_concat.
    rewrite !(deref_lookup _ _ _ Hv). cbn [mbind result_bind]. rewrite Hcls.
    unfold as_VarConcat. rewrite Hcls. cbn [mbind result_bind].
    intros H. apply bind_Ok in H as (node & Hnode & _).
    unfold VarConcat_ctor_chain in Hnode.
    apply bind_Ok in Hnode as (? & _ & Hnode).
    rewrite (deref_lookup _ _ _ Hv), (deref_lookup _ _ _ Hs) in Hnode.
    cbn [mbind result_bind] in Hnode. unfold as_VarConcat in Hnode.
    rewrite Hcls in Hnode. cbn [mbind result_bind] in Hnode.
    by rewrite bool_decide_eq_true_2 in Hnode.
Qed.

(** ** Parameters *)

Lemma foldM_invariant {A B} (R : A → A → Prop) (f : A → B → result A) l :
  (∀ a, R a a) → (∀ a b c, R a b → R b c → R a c) →
  (∀ a b a', b ∈ l → f a b = Ok a' → R a a') →
  ∀ a a', foldM f l a = Ok a' → R a a'.
Proof.
  intros Hrefl Htrans. induction l as [|x rest IH]; intros Hstep a a' H.
  - injection H as <-. apply Hrefl.
  - cbn [foldM] in H. apply bind_Ok in H as (a1 & H1 & H).
    eapply Htrans; [eapply Hstep; [by left|done]|].
    apply IH; [|done]. intros. eapply Hstep; [by right|done].
Qed.

Lemma foldM_elem {A B} (R : A → A → Prop) (f : A → B → result A) l c :
  (∀ a, R a a) → (∀ a b c, R a b → R b c → R a c) →
  (∀ a b a', b ∈ l → f a b = Ok a' → R a a') →
  c ∈ l →
  ∀ a a', foldM f l a = Ok a' →
    ∃ a1 a2, R a a1 ∧ f a1 c = Ok a2 ∧ R a2 a'.
Proof.
  intros Hrefl Htrans. induction l as [|x rest IH]; intros Hstep Hin a a' H.
  - by apply elem_of_nil in Hin.
  - cbn [foldM] in H. apply bind_Ok in H as (a1 & H1 & H).
    apply elem_of_cons in Hin as [->|Hin].
    + exists a, a1. split; [apply Hrefl|]. split; [done|].
      eapply (foldM_invariant R); [done..| |done].
      intros. eapply Hstep; [by right|done].
    + destruct (IH (λ a b a' Hb, Hstep a b a' (list_elem_of_further _ _ _ Hb)) Hin a1 a' H)
        as (a2 & a3 & H2 & H3 & H4).
      exists a2, a3. split; [|done].
      eapply Htrans; [|done]. eapply Hstep; [by left|done].
Qed.

Lemma foldM_succeeds {A B} (P : A → Prop) (f : A → B → result A) l :
  (∀ a b, b ∈ l → P a → ∃ a', f a b = Ok a' ∧ P a') →
  ∀ a, P a → ∃ a', foldM f l a = Ok a' ∧ P a'.
Proof.
  induction l as [|x rest IH]; intros Hstep a Ha.
  - by exists a.
  - destruct (Hstep a x) as (a1 & H1 & Ha1); [by left|done|].
    cbn [foldM]. rewrite H1. cbn [mbind result_bind].
    apply IH; [|done]. intros. apply Hstep; [by right|done].
Qed.

Lemma param_frame_refl nv vars : param_frame nv vars vars.
Proof. intros p v H. exists v. split_and!; auto. Qed.

Lemma param_frame_trans nv a b c :
  param_frame nv a b → param_frame nv b c → param_frame nv a c.
Proof.
  intros H1 H2 p v Hv.
  destruct (H1 p v Hv) as (v1 & Hv1 & Hs1 & Hg1 & Hgen1 & Hw1 & Hc1).
  destruct (H2 p v1 Hv1) as (v2 & Hv2 & Hs2 & Hg2 & Hgen2 & Hw2 & Hc2).
  exists v2. split_and!; try congruence.
  - destruct Hw2 as [Hw2|Hw2]; [|by right]. rewrite Hw2. done.
  - destruct Hc2 as [Hc2|(value & sub & Hc & Hc2)].
    + rewrite Hc2. done.
    + right. destruct Hc1 as [Hc1|(value0 & sub0 & Hc0 & Hc1)].
      * exists value, sub. by rewrite <- Hc1.
      * rewrite Hc1 in Hc. injection Hc as _ <-. by exists value0, sub0.
Qed.

Lemma param_frame_update nv vars q f :
  (∀ v, size_ (f v) = size_ v ∧ is_signed_ (f v) = is_signed_ v
        ∧ generator (f v) = generator v
        ∧ (var_width_ (f v) = var_width_ v ∨ var_width_ (f v) = u32 nv)
        ∧ (cls (f v) = cls v
           ∨ ∃ value sub, cls v = CConst value sub ∧ cls (f v) = CConst nv sub)) →
  param_frame nv vars (update vars q f).
Proof.
  intros Hf p v Hv.
  destruct (update_lookup_Some vars q f p v Hv) as (v' & Hv' & [->| ->]).
  - exists v. split_and!; auto.
  - exists (f v). split; [done|]. apply Hf.
Qed.

Lemma Const_set_value_frame vars this nv vars' :
  Const_set_value is_valid_variable_name vars this nv = Ok vars' →
  param_frame nv vars vars'.
Proof.
  unfold Const_set_value. intros H. apply bind_Ok in H as (v & _ & H).
  destruct (Const_ctor _ _ _ _ _); [|injection H as <-; apply param_frame_refl|done].
  injection H as <-. apply param_frame_update. intros x.
  unfold with_value. destruct (cls x) eqn:Hc; split_and!; eauto.
Qed.

Lemma set_var_width_frame vars x nv vars' :
  set_var_width vars x nv = Ok vars' → param_frame nv vars vars'.
Proof.
  unfold set_var_width. intros H. apply bind_Ok in H as (v & _ & H).
  injection H as <-. apply param_frame_update. intros y. split_and!; auto.
Qed.

Lemma set_var_width_lookup vars x nv vars' :
  set_var_width vars x nv = Ok vars' →
  ∃ xv, vars' !! x = Some xv ∧ var_width_ xv = u32 nv.
Proof.
  unfold set_var_width. intros H. apply bind_Ok in H as (v & Hv & H).
  apply deref_Ok in Hv. injection H as <-.
  eexists. split; [by apply update_lookup_eq|done].
Qed.

Lemma Param_set_value_frame nv fuel :
  ∀ vars this vars',
    Param_set_value is_valid_variable_name fuel vars this nv = Ok vars' →
    param_frame nv vars vars'.
Proof.
  induction fuel as [|n IH]; intros vars this vars' H; [done|].
  cbn [Param_set_value] in H.
  apply bind_Ok in H as (v & _ & H). apply bind_Ok in H as ([[value pv] pp] & _ & H).
  case_bool_decide; [done|].
  apply bind_Ok in H as (vars1 & H1 & H). apply bind_Ok in H as (vars2 & H2 & H).
  eapply param_frame_trans; [by eapply Const_set_value_frame|].
  eapply param_frame_trans.
  - eapply (foldM_invariant (param_frame nv)); [apply param_frame_refl
      |apply param_frame_trans| |exact H2].
    intros a b a' _. apply set_var_width_frame.
  - eapply (foldM_invariant (param_frame nv)); [apply param_frame_refl
      |apply param_frame_trans| |exact H].
    intros a b a' _. apply IH.
Qed.

Lemma param_frame_width_set nv vars vars' x xv :
  param_frame nv vars vars' → vars !! x = Some xv → var_width_ xv = u32 nv →
  ∃ xv', vars' !! x = Some xv' ∧ var_width_ xv' = u32 nv.
Proof.
  intros Hf Hx Hw. destruct (Hf x xv Hx) as (xv' & Hx' & _ & _ & _ & Hw' & _).
  exists xv'. split; [done|]. destruct Hw'; congruence.
Qed.

Lemma param_frame_param nv vars vars' p v value pv pp :
  param_frame nv vars vars' → vars !! p = Some v →
  cls v = CConst value (Param pv pp) →
  ∃ v' value', vars' !! p = Some v' ∧ cls v' = CConst value' (Param pv pp)
               ∧ (value' = nv ∨ value' = value).
Proof.
  intros Hf Hp Hc. destruct (Hf p v Hp) as (v' & Hp' & _ & _ & _ & _ & Hc').
  destruct Hc' as [Hc'|(value0 & sub & Hc0 & Hc')].
  - exists v', value. rewrite Hc'. auto.
  - rewrite Hc in Hc0. injection Hc0 as <- <-. exists v', nv. auto.
Qed.

Lemma chained_frame nv vars vars' p q :
  param_frame nv vars vars' → chained vars p q → chained vars' p q.
Proof.
  intros Hf. induction 1 as [p|p v value pv pp c q Hp Hc Hin _ IH].
  - apply chained_refl.
  - destruct (param_frame_param _ _ _ _ _ _ _ _ Hf Hp Hc) as (v' & value' & Hp' & Hc' & _).
    by eapply chained_step.
Qed.

Lemma foldM_set_var_width nv pv :
  ∀ vars vars',
    foldM (λ vars' var, set_var_width vars' var nv) pv vars = Ok vars' →
    ∀ x, x ∈ pv → ∃ xv, vars' !! x = Some xv ∧ var_width_ xv = u32 nv.
Proof.
  intros vars vars' H x Hin.
  destruct (foldM_elem (param_frame nv) _ pv x (param_frame_refl nv)
              (param_frame_trans nv)
              (λ a b a' _, set_var_width_frame a b nv a') Hin vars vars' H)
    as (a1 & a2 & _ & Hset & Hfr).
  destruct (set_var_width_lookup _ _ _ _ Hset) as (xv & Hx & Hw).
  by eapply param_frame_width_set.
Qed.

Lemma Param_set_value_widths nv fuel :
  ∀ vars this vars',
    Param_set_value is_valid_variable_name fuel vars this nv = Ok vars' →
    ∀ q qv value pv pp x,
      chained vars this q → vars !! q = Some qv →
      cls qv = CConst value (Param pv pp) → x ∈ pv →
      ∃ xv, vars' !! x = Some xv ∧ var_width_ xv = u32 nv.
Proof.
  induction fuel as [|n IH]; intros vars this vars' H; [done|].
  intros q qv value pv pp x Hch Hq Hcq Hx.
  cbn [Param_set_value] in H.
  apply bind_Ok in H as (v & Hv & H). apply deref_Ok in Hv.
  apply bind_Ok in H as ([[value0 pv0] pp0] & Hpar & H).
  unfold as_Param in Hpar. destruct (cls v) as [| |? [| |pv1 pp1]| | |] eqn:Hcv; try done.
  injection Hpar as -> -> ->.
  case_bool_decide; [done|].
  apply bind_Ok in H as (vars1 & H1 & H). apply bind_Ok in H as (vars2 & H2 & H).
  pose proof (Const_set_value_frame _ _ _ _ H1) as F1.
  assert (F2 : param_frame nv vars1 vars2).
  { eapply (foldM_invariant (param_frame nv)); [apply param_frame_refl
      |apply param_frame_trans| |exact H2].
    intros a b a' _. apply set_var_width_frame. }
  assert (Fstep : ∀ a b a', b ∈ pp0 →
            Param_set_value is_valid_variable_name n a b nv = Ok a' →
            param_frame nv a a').
  { intros a b a' _. apply Param_set_value_frame. }
  assert (F3 : param_frame nv vars2 vars').
  { eapply (foldM_invariant (param_frame nv)); [apply param_frame_refl
      |apply param_frame_trans|exact Fstep|exact H]. }
  inversion Hch as [p|p v' value' pv' pp' c q' Hp Hc Hin Hch']; subst.
  - rewrite Hv in Hq. injection Hq as <-. rewrite Hcv in Hcq.
    injection Hcq as <- <- <-.
    destruct (foldM_set_var_width _ _ _ _ H2 x Hx) as (xv & Hxv & Hw).
    by eapply param_frame_width_set.
  - rewrite Hv in Hp. injection Hp as <-. rewrite Hcv in Hc.
    injection Hc as <- <- <-.
    destruct (foldM_elem (param_frame nv) _ pp0 c (param_frame_refl nv)
                (param_frame_trans nv) Fstep Hin vars2 vars' H)
      as (a1 & a2 & Fa & Hset & Fb).
    assert (F : param_frame nv vars a1).
    { eapply param_frame_trans; [exact F1|].
      eapply param_frame_trans; [exact F2|exact Fa]. }
    destruct (param_frame_param _ _ _ _ _ _ _ _ F Hq Hcq) as (qv' & value'' & Hq' & Hcq' & _).
    destruct (IH a1 c a2 Hset q qv' value'' pv pp x) as (xv & Hxv & Hw);
      [by eapply chained_frame|done..|].
    by eapply param_frame_width_set.
Qed.

Lemma shift_defined_range value w sg :
  shift_defined sg w → Const_range_check value w sg ≠ Fault.
Proof.
  unfold shift_defined, Const_range_check. destruct sg; intros H.
  - rewrite bool_decide_eq_false_2 by lia. repeat case_bool_decide; done.
  - rewrite bool_decide_eq_false_2 by lia. repeat case_bool_decide; done.
Qed.

Lemma Const_set_value_succeeds vars this v nv :
  vars !! this = Some v → shift_defined (is_signed_ v) (width v) →
  succeeds (Const_set_value is_valid_variable_name vars this nv).
Proof.
  intros Hv Hsh. unfold Const_set_value. rewrite (deref_lookup _ _ _ Hv).
  cbn [mbind result_bind]. unfold Const_ctor, Var_ctor.
  rewrite bool_decide_eq_false_2 by (intros [_ ?]; done).
  destruct (is_valid_variable_name (pretty nv)); cbn [negb mbind result_bind];
    [|by eexists].
  pose proof (shift_defined_range nv _ _ Hsh) as Hr.
  destruct (Const_range_check nv (width v) (is_signed_ v)); cbn; [by eexists..|done].
Qed.

Lemma param_ok_frame nv vars vars' p d :
  param_frame nv vars vars' → param_ok nv vars p d → param_ok nv vars' p d.
Proof.
  intros Hf. induction 1 as [p v value pv pp d Hp Hc Hpv Hs1 Hs2 _ IH].
  destruct (Hf p v Hp) as (v' & Hp' & Hsz & Hsg & _ & Hw & _).
  destruct (param_frame_param _ _ _ _ _ _ _ _ Hf Hp Hc) as (v'' & value' & Hp'' & Hc' & _).
  rewrite Hp' in Hp''. injection Hp'' as <-.
  assert (Hw2 : width (with_var_width (u32 nv) v') = width (with_var_width (u32 nv) v)).
  { unfold width. cbn. by rewrite Hsz. }
  assert (Hw1 : width v' = width v ∨ width v' = width (with_var_width (u32 nv) v)).
  { unfold width. cbn. rewrite Hsz. destruct Hw as [->| ->]; auto. }
  eapply param_ok_node; [done|done| | | |done].
  - intros x Hx. destruct (Hpv x Hx) as [xv Hxv].
    destruct (Hf x xv Hxv) as (xv' & Hxv' & _). eauto.
  - rewrite Hsg. destruct Hw1 as [->| ->]; done.
  - rewrite Hsg, Hw2. done.
Qed.

Lemma Param_set_value_succeeds nv fuel :
  0 < nv →
  ∀ vars this d, param_ok nv vars this d → (d ≤ fuel)%nat →
    succeeds (Param_set_value is_valid_variable_name fuel vars this nv).
Proof.
  intros Hnv. induction fuel as [|n IH]; intros vars this d Hok Hd.
  { destruct Hok. lia. }
  destruct Hok as [p v value pv pp d Hp Hc Hpv Hs1 Hs2 Hch].
  cbn [Param_set_value]. rewrite (deref_lookup _ _ _ Hp). cbn [mbind result_bind].
  unfold as_Param. rewrite Hc. cbn [mbind result_bind].
  rewrite bool_decide_eq_false_2 by lia.
  destruct (Const_set_value_succeeds vars p v nv Hp Hs1) as [vars1 H1].
  rewrite H1. cbn [mbind result_bind].
  pose proof (Const_set_value_frame _ _ _ _ H1) as F1.
  destruct (foldM_succeeds (param_frame nv vars1)
              (λ vars' var, set_var_width vars' var nv) pv) with (a := vars1)
    as (vars2 & H2 & F2).
  { intros a x Hx Fa. destruct (Hpv x Hx) as [xv Hxv].
    destruct (F1 x xv Hxv) as (xv1 & Hxv1 & _).
    destruct (Fa x xv1 Hxv1) as (xv2 & Hxv2 & _).
    unfold set_var_width. rewrite (deref_lookup _ _ _ Hxv2).
    cbn [mbind result_bind mret result_ret]. eexists. split; [done|].
    eapply param_frame_trans; [exact Fa|].
    apply param_frame_update. intros y. split_and!; auto. }
  { apply param_frame_refl. }
  rewrite H2. cbn [mbind result_bind].
  destruct (foldM_succeeds (param_frame nv vars2)
              (λ vars' param, Param_set_value is_valid_variable_name n vars' param nv) pp)
    with (a := vars2) as (vars3 & H3 & _).
  { intros a c Hc' Fa.
    destruct (IH a c d) as [a' Ha']; [|lia|].
    - eapply param_ok_frame; [|by apply Hch].
      eapply param_frame_trans; [exact F1|].
      eapply param_frame_trans; [exact F2|exact Fa].
    - exists a'. split; [done|].
      eapply param_frame_trans; [exact Fa|]. by eapply Param_set_value_frame. }
  { apply param_frame_refl. }
  by exists vars3.
Qed.

Lemma Param_set_value_own nv fuel vars this vars' v value pv pp c :
  Param_set_value is_valid_variable_name fuel vars this nv = Ok vars' →
  vars !! this = Some v → cls v = CConst value (Param pv pp) →
  Const_ctor is_valid_variable_name (generator v) nv (width v) (is_signed_ v) = Ok c →
  ∃ v', vars' !! this = Some v' ∧ cls v' = CConst nv (Param pv pp).
Proof.
  destruct fuel as [|n]; [done|]. intros H Hv Hc Hctor.
  cbn [Param_set_value] in H. rewrite (deref_lookup _ _ _ Hv) in H.
  cbn [mbind result_bind] in H. unfold as_Param in H. rewrite Hc in H.
  cbn [mbind result_bind] in H. case_bool_decide; [done|].
  apply bind_Ok in H as (vars1 & H1 & H). apply bind_Ok in H as (vars2 & H2 & H).
  unfold Const_set_value in H1. rewrite (deref_lookup _ _ _ Hv) in H1.
  cbn [mbind result_bind] in H1. rewrite Hctor in H1. injection H1 as <-.
  assert (F : param_frame nv (update vars this (with_value nv)) vars').
  { eapply param_frame_trans.
    - eapply (foldM_invariant (param_frame nv)); [apply param_frame_refl
        |apply param_frame_trans| |exact H2].
      intros a b a' _. apply set_var_width_frame.
    - eapply (foldM_invariant (param_frame nv)); [apply param_frame_refl
        |apply param_frame_trans| |exact H].
      intros a b a' _. apply Param_set_value_frame. }
  destruct (param_frame_param nv _ _ this (with_value nv v) nv pv pp F)
    as (v' & value' & Hv' & Hc' & Hor).
  - by apply update_lookup_eq.
  - unfold with_value. by rewrite Hc.
  - exists v'. split; [done|]. by destruct Hor as [->| ->].
Qed.

(** [Param::set_value]: a non-positive value is refused with an
    exception once a dependent signal exists.  With a positive value, on a
    chain of parameters that forms a tree, the call returns; and when it
    returns, every signal parametrized by the parameter or by a parameter
    chained to it has the new value (as a 32-bit unsigned number) as its
    width, and every chained parameter has been given the new value: it
    holds it, unless the value failed the constant's own checks there, and
    the parameter itself holds it whenever the value passes those checks. *)
Lemma Param_set_value_effect (vars : list Var) (this : nat) (new_value : Z) :
  (∀ v value pv pp fuel,
     vars !! this = Some v → cls v = CConst value (Param pv pp) →
     new_value ≤ 0 → pv ≠ [] →
     Param_set_value is_valid_variable_name (S fuel) vars this new_value =
       Throw (VarException
         "{0} is used for parametrizing variable width, thus cannot be non-positive ({1})"
         [this]))
  ∧ (∀ d fuel, param_ok new_value vars this d → 0 < new_value → (d ≤ fuel)%nat →
       succeeds (Param_set_value is_valid_variable_name fuel vars this new_value))
  ∧ (∀ fuel vars',
       Param_set_value is_valid_variable_name fuel vars this new_value = Ok vars' →
       ∀ q qv value pv pp,
         chained vars this q → vars !! q = Some qv →
         cls qv = CConst value (Param pv pp) →
         (∃ qv' value', vars' !! q = Some qv'
            ∧ cls qv' = CConst value' (Param pv pp)
            ∧ (value' = new_value ∨ value' = value))
         ∧ (∀ x, x ∈ pv →
              ∃ xv, vars' !! x = Some xv ∧ var_width_ xv = u32 new_value
                    ∧ (0 ≤ new_value < 2 ^ 32 → var_width_ xv = new_value)))
  ∧ (∀ fuel vars' v value pv pp c,
       Param_set_value is_valid_variable_name fuel vars this new_value = Ok vars' →
       vars !! this = Some v → cls v = CConst value (Param pv pp) →
       Const_ctor is_valid_variable_name (generator v) new_value (width v)
         (is_signed_ v) = Ok c →
       ∃ v', vars' !! this = Some v' ∧ cls v' = CConst new_value (Param pv pp)).
Proof.
  split_and!; [| | |intros; by eapply Param_set_value_own].
  - intros v value pv pp fuel Hv Hc Hle Hne. cbn [Param_set_value].
    rewrite (deref_lookup _ _ _ Hv). cbn [mbind result_bind].
    unfold as_Param. rewrite Hc. cbn [mbind result_bind].
    by rewrite bool_decide_eq_true_2.
  - intros d fuel Hok Hpos Hd. by eapply Param_set_value_succeeds.
  - intros fuel vars' H q qv value pv pp Hch Hq Hc. split.
    + eapply param_frame_param; [by eapply Param_set_value_frame|done..].
    + intros x Hx.
      destruct (Param_set_value_widths _ _ _ _ _ H q qv value pv pp x)
        as (xv & Hxv & Hw); [done..|].
      exists xv. split_and!; [done..|]. intros Hr. rewrite Hw. by apply u32_small.
Qed.

(** ** Relocation *)

Lemma VarSlice_set_parent_length vars slice parent vars' :
  VarSlice_set_parent vars slice parent = Ok vars' → length vars' = length vars.
Proof.
  unfold VarSlice_set_parent. intros H. inv_Ok H; subst; apply update_length.
Qed.

Lemma VarCasted_set_parent_length vars casted parent vars' :
  VarCasted_set_parent vars casted parent = Ok vars' → length vars' = length vars.
Proof.
  unfold VarCasted_set_parent. intros H. inv_Ok H; subst; apply update_length.
Qed.

Lemma foldM_length {B} (f : list Var → B → result (list Var)) l :
  (∀ a b a', f a b = Ok a' → (length a ≤ length a')%nat) →
  ∀ a a', foldM f l a = Ok a' → (length a ≤ length a')%nat.
Proof.
  intros Hf. apply (foldM_invariant (λ a a' : list Var, (length a ≤ length a')%nat));
    [lia|lia|]. intros a b a' _. apply Hf.
Qed.

Lemma move_linked_to_length fuel :
  ∀ vars this new_var vars',
    move_linked_to fuel vars this new_var = Ok vars' →
    (length vars ≤ length vars')%nat.
Proof.
  induction fuel as [|n IH]; intros vars this new_var vars' H; [done|].
  cbn [move_linked_to] in H. inv_Ok H. subst.
  apply foldM_length in Hx1;
    [|intros a b a' Hs; apply VarSlice_set_parent_length in Hs; lia].
  apply foldM_length in Hx4.
  2:{ intros a b a' Hs. inv_Ok Hs. subst.
      match goal with Hm : move_linked_to n _ _ _ = Ok _ |- _ => apply IH in Hm end.
      rewrite update_length. lia. }
  apply foldM_length in Hx7.
  2:{ intros a b a' Hs. inv_Ok Hs. subst.
      match goal with Hc : VarCasted_set_parent _ _ _ = Ok _ |- _ =>
        apply VarCasted_set_parent_length in Hc end.
      rewrite update_length. lia. }
  rewrite !update_length in *. lia.
Qed.

Lemma Var_index_length vars this high low vars' p :
  Var_index is_valid_variable_name vars this high low = Ok (vars', p) →
  (length vars ≤ length vars')%nat.
Proof.
  unfold Var_index. intros H. inv_Ok H; subst.
  unfold alloc in *. simplify_eq. rewrite update_length, length_app. lia.
Qed.

Lemma Var_index_var_length vars this var vars' p :
  Var_index_var is_valid_variable_name vars this var = Ok (vars', p) →
  (length vars ≤ length vars')%nat.
Proof.
  unfold Var_index_var. intros H. inv_Ok H; subst.
  unfold alloc in *. simplify_eq. rewrite update_length, length_app. lia.
Qed.

Lemma slice_var_length vars slice var vars' p :
  slice_var is_valid_variable_name vars slice var = Ok (vars', p) →
  (length vars ≤ length vars')%nat.
Proof.
  unfold slice_var. intros H. destruct (deref vars slice); [|done..].
  cbn [mbind result_bind] in H.
  destruct (cls a) as [| | | |sl [|i]|]; try done.
  - by eapply Var_index_length.
  - by eapply Var_index_var_length.
Qed.

Lemma set_var_parent_length fuel vars var target new_var check vars' p :
  set_var_parent is_valid_variable_name fuel vars var target new_var check
    = Ok (vars', p) →
  (length vars ≤ length vars')%nat.
Proof.
  unfold set_var_parent. intros H. inv_Ok H; subst; try lia.
  revert H.
  apply (foldM_invariant (λ a a' : list Var * nat, (length a.1 ≤ length a'.1)%nat)).
  - intros a. cbn beta. lia.
  - intros a b c. cbn beta. lia.
  - intros [a q] b [a' q'] _ Hs. by eapply slice_var_length.
Qed.

Lemma change_var_expr_length fuel :
  ∀ vars expr target new_var vars',
    change_var_expr is_valid_variable_name fuel vars expr target new_var = Ok vars' →
    (length vars ≤ length vars')%nat.
Proof.
  induction fuel as [|n IH]; intros vars expr target new_var vars' H; [done|].
  cbn [change_var_expr] in H. inv_Ok H; inv_all; subst;
    repeat match goal with
    | Hm : move_linked_to _ _ _ _ = Ok _ |- _ => apply move_linked_to_length in Hm
    | Hm : change_var_expr _ n _ _ _ _ = Ok _ |- _ => apply IH in Hm
    | Hm : set_var_parent _ _ _ _ _ _ _ = Ok _ |- _ => apply set_var_parent_length in Hm
    end; rewrite ?update_length in *; lia.
Qed.

Lemma stmt_set_left_effect fuel vars stmts stmt target new_var vars' stmts' :
  stmt_set_left is_valid_variable_name fuel vars stmts stmt target new_var
    = Ok (vars', stmts') →
  (length vars ≤ length vars')%nat
  ∧ (stmts' = stmts ∨ ∃ p, stmts' = update stmts stmt (with_left p)).
Proof.
  unfold stmt_set_left. intros H. inv_Ok H; inv_all; subst;
    repeat match goal with
    | Hm : move_linked_to _ _ _ _ = Ok _ |- _ => apply move_linked_to_length in Hm
    | Hm : change_var_expr _ _ _ _ _ _ = Ok _ |- _ => apply change_var_expr_length in Hm
    | Hm : set_var_parent _ _ _ _ _ _ _ = Ok _ |- _ => apply set_var_parent_length in Hm
    end; (split; [lia|eauto]).
Qed.

Lemma stmt_set_right_effect fuel vars stmts stmt target new_var vars' stmts' :
  stmt_set_right is_valid_variable_name fuel vars stmts stmt target new_var
    = Ok (vars', stmts') →
  (length vars ≤ length vars')%nat
  ∧ (stmts' = stmts ∨ ∃ p, stmts' = update stmts stmt (with_right p)).
Proof.
  unfold stmt_set_right. intros H. inv_Ok H; inv_all; subst;
    repeat match goal with
    | Hm : move_linked_to _ _ _ _ = Ok _ |- _ => apply move_linked_to_length in Hm
    | Hm : change_var_expr _ _ _ _ _ _ = Ok _ |- _ => apply change_var_expr_length in Hm
    | Hm : set_var_parent _ _ _ _ _ _ _ = Ok _ |- _ => apply set_var_parent_length in Hm
    end; (split; [lia|eauto]).
Qed.

Lemma Var_set_width_param_length vars this param vars' :
  Var_set_width_param vars this param = Ok vars' → length vars' = length vars.
Proof.
  unfold Var_set_width_param. intros H. inv_Ok H; subst.
  by rewrite !update_length.
Qed.

Lemma link_frame_refl s vars : link_frame s vars vars.
Proof.
  split; [done|]. intros q v Hq. exists v. split; [done|].
  split; apply union_subseteq_r.
Qed.

Lemma subseteq_add_trans (s : nat) (X Y Z : gset nat) :
  X ⊆ {[s]} ∪ Y → Y ⊆ {[s]} ∪ Z → X ⊆ {[s]} ∪ Z.
Proof.
  intros H1 H2 x Hx. apply H1 in Hx. apply elem_of_union in Hx as [Hx|Hx].
  - apply elem_of_union. by left.
  - by apply H2.
Qed.

Lemma link_frame_trans s a b c :
  link_frame s a b → link_frame s b c → link_frame s a c.
Proof.
  intros [L1 H1] [L2 H2]. split; [congruence|]. intros q v Hq.
  destruct (H1 q v Hq) as (v1 & Hq1 & Hs1 & Hk1).
  destruct (H2 q v1 Hq1) as (v2 & Hq2 & Hs2 & Hk2).
  exists v2. split; [done|]. split; by eapply subseteq_add_trans.
Qed.

Lemma link_frame_update s vars q f :
  (∀ v, sources_ (f v) ⊆ {[s]} ∪ sources_ v ∧ sinks_ (f v) ⊆ {[s]} ∪ sinks_ v) →
  link_frame s vars (update vars q f).
Proof.
  intros Hf. split; [apply update_length|]. intros p v Hp.
  destruct (update_lookup_Some vars q f p v Hp) as (v' & Hv' & [->| ->]).
  - exists v. split; [done|]. split; apply union_subseteq_r.
  - exists (f v). split; [done|]. apply Hf.
Qed.

Lemma foldM_link_frame {B} s (f : list Var → B → result (list Var)) l :
  (∀ a b a', f a b = Ok a' → link_frame s a a') →
  ∀ a a', foldM f l a = Ok a' → link_frame s a a'.
Proof.
  intros Hf. apply (foldM_invariant (link_frame s));
    [apply link_frame_refl|apply link_frame_trans|].
  intros a b a' _. apply Hf.
Qed.

Lemma add_sink_frame stmts gens s fuel :
  ∀ vars this vars',
    add_sink fuel stmts gens vars this s = Ok vars' → link_frame s vars vars'.
Proof.
  induction fuel as [|n IH]; intros vars this vars' H; [done|].
  cbn [add_sink] in H. unfold Const_add_sink in H. inv_Ok H; inv_all; subst;
    repeat match goal with
    | Hm : add_sink n _ _ _ _ _ = Ok _ |- _ => apply IH in Hm
    | Hm : foldM _ _ _ = Ok _ |- _ =>
      apply (foldM_link_frame s) in Hm; [|intros ? ? ?; apply IH]
    end;
    eauto using link_frame_refl, link_frame_trans;
    apply link_frame_update; intros v; cbn; split;
      first [done|apply union_subseteq_r].
Qed.

Lemma add_source_frame s fuel :
  ∀ vars this vars',
    add_source fuel vars this s = Ok vars' → link_frame s vars vars'.
Proof.
  induction fuel as [|n IH]; intros vars this vars' H; [done|].
  cbn [add_source] in H. inv_Ok H; inv_all; subst;
    repeat match goal with
    | Hm : add_source n _ _ _ = Ok _ |- _ => apply IH in Hm
    | Hm : foldM _ _ _ = Ok _ |- _ =>
      apply (foldM_link_frame s) in Hm; [|intros ? ? ?; apply IH]
    end;
    eauto using link_frame_refl, link_frame_trans;
    apply link_frame_update; intros v; cbn; split;
      first [done|apply union_subseteq_r].
Qed.

Lemma assign_frame fuel gens vars stmts this var type vars' stmts' s :
  assign fuel gens vars stmts this var type = Ok (vars', stmts', s) →
  s = length stmts ∧ (∃ st, stmts' = stmts ++ [st]) ∧ link_frame s vars vars'.
Proof.
  unfold assign, EnumVar_assign, Var_assign, AssignStmt_ctor, alloc.
  intros H. inv_Ok H; inv_all; simplify_eq;
    (split; [done|]); (split; [by eexists|]);
    (eapply link_frame_trans; [by eapply add_sink_frame|by eapply add_source_frame]).
Qed.

Lemma stmts_frame_refl parent stmts : stmts_frame parent stmts stmts.
Proof. by split. Qed.

Lemma stmts_frame_trans parent a b c :
  stmts_frame parent a b → stmts_frame parent b c → stmts_frame parent a c.
Proof.
  intros [L1 H1] [L2 H2]. split; [congruence|]. intros s st Hs Hp.
  apply H2; [|done]. by apply H1.
Qed.

Lemma stmts_frame_update parent stmts stmt st f :
  stmts !! stmt = Some st → AssignStmt.parent st = Some parent →
  stmts_frame parent stmts (update stmts stmt f).
Proof.
  intros Hst Hp. split; [apply update_length|]. intros s st' Hs Hne.
  destruct (decide (stmt = s)) as [->|Hneq].
  - rewrite Hst in Hs. injection Hs as <-. done.
  - by rewrite update_lookup_ne.
Qed.

Lemma generator_parent_Ok st g :
  generator_parent st = Ok g → AssignStmt.parent st = Some g.
Proof. unfold generator_parent. destruct (AssignStmt.parent st); by intros [= <-]. Qed.

Lemma move_src_step_effect fuel gens var new_var parent vars stmts stmt vars' stmts' :
  move_src_step is_valid_variable_name fuel gens var new_var parent (vars, stmts) stmt
    = Ok (vars', stmts') →
  (length vars ≤ length vars')%nat ∧ stmts_frame parent stmts stmts'
  ∧ (stmt < length stmts)%nat.
Proof.
  unfold move_src_step. cbn [fst snd]. intros H.
  destruct (deref stmts stmt) as [st| |] eqn:Hst; [|done..].
  apply deref_Ok in Hst. pose proof (lookup_lt_Some _ _ _ Hst) as Hlt.
  cbn [mbind result_bind] in H.
  destruct (generator_parent st) as [gp| |] eqn:Hgp; [|done..].
  apply generator_parent_Ok in Hgp. cbn [mbind result_bind] in H.
  case_bool_decide as Hne.
  { injection H as <- <-. split; [lia|]. split; [apply stmts_frame_refl|done]. }
  assert (gp = parent) as -> by (by destruct (decide (gp = parent))).
  destruct (stmt_set_left _ _ _ _ _ _ _) as [[vars1 stmts1]| |] eqn:Hset; [|done..].
  apply stmt_set_left_effect in Hset as [Hlen Hst1].
  cbn [mbind result_bind] in H.
  assert (Hfr : stmts_frame parent stmts stmts1).
  { destruct Hst1 as [->|[p ->]]; [apply stmts_frame_refl|].
    by eapply stmts_frame_update. }
  inv_Ok H; inv_all; simplify_eq;
    repeat match goal with
    | Hm : add_source _ _ _ _ = Ok _ |- _ => apply add_source_frame in Hm as [Hm _]
    | Hm : Var_set_width_param _ _ _ = Ok _ |- _ =>
      apply Var_set_width_param_length in Hm
    end; (split; [lia|done]).
Qed.

Lemma move_sink_step_effect fuel gens var new_var parent vars stmts stmt vars' stmts' :
  move_sink_step is_valid_variable_name fuel gens var new_var parent (vars, stmts) stmt
    = Ok (vars', stmts') →
  (length vars ≤ length vars')%nat ∧ stmts_frame parent stmts stmts'
  ∧ (stmt < length stmts)%nat.
Proof.
  unfold move_sink_step. cbn [fst snd]. intros H.
  destruct (deref stmts stmt) as [st| |] eqn:Hst; [|done..].
  apply deref_Ok in Hst. pose proof (lookup_lt_Some _ _ _ Hst) as Hlt.
  cbn [mbind result_bind] in H.
  destruct (generator_parent st) as [gp| |] eqn:Hgp; [|done..].
  apply generator_parent_Ok in Hgp. cbn [mbind result_bind] in H.
  case_bool_decide as Hne.
  { injection H as <- <-. split; [lia|]. split; [apply stmts_frame_refl|done]. }
  assert (gp = parent) as -> by (by destruct (decide (gp = parent))).
  destruct (stmt_set_right _ _ _ _ _ _ _) as [[vars1 stmts1]| |] eqn:Hset; [|done..].
  apply stmt_set_right_effect in Hset as [Hlen Hst1].
  cbn [mbind result_bind] in H.
  assert (Hfr : stmts_frame parent stmts stmts1).
  { destruct Hst1 as [->|[p ->]]; [apply stmts_frame_refl|].
    by eapply stmts_frame_update. }
  inv_Ok H; inv_all; simplify_eq;
    repeat match goal with
    | Hm : add_sink _ _ _ _ _ _ = Ok _ |- _ => apply add_sink_frame in Hm as [Hm _]
    | Hm : Var_set_width_param _ _ _ = Ok _ |- _ =>
      apply Var_set_width_param_length in Hm
    end; (split; [lia|done]).
Qed.

(** The relation the relocation loops maintain between the stores before
    and after any number of iterations. *)
Lemma move_loop_effect parent
    (step : list Var * list AssignStmt.t → nat → result (list Var * list AssignStmt.t)) l :
  (∀ vars stmts stmt vars' stmts',
     step (vars, stmts) stmt = Ok (vars', stmts') →
     (length vars ≤ length vars')%nat ∧ stmts_frame parent stmts stmts'
     ∧ (stmt < length stmts)%nat) →
  ∀ vars stmts vars' stmts',
    foldM step l (vars, stmts) = Ok (vars', stmts') →
    (length vars ≤ length vars')%nat ∧ stmts_frame parent stmts stmts'
    ∧ ∀ s, s ∈ l → (s < length stmts)%nat.
Proof.
  intros Hstep vars stmts vars' stmts' H.
  set (R := λ a a' : list Var * list AssignStmt.t,
              (length a.1 ≤ length a'.1)%nat ∧ stmts_frame parent a.2 a'.2).
  assert (Hrefl : ∀ a, R a a) by (intros a; split; [lia|apply stmts_frame_refl]).
  assert (Htrans : ∀ a b c, R a b → R b c → R a c).
  { intros a b c [L1 F1] [L2 F2]. split; [lia|by eapply stmts_frame_trans]. }
  assert (HR : ∀ a b a', b ∈ l → step a b = Ok a' → R a a').
  { intros [a1 a2] b [a1' a2'] _ Hs. apply Hstep in Hs as (? & ? & ?). by split. }
  destruct (foldM_invariant R step l Hrefl Htrans HR _ _ H) as [HL HF].
  split; [done|]. split; [done|]. intros s Hs.
  destruct (foldM_elem R step l s Hrefl Htrans HR Hs _ _ H)
    as ([a1 a2] & [b1 b2] & [_ [Hlen _]] & Hst & _).
  apply Hstep in Hst as (_ & _ & Hlt). cbn in Hlen. lia.
Qed.

Lemma Generator_add_stmt_stmts gens stmts g stmt gens' stmts' :
  Generator_add_stmt gens stmts g stmt = Ok (gens', stmts') →
  stmts' = update stmts stmt (with_stmt_parent (Some g)).
Proof. unfold Generator_add_stmt. intros H. inv_Ok H. by simplify_eq. Qed.

(** C10.  After [Var::move_src_to] on signal [var], no statement that was
    registered in its source set [sources_] (the statements that write it)
    is registered there any more, whichever scope owns the statement, and
    without [keep_connection] the set is empty; the statements that the
    given scope does not own are left exactly as they were, operands
    included.  The same holds for [Var::move_sink_to] and the sink set
    [sinks_]. *)
Theorem move_clears_registrations (fuel : nat) (gens : list Generator.t)
    (vars : list Var) (stmts : list AssignStmt.t) (var new_var parent : nat)
    (keep_connection : bool) :
  (∀ vars' stmts' gens',
     move_src_to is_valid_variable_name fuel gens vars stmts var new_var parent
       keep_connection = Ok (vars', stmts', gens') →
     ∃ v v', vars !! var = Some v ∧ vars' !! var = Some v'
       ∧ (∀ s, s ∈ sources_ v → s ∉ sources_ v')
       ∧ (keep_connection = false → sources_ v' = ∅)
       ∧ (∀ s st, stmts !! s = Some st → AssignStmt.parent st ≠ Some parent →
            stmts' !! s = Some st))
  ∧ (∀ vars' stmts' gens',
     move_sink_to is_valid_variable_name fuel gens vars stmts var new_var parent
       keep_connection = Ok (vars', stmts', gens') →
     ∃ v v', vars !! var = Some v ∧ vars' !! var = Some v'
       ∧ (∀ s, s ∈ sinks_ v → s ∉ sinks_ v')
       ∧ (keep_connection = false → sinks_ v' = ∅)
       ∧ (∀ s st, stmts !! s = Some st → AssignStmt.parent st ≠ Some parent →
            stmts' !! s = Some st)).
Proof.
  split; intros vars' stmts' gens' H.
  - unfold move_src_to in H.
    destruct (deref vars var) as [v| |] eqn:Hv; [|done..]. apply deref_Ok in Hv.
    cbn [mbind result_bind] in H. case_bool_decide; [done|].
    destruct (foldM _ _ _) as [[vars1 stmts1]| |] eqn:Hloop; [|done..].
    cbn [mbind result_bind] in H.
    apply (move_loop_effect parent) in Hloop as (Hlen & [HL HF] & Hin);
      [|intros; by eapply move_src_step_effect].
    destruct (lookup_lt_is_Some_2 vars1 var) as [v1 Hv1].
    { apply lookup_lt_Some in Hv. lia. }
    pose proof (update_lookup_eq vars1 var (with_sources ∅) v1 Hv1) as Hv2.
    destruct keep_connection.
    + destruct (assign _ _ _ _ _ _ _) as [[[vars3 stmts3] stmt]| |] eqn:Has; [|done..].
      cbn [mbind result_bind] in H.
      destruct (Generator_add_stmt _ _ _ _) as [[gens4 stmts4]| |] eqn:Hadd; [|done..].
      injection H as <- <- <-.
      apply assign_frame in Has as (-> & [st ->] & [_ Hfr]).
      apply Generator_add_stmt_stmts in Hadd as ->.
      destruct (Hfr var _ Hv2) as (v3 & Hv3 & Hsrc & _).
      exists v, v3. split_and!; [done..| | |].
      * intros s Hs Hs3. apply Hsrc in Hs3. cbn in Hs3.
        apply elem_of_union in Hs3 as [Hs3|Hs3]; [|by apply not_elem_of_empty in Hs3].
        apply elem_of_singleton in Hs3 as ->.
        rewrite HL in Hs. apply elem_of_elements in Hs. apply Hin in Hs. lia.
      * done.
      * intros s st' Hs Hp. rewrite update_lookup_ne.
        -- apply lookup_alloc_old. by apply HF.
        -- apply lookup_lt_Some in Hs. lia.
    + injection H as <- <- <-. exists v, (with_sources ∅ v1).
      split_and!; [done..| | |].
      * intros s _. apply not_elem_of_empty.
      * done.
      * done.
  - unfold move_sink_to in H.
    destruct (deref vars var) as [v| |] eqn:Hv; [|done..]. apply deref_Ok in Hv.
    cbn [mbind result_bind] in H. case_bool_decide; [done|].
    destruct (foldM _ _ _) as [[vars1 stmts1]| |] eqn:Hloop; [|done..].
    cbn [mbind result_bind] in H.
    apply (move_loop_effect parent) in Hloop as (Hlen & [HL HF] & Hin);
      [|intros; by eapply move_sink_step_effect].
    destruct (lookup_lt_is_Some_2 vars1 var) as [v1 Hv1].
    { apply lookup_lt_Some in Hv. lia. }
    pose proof (update_lookup_eq vars1 var (with_sinks ∅) v1 Hv1) as Hv2.
    destruct keep_connection.
    + destruct (assign _ _ _ _ _ _ _) as [[[vars3 stmts3] stmt]| |] eqn:Has; [|done..].
      cbn [mbind result_bind] in H.
      destruct (Generator_add_stmt _ _ _ _) as [[gens4 stmts4]| |] eqn:Hadd; [|done..].
      injection H as <- <- <-.
      apply assign_frame in Has as (-> & [st ->] & [_ Hfr]).
      apply Generator_add_stmt_stmts in Hadd as ->.
      destruct (Hfr var _ Hv2) as (v3 & Hv3 & _ & Hsnk).
      exists v, v3. split_and!; [done..| | |].
      * intros s Hs Hs3. apply Hsnk in Hs3. cbn in Hs3.
        apply elem_of_union in Hs3 as [Hs3|Hs3]; [|by apply not_elem_of_empty in Hs3].
        apply elem_of_singleton in Hs3 as ->.
        rewrite HL in Hs. apply elem_of_elements in Hs. apply Hin in Hs. lia.
      * done.
      * intros s st' Hs Hp. rewrite update_lookup_ne.
        -- apply lookup_alloc_old. by apply HF.
        -- apply lookup_lt_Some in Hs. lia.
    + injection H as <- <- <-. exists v, (with_sinks ∅ v1).
      split_and!; [done..| | |].
      * intros s _. apply not_elem_of_empty.
      * done.
      * done.
Qed.

(** ** Casts *)

(** Casting an already signed signal to signed returns the signal itself
    and leaves the store as it is. *)
Lemma Var_cast_signed_identity (vars : list Var) (this : nat) (v : Var) :
  vars !! this = Some v → is_signed_ v = true →
  Var_cast is_valid_variable_name vars this Signed = Ok (vars, this).
Proof.
  intros Hv Hs. unfold Var_cast. rewrite (deref_lookup _ _ _ Hv).
  cbn [mbind result_bind]. by rewrite Hs, bool_decide_eq_true_2.
Qed.

End Properties.

(** * Instances *)

(** C1 (code bug).  [a := x] is owned by scope 0 and writes the 8-bit [a];
    relocating the writers of [a] to the 4-bit [n] succeeds, and the
    statement then writes [n]: the total width of its written operand went
    from 8 to 4. *)
Theorem move_src_to_changes_width :
  match move_src_to sample_valid_name 8 wired_scopes wired wired_stmts 0 3 0 false with
  | Ok (vars', stmts', _) =>
    (AssignStmt.left_ <$> wired_stmts !! 0%nat) = Some 0%nat
    ∧ (AssignStmt.left_ <$> stmts' !! 0%nat) = Some 3%nat
    ∧ (width <$> wired !! 0%nat) = Some 8
    ∧ (width <$> vars' !! 3%nat) = Some 4
  | _ => False
  end.
Proof. vm_compute. done. Qed.

Lemma Expr_ctor_width_sign_witness :
  ∃ e, Expr_ctor sample_valid_name None circuit top LessThan 4 (Some 5%nat) = Ok e
       ∧ var_width_ e = 1 ∧ is_signed_ e = true.
Proof.
  destruct (Expr_ctor_width_sign sample_valid_name None eq_refl circuit top LessThan
              4%nat (Some 5%nat) (signal "s" 4 [1] true))
    as (Hbin & _ & Hres); [reflexivity|done|].
  destruct (Hbin 5%nat (signal "t" 4 [1] true) eq_refl eq_refl) as [_ Hok].
  destruct (Hok eq_refl eq_refl) as [e He].
  exists e. split; [exact He|]. destruct (Hres e He) as (Hw & _ & _ & Hs).
  split; [exact Hw|exact Hs].
Defined.

Lemma slice_scalar_compose_witness :
  ∃ vars1 s sn vars2 t tn f2,
    Var_index sample_valid_name circuit 0 7 4 = Ok (vars1, s)
    ∧ vars1 !! s = Some sn ∧ width sn = 4
    ∧ Var_index sample_valid_name vars1 s 1 0 = Ok (vars2, t)
    ∧ vars2 !! t = Some tn ∧ width tn = 2
    ∧ cls tn = CSlice f2 RangeSlice ∧ VarSlice.var_low_ f2 = 4.
Proof.
  destruct (slice_scalar_compose sample_valid_name eq_refl circuit 0%nat
              (signal "a" 8 [1] false) 7 4)
    as (vars1 & s & sn & f & H1 & H2 & H3 & H4 & H5 & H6 & Hnest);
    [reflexivity|reflexivity|reflexivity|done|done|lia|lia|vm_compute; done|].
  destruct (Hnest 1 0) as (vars2 & t & tn & f2 & G1 & G2 & G3 & G4 & G5 & _ & G6);
    [lia|lia|rewrite H3; lia|].
  exists vars1, s, sn, vars2, t, tn, f2.
  split; [exact H1|]. split; [exact H2|]. split; [exact H3|].
  split; [exact G1|]. split; [exact G2|]. split; [exact G3|].
  split; [exact G4|]. apply G6. done.
Defined.

(** C3, as stated, fails: the scalar [e] is marked as an explicit array and
    [e[3:0]] is refused although [0 <= 3 <= 7]; and the slice [a[7:4][1:0]]
    gets the absolute high offset 6, not [4 + 1]. *)
Lemma slice_scalar_counterexample :
  Var_index sample_valid_name circuit 8 3 0 =
    Throw (VarException
      "Parent {0} is a scalar but used marked as an explicit array, only [0, 0] allowed"
      [8%nat])
  ∧ (cls <$> vars_of (Var_index sample_valid_name
                       (vars_of (Var_index sample_valid_name circuit 0 7 4)) 10 1 0)
             !! 11%nat) =
    Some (CSlice {| VarSlice.parent_var := 10; VarSlice.high := 1; VarSlice.low := 0;
                    VarSlice.var_high_ := 6; VarSlice.var_low_ := 4 |} RangeSlice).
Proof. split; vm_compute; reflexivity. Qed.

(** C5 (code bug).  The 8-bit scalar [a] is cast to a clock and to an
    asynchronous reset without any failure. *)
Theorem cast_clock_accepts_wide_scalar :
  (width <$> circuit !! 0%nat) = Some 8
  ∧ (cls <$> vars_of (Var_cast sample_valid_name circuit 0 Clock) !! 10%nat)
    = Some (CCasted 0 Clock)
  ∧ ptr_of (Var_cast sample_valid_name circuit 0 Clock) = Some 10%nat
  ∧ ptr_of (Var_cast sample_valid_name circuit 0 AsyncReset) = Some 10%nat.
Proof. vm_compute. done. Qed.

Lemma VarVarSlice_index_width_witness :
  succeeds (VarVarSlice_ctor sample_valid_name circuit 6 7)
  ∧ VarVarSlice_ctor sample_valid_name circuit 6 3 =
      Throw (VarException
        "Bit extraction of array[{0}:0] requires {1} bit index, not {2} bits."
        [6%nat; 3%nat]).
Proof.
  split.
  - destruct (VarVarSlice_index_width sample_valid_name eq_refl circuit 6%nat 7%nat
                (signal "arr" 8 [4] false) (signal "j" 2 [1] false))
      as [_ Harr]; [reflexivity|reflexivity|done|done|].
    destruct (Harr 4 [] eq_refl) as [Hok _]; [by left|lia|].
    apply Hok. reflexivity.
  - destruct (VarVarSlice_index_width sample_valid_name eq_refl circuit 6%nat 3%nat
                (signal "arr" 8 [4] false) (signal "i" 3 [1] false))
      as [_ Harr]; [reflexivity|reflexivity|done|done|].
    destruct (Harr 4 [] eq_refl) as [_ Hthrow]; [by left|lia|].
    apply Hthrow. vm_compute. done.
Defined.

(** C9, as stated, fails: [a] is a scalar, so its outer dimension is 1 and
    the claimed index width is [max 1 (clog2 1) = 1]; the 3-bit [i] is
    accepted as its index. *)
Lemma VarVarSlice_counterexample :
  size_ (signal "a" 8 [1] false) = [1]
  ∧ width (signal "i" 3 [1] false) ≠ Z.max 1 (Z.log2_up 1)
  ∧ succeeds (VarVarSlice_ctor sample_valid_name circuit 0 3).
Proof. split; [done|]. split; [by vm_compute|]. vm_compute. by eexists. Qed.

Lemma wrapper_notifications_forward_witness :
  add_sink 3 [] top circuit_views 12 7 = Ok (update circuit_views 0 (Var_add_sink 7))
  ∧ add_source 3 circuit_views 12 7 = Ok (update circuit_views 0 (Var_add_source 7))
  ∧ (sinks_ <$> update circuit_views 0 (Var_add_sink 7) !! 12%nat) = Some ∅.
Proof.
  edestruct (wrapper_notifications_forward [] top circuit_views 7 12)
    as (Hsink & Hsource & _); [reflexivity|exact I|].
  assert (Hchain : slice_chain circuit_views 11 0 1).
  { eapply slice_chain_step; [reflexivity..|].
    eapply slice_chain_root; [reflexivity|done]. }
  destruct (Hsink 0%nat 3%nat 3%nat) as (H1 & H2 & _); [|lia|].
  { eapply (sink_path_slice _ 12 _ _ 0 1 0 1); [reflexivity|reflexivity|exact Hchain|].
    eapply sink_path_plain; [reflexivity|by left]. }
  destruct (Hsource 0%nat 3%nat 3%nat) as (H3 & _); [|lia|].
  { eapply source_path_slice; [reflexivity|reflexivity|exact Hchain|reflexivity|by left]. }
  split; [exact H1|]. split; [exact H3|]. by rewrite H2.
Defined.

(** C6, as stated, fails: node 10 is the extension [16'(b)], and a source
    notification delivered to it throws instead of reaching [b]. *)
Lemma wrapper_notifications_counterexample :
  (cls <$> circuit_views !! 10%nat) =
    Some (CExpr {| Expr.op := Extend; Expr.left := 1; Expr.right := None |} (VarExtend 1))
  ∧ add_source 5 circuit_views 10 7 =
      Throw (StmtException "Cannot add source to an extended variable ({0})").
Proof. split; vm_compute; reflexivity. Qed.

(** C4, as stated, fails: assigning the literal 5 (node 9) to [a] succeeds,
    and the new statement is not in the literal's sink set. *)
Lemma assign_counterexample :
  match assign 4 top circuit [] 0 9 Undefined with
  | Ok (vars', _, stmt) =>
    (∃ tv, vars' !! 0%nat = Some tv ∧ bool_decide (stmt ∈ sources_ tv) = true)
    ∧ (∃ c, vars' !! 9%nat = Some c ∧ bool_decide (stmt ∈ sinks_ c) = false)
  | _ => False
  end.
Proof. vm_compute. split; eexists; (split; [reflexivity|]); reflexivity. Qed.

Lemma concat_memo_and_sign_witness :
  (∃ vars1 n, concat sample_valid_name None circuit top 0 1 = Ok (vars1, n)
              ∧ concat sample_valid_name None vars1 top 0 1 = Ok (vars1, n))
  ∧ concat sample_valid_name None circuit top 0 4 =
      Throw (VarException "{0} is signed but {1} is not" [0%nat; 4%nat]).
Proof.
  destruct (concat_memo_and_sign sample_valid_name None eq_refl circuit top 0%nat 1%nat
              (signal "a" 8 [1] false) eq_refl) as (Hmemo & _ & _).
  destruct (concat_memo_and_sign sample_valid_name None eq_refl circuit top 0%nat 4%nat
              (signal "a" 8 [1] false) eq_refl) as (_ & Hsign & _).
  split.
  - destruct (concat sample_valid_name None circuit top 0 1) as [[vars1 n]|e|] eqn:E.
    + exists vars1, n. split; [reflexivity|]. by apply Hmemo.
    + vm_compute in E. discriminate E.
    + vm_compute in E. discriminate E.
  - destruct (Hsign (signal "s" 4 [1] true)) as [_ Hthrow];
      [reflexivity|done|done|reflexivity|].
    by apply Hthrow.
Defined.

(** C7, as stated, fails: [{a, b}] is a signal, and concatenating [x] onto
    it twice allocates two different nodes. *)
Lemma concat_counterexample :
  match concat sample_valid_name None circuit top 0 1 with
  | Ok (vars1, ab) =>
    match concat sample_valid_name None vars1 top ab 2 with
    | Ok (vars2, first) =>
      match concat sample_valid_name None vars2 top ab 2 with
      | Ok (_, second) => first ≠ second
      | _ => False
      end
    | _ => False
    end
  | _ => False
  end.
Proof. vm_compute. done. Qed.

Lemma move_clears_registrations_witness :
  (∃ vars' stmts' gens' v',
     move_src_to sample_valid_name 8 wired_scopes wired wired_stmts 0 3 0 true
       = Ok (vars', stmts', gens')
     ∧ vars' !! 0%nat = Some v'
     ∧ (0%nat ∉ sources_ v') ∧ (1%nat ∉ sources_ v')
     ∧ (AssignStmt.left_ <$> stmts' !! 1%nat) = Some 0%nat)
  ∧ (∃ vars' stmts' gens' v',
     move_sink_to sample_valid_name 8 wired_scopes wired wired_stmts 2 3 0 false
       = Ok (vars', stmts', gens')
     ∧ vars' !! 2%nat = Some v'
     ∧ sinks_ v' = ∅).
Proof.
  split.
  - destruct (move_clears_registrations sample_valid_name 8 wired_scopes wired
                wired_stmts 0 3 0 true) as [Hsrc _].
    destruct (move_src_to sample_valid_name 8 wired_scopes wired wired_stmts 0 3 0 true)
      as [[[vars' stmts'] gens']|e|] eqn:E.
    + destruct (Hsrc vars' stmts' gens' eq_refl) as (v & v' & Hv & Hv' & Hgone & _ & Hkept).
      injection Hv as <-.
      exists vars', stmts', gens', v'. split; [reflexivity|]. split; [exact Hv'|].
      split; [apply Hgone; by vm_compute|]. split; [apply Hgone; by vm_compute|].
      by rewrite (Hkept 1%nat _ eq_refl).
    + vm_compute in E. discriminate E.
    + vm_compute in E. discriminate E.
  - destruct (move_clears_registrations sample_valid_name 8 wired_scopes wired
                wired_stmts 2 3 0 false) as [_ Hsnk].
    destruct (move_sink_to sample_valid_name 8 wired_scopes wired wired_stmts 2 3 0 false)
      as [[[vars' stmts'] gens']|e|] eqn:E.
    + destruct (Hsnk vars' stmts' gens' eq_refl) as (v & v' & Hv & Hv' & _ & Hempty & _).
      exists vars', stmts', gens', v'. split; [reflexivity|]. split; [exact Hv'|].
      by apply Hempty.
    + vm_compute in E. discriminate E.
    + vm_compute in E. discriminate E.
Defined.

(** * Further properties *)

Section Constants.
Variable is_valid_variable_name : string → bool.

Lemma Const_range_check_representable value w sg :
  - 2 ^ 63 ≤ value < 2 ^ 63 → 0 ≤ w → shift_defined sg w →
  (representable sg w value → Const_range_check value w sg = Ok ())
  ∧ (¬ representable sg w value →
     ∃ msg, Const_range_check value w sg = Throw (UserException msg)).
Proof.
  intros Hv Hw Hs. unfold Const_range_check, representable, shift_defined in *.
  destruct sg.
  - rewrite bool_decide_eq_false_2 by lia. cbv zeta.
    split; intros H.
    + rewrite !bool_decide_eq_false_2 by lia. done.
    + case_bool_decide; [by eexists|]. case_bool_decide; [by eexists|]. lia.
  - rewrite bool_decide_eq_false_2 by lia. cbv zeta.
    assert (Hp : 2 ^ w ≤ 2 ^ 63) by (apply Z.pow_le_mono_r; lia).
    split; intros H.
    + rewrite bool_decide_eq_false_2; [done|].
      unfold u64. rewrite Z.mod_small by lia. lia.
    + case_bool_decide as Hc; [by eexists|]. exfalso. apply H.
      unfold u64 in Hc.
      destruct (decide (0 ≤ value)).
      * rewrite Z.mod_small in Hc by lia. lia.
      * assert (value mod 2 ^ 64 = value + 2 ^ 64).
        { symmetry. apply Z.mod_unique with (-1); lia. }
        lia.
Qed.

Lemma Const_ctor_checks (g : option nat) (value w : Z) (sg : bool) :
  - 2 ^ 63 ≤ value < 2 ^ 63 → 0 ≤ w → shift_defined sg w →
  is_valid_variable_name (pretty value) = true →
  (representable sg w value →
   Const_ctor is_valid_variable_name g value w sg =
     Ok {| name := pretty value; generator := g; var_width_ := w; size_ := [1];
           is_signed_ := sg; type_ := ConstValue; explicit_array_ := false;
           is_packed_ := false; param_ := None; sinks_ := ∅; sources_ := ∅;
           slices_ := []; concat_vars_ := []; casted_ := []; extended_ := [];
           cls := CConst value PlainConst |})
  ∧ (¬ representable sg w value →
     ∃ msg, Const_ctor is_valid_variable_name g value w sg = Throw (UserException msg)).
Proof.
  intros Hv Hw Hs Hn.
  destruct (Const_range_check_representable value w sg Hv Hw Hs) as [Hin Hout].
  unfold Const_ctor, Var_ctor.
  rewrite bool_decide_eq_false_2 by (intros [_ ?]; done).
  rewrite Hn. cbn [negb mbind result_bind].
  split; intros H.
  - by rewrite (Hin H).
  - destruct (Hout H) as [msg ->]. by exists msg.
Qed.

Lemma representable_dec sg w value : Decision (representable sg w value).
Proof. unfold representable. destruct sg; apply _. Qed.

(** [Const::Const] accepts exactly the values that the width and
    signedness can hold: a signed constant of width [w] takes the values from
    [-2^(w-1)] to [2^(w-1) - 1], an unsigned one the values from 0 to
    [2^w - 1]; any other value is refused with a [UserException].  The
    constant made holds the value, with the width and signedness given. *)
Theorem Const_ctor_representable (g : option nat) (value w : Z) (sg : bool) :
  - 2 ^ 63 ≤ value < 2 ^ 63 → 0 ≤ w → shift_defined sg w →
  is_valid_variable_name (pretty value) = true →
  (succeeds (Const_ctor is_valid_variable_name g value w sg) ↔ representable sg w value)
  ∧ (¬ representable sg w value →
     ∃ msg, Const_ctor is_valid_variable_name g value w sg = Throw (UserException msg))
  ∧ (∀ c, Const_ctor is_valid_variable_name g value w sg = Ok c →
       cls c = CConst value PlainConst ∧ type_ c = ConstValue
       ∧ var_width_ c = w ∧ size_ c = [1] ∧ is_signed_ c = sg ∧ generator c = g).
Proof.
  intros Hv Hw Hs Hn.
  destruct (Const_ctor_checks g value w sg Hv Hw Hs Hn) as [Hin Hout].
  split_and!.
  - split.
    + intros [c Hc]. destruct (representable_dec sg w value) as [|Hr]; [done|].
      destruct (Hout Hr) as [msg Hm]. congruence.
    + intros Hr. rewrite (Hin Hr). by eexists.
  - exact Hout.
  - intros c Hc. destruct (representable_dec sg w value) as [Hr|Hr].
    + rewrite (Hin Hr) in Hc. by injection Hc as <-.
    + destruct (Hout Hr) as [msg Hm]. congruence.
Qed.

Lemma Const_set_value_stores (vars : list Var) (this : nat) (v : Var)
    (value : Z) (sub : ConstSub) (nv : Z) :
  vars !! this = Some v → cls v = CConst value sub → size_ v = [1] →
  - 2 ^ 63 ≤ nv < 2 ^ 63 → shift_defined (is_signed_ v) (width v) →
  is_valid_variable_name (pretty nv) = true →
  representable (is_signed_ v) (width v) nv →
  Const_set_value is_valid_variable_name vars this nv =
    Ok (<[this := with_cls (CConst nv sub) v]> vars).
Proof.
  intros Hv Hc Hsz Hnv Hs Hn H.
  pose proof (width_range v Hsz) as Hw.
  destruct (Const_ctor_checks (generator v) nv (width v) (is_signed_ v))
    as [Hin _]; [done|lia|done..|].
  unfold Const_set_value. rewrite (deref_lookup _ _ _ Hv). cbn [mbind result_bind].
  rewrite (Hin H). unfold update. rewrite Hv. unfold with_value. by rewrite Hc.
Qed.

(** [Const::set_value] never throws: a value that the constant's width and
    signedness can hold replaces the stored one, any other value leaves the
    store as it was. *)
Theorem Const_set_value_representable (vars : list Var) (this : nat) (v : Var)
    (value : Z) (sub : ConstSub) (nv : Z) :
  vars !! this = Some v → cls v = CConst value sub → size_ v = [1] →
  - 2 ^ 63 ≤ nv < 2 ^ 63 → shift_defined (is_signed_ v) (width v) →
  is_valid_variable_name (pretty nv) = true →
  (representable (is_signed_ v) (width v) nv →
   Const_set_value is_valid_variable_name vars this nv =
     Ok (<[this := with_cls (CConst nv sub) v]> vars))
  ∧ (¬ representable (is_signed_ v) (width v) nv →
     Const_set_value is_valid_variable_name vars this nv = Ok vars).
Proof.
  intros Hv Hc Hsz Hnv Hs Hn. split.
  - by apply Const_set_value_stores with value.
  - intros H. pose proof (width_range v Hsz) as Hw.
    destruct (Const_ctor_checks (generator v) nv (width v) (is_signed_ v))
      as [_ Hout]; [done|lia|done..|].
    unfold Const_set_value. rewrite (deref_lookup _ _ _ Hv). cbn [mbind result_bind].
    by destruct (Hout H) as [msg ->].
Qed.

Lemma Param_ctor_Ok m nm w sg p :
  Param_ctor is_valid_variable_name m nm w sg = Ok p →
  cls p = CConst 0 (Param [] []) ∧ type_ p = Parameter_ ∧ var_width_ p = w
  ∧ size_ p = [1] ∧ is_signed_ p = sg ∧ generator p = m.
Proof.
  unfold Param_ctor. intros H. apply bind_Ok in H as (c & Hc & H).
  injection H as <-. unfold Const_ctor in Hc.
  apply bind_Ok in Hc as (b & Hb & Hc). apply bind_Ok in Hc as (? & _ & Hc).
  injection Hc as <-. unfold Var_ctor in Hb.
  repeat case_match; simplify_eq/=. done.
Qed.

(** A parameter is constructed with the value 0, and [Var::set_width_param]
    refuses a parameter whose value is not positive: a fresh parameter
    cannot size a signal.  Once it has been given a positive value that it
    can hold, attaching it to a signal succeeds, the signal takes the value
    as its width and refers to the parameter. *)
Theorem fresh_param_sizes_after_set (vars : list Var) (m : option nat) (nm : string)
    (w : Z) (sg : bool) (p : Var) (this : nat) (tv : Var) (nv : Z) :
  Param_ctor is_valid_variable_name m nm w sg = Ok p →
  vars !! this = Some tv →
  0 ≤ w < 2 ^ 32 → shift_defined sg w →
  0 < nv < 2 ^ 63 → representable sg w nv →
  is_valid_variable_name (pretty nv) = true →
  Var_set_width_param (vars ++ [p]) this (length vars) =
    Throw (VarException
      "{0} is non-positive ({1}), thus cannot be used for parametrization width"
      [length vars])
  ∧ ∃ vars1 vars2 tv',
      Param_set_value is_valid_variable_name 1 (vars ++ [p]) (length vars) nv = Ok vars1
      ∧ Var_set_width_param vars1 this (length vars) = Ok vars2
      ∧ vars2 !! this = Some tv'
      ∧ var_width_ tv' = u32 nv ∧ param_ tv' = Some (length vars).
Proof.
  intros Hp Ht Hw Hs Hnv Hrep Hn.
  apply Param_ctor_Ok in Hp as (Hc & Hty & Hpw & Hsz & Hsg & Hg).
  assert (Hlt : (this < length vars)%nat) by by eapply lookup_lt_Some.
  assert (Hq : (vars ++ [p]) !! length vars = Some p) by apply lookup_alloc_new.
  split.
  - unfold Var_set_width_param. rewrite (deref_lookup _ _ _ Hq).
    cbn [mbind result_bind]. unfold as_Param. rewrite Hc. cbn [mbind result_bind].
    by rewrite bool_decide_eq_true_2.
  - assert (Hwp : width p = w).
    { rewrite width_scalar by done. rewrite Hpw. apply u32_small. lia. }
    assert (Hset : Const_set_value is_valid_variable_name (vars ++ [p]) (length vars) nv
                   = Ok (<[length vars := with_cls (CConst nv (Param [] [])) p]>
                           (vars ++ [p]))).
    { apply Const_set_value_stores with 0; [done..|lia| |done|]; by rewrite Hsg, Hwp. }
    eexists _, _, _. split.
    { cbn [Param_set_value]. rewrite (deref_lookup _ _ _ Hq). cbn [mbind result_bind].
      unfold as_Param. rewrite Hc. cbn [mbind result_bind].
      rewrite bool_decide_eq_false_2 by (intros [_ ?]; done).
      rewrite Hset. cbn. reflexivity. }
    assert (Hq' : (<[length vars := with_cls (CConst nv (Param [] [])) p]> (vars ++ [p]))
                    !! length vars = Some (with_cls (CConst nv (Param [] [])) p)).
    { apply list_lookup_insert_eq. rewrite length_app. simpl. lia. }
    assert (Ht' : (<[length vars := with_cls (CConst nv (Param [] [])) p]> (vars ++ [p]))
                    !! this = Some tv).
    { rewrite list_lookup_insert_ne by lia. by apply lookup_alloc_old. }
    split.
    { unfold Var_set_width_param. rewrite (deref_lookup _ _ _ Hq').
      cbn [mbind result_bind as_Param cls with_cls].
      rewrite bool_decide_eq_false_2 by lia.
      rewrite (deref_lookup _ _ _ Ht'). cbn [mbind result_bind mret result_ret].
      reflexivity. }
    split.
    { rewrite update_lookup_ne by lia. by apply update_lookup_eq. }
    done.
Qed.

End Constants.

Section Slices.
Variable is_valid_variable_name : string → bool.
Hypothesis empty_name_valid : is_valid_variable_name "" = true.

Lemma fold_width_product (l : list Z) (a : Z) :
  l ≠ [] → fold_left (λ w i, u32 (w * i)) l a = u32 (a * dims_product l).
Proof.
  revert a. induction l as [|x l IH]; intros a Hne; [done|].
  destruct l as [|y l].
  - cbn. by rewrite Z.mul_1_r.
  - transitivity (fold_left (λ w i : Z, u32 (w * i)) (y :: l) (u32 (a * x))); [done|].
    rewrite IH by done.
    change (dims_product (x :: y :: l)) with (x * dims_product (y :: l)).
    unfold u32. rewrite Zmult_mod_idemp_l. f_equal. lia.
Qed.

Lemma VarSlice_ctor_shape vars parent high low node :
  VarSlice_ctor is_valid_variable_name vars parent high low = Ok node →
  ∃ f, cls node = CSlice f RangeSlice ∧ VarSlice.parent_var f = parent
       ∧ VarSlice.high f = high ∧ VarSlice.low f = low ∧ type_ node = Slice.
Proof.
  unfold VarSlice_ctor, Var_ctor. intros H. inv_all; simplify_eq/=; eexists; done.
Qed.

End Slices.

Section Slices2.
Variable is_valid_variable_name : string → bool.
Hypothesis empty_name_valid : is_valid_variable_name "" = true.

Lemma u32_mul_l a b : u32 (u32 a * b) = u32 (a * b).
Proof. unfold u32. apply Zmult_mod_idemp_l. Qed.

Lemma u32_mul_r a b : u32 (a * u32 b) = u32 (a * b).
Proof. unfold u32. apply Zmult_mod_idemp_r. Qed.

Lemma is_scalar_false v : size_ v ≠ [1] → is_scalar v = false.
Proof. intros. unfold is_scalar. by rewrite bool_decide_eq_false_2. Qed.

Lemma is_scalar_true v : size_ v = [1] → is_scalar v = true.
Proof. intros. unfold is_scalar. by rewrite bool_decide_eq_true_2. Qed.

Lemma width_array_slice x v n d rest :
  size_ x = u32 n :: rest → var_width_ x = var_width_ v → size_ v = d :: rest →
  width x = u32 (n * base_width v).
Proof.
  intros Hx Hw Hv. unfold width, base_width. rewrite Hx, Hw, Hv. cbn [tail fold_left].
  destruct rest as [|y rest'].
  - cbn. rewrite u32_mul_r. f_equal. lia.
  - rewrite !fold_width_product by done.
    rewrite u32_mul_l, u32_mul_r.
    replace (var_width_ v * u32 n * dims_product (y :: rest'))
      with (u32 n * (var_width_ v * dims_product (y :: rest'))) by lia.
    by rewrite u32_mul_l.
Qed.

(** [Var::operator[]] on an array signal.  Inverted bounds and a [high]
    above the outer dimension are refused; the comparison with the outer
    dimension is not strict, so [high] may equal it.  An accepted slice keeps
    the element width and the inner dimensions, has [high - low + 1] as its
    outer dimension, and on a signal that is not itself a slice its absolute
    offsets are the bounds scaled by the width of one outer element. *)
Theorem Var_index_array (vars : list Var) (this : nat) (v : Var) (d : Z)
    (rest : list Z) (high low : Z) :
  vars !! this = Some v → size_ v = d :: rest → size_ v ≠ [1] →
  generator v ≠ None → slice_tag_ok v →
  (high < low →
   Var_index is_valid_variable_name vars this high low =
     Throw (VarException "low ({0}) cannot be larger than ({1})" [this]))
  ∧ (low ≤ high → d < high →
     Var_index is_valid_variable_name vars this high low =
       Throw (VarException "high ({0}) has to be smaller than size ({1})" [this]))
  ∧ (low ≤ high → high ≤ d →
     ∃ sn f,
       Var_index is_valid_variable_name vars this high low =
         Ok (update (vars ++ [sn]) this (slices_emplace (length vars)), length vars)
       ∧ cls sn = CSlice f RangeSlice ∧ VarSlice.parent_var f = this
       ∧ size_ sn = u32 (high - low + 1) :: rest
       ∧ var_width_ sn = var_width_ v ∧ is_signed_ sn = is_signed_ v
       ∧ width sn = u32 ((high - low + 1) * base_width v)
       ∧ (type_ v ≠ Slice →
          VarSlice.var_low_ f = u32 (low * base_width v)
          ∧ VarSlice.var_high_ f = u32 ((high + 1) * base_width v - 1))).
Proof.
  intros Hv Hsz Hns Hg Htag.
  pose proof (is_scalar_false v Hns) as Hsc.
  unfold Var_index. rewrite (deref_lookup _ _ _ Hv). cbn [mbind result_bind].
  split_and!.
  - intros H. by rewrite bool_decide_eq_true_2.
  - intros H1 H2. rewrite bool_decide_eq_false_2 by lia. rewrite Hsc, Hsz.
    by rewrite bool_decide_eq_true_2.
  - intros H1 H2. rewrite bool_decide_eq_false_2 by lia. rewrite Hsc, Hsz.
    rewrite bool_decide_eq_false_2 by lia. cbn [mbind result_bind].
    unfold VarSlice_ctor. rewrite (deref_lookup _ _ _ Hv). cbn [mbind result_bind].
    rewrite Var_ctor_Ok by done. cbn [mbind result_bind].
    rewrite Hsc, Hsz. cbn [andb mbind result_bind].
    destruct (decide (type_ v = Slice)) as [Hty|Hty].
    + destruct (Htag Hty) as (s & sub & Hcls).
      rewrite bool_decide_eq_false_2 by (intros ?; done).
      unfold as_VarSlice. rewrite Hcls. cbn [mbind result_bind mret result_ret alloc].
      eexists _, _. split; [reflexivity|]. split; [reflexivity|].
      split_and!; try done. by eapply width_array_slice.
    + rewrite bool_decide_eq_true_2 by done.
      cbn [mbind result_bind mret result_ret alloc].
      eexists _, _. split; [reflexivity|]. split; [reflexivity|].
      split_and!; try done. by eapply width_array_slice.
Qed.

(** [Var::operator[]] on a scalar signal refuses inverted bounds and a
    [high] that is not below the width.  On a scalar marked as an explicit
    array every slice but [[0, 0]] is refused, and that slice stands for the
    whole signal: it keeps the signal's width and, on a signal that is not
    itself a slice, covers the bits from 0 to width - 1. *)
Theorem Var_index_scalar_checks (vars : list Var) (this : nat) (v : Var) (high low : Z) :
  vars !! this = Some v → size_ v = [1] → generator v ≠ None → slice_tag_ok v →
  (high < low →
   Var_index is_valid_variable_name vars this high low =
     Throw (VarException "low ({0}) cannot be larger than ({1})" [this]))
  ∧ (low ≤ high → width v ≤ high →
     Var_index is_valid_variable_name vars this high low =
       Throw (VarException "high ({0}) has to be smaller than width ({1})" [this]))
  ∧ (explicit_array_ v = true → low ≤ high → high < width v → high ≠ 0 ∨ low ≠ 0 →
     Var_index is_valid_variable_name vars this high low =
       Throw (VarException
         "Parent {0} is a scalar but used marked as an explicit array, only [0, 0] allowed"
         [this]))
  ∧ (explicit_array_ v = true → 0 < width v →
     ∃ sn f,
       Var_index is_valid_variable_name vars this 0 0 =
         Ok (update (vars ++ [sn]) this (slices_emplace (length vars)), length vars)
       ∧ cls sn = CSlice f RangeSlice ∧ VarSlice.parent_var f = this
       ∧ size_ sn = [1] ∧ var_width_ sn = var_width_ v ∧ width sn = width v
       ∧ (type_ v ≠ Slice →
          VarSlice.var_low_ f = 0 ∧ VarSlice.var_high_ f = u32 (var_width_ v - 1))).
Proof.
  intros Hv Hsz Hg Htag.
  pose proof (is_scalar_true v Hsz) as Hsc.
  unfold Var_index. rewrite (deref_lookup _ _ _ Hv). cbn [mbind result_bind].
  split_and!.
  - intros H. by rewrite bool_decide_eq_true_2.
  - intros H1 H2. rewrite bool_decide_eq_false_2 by lia. rewrite Hsc.
    by rewrite bool_decide_eq_true_2.
  - intros Hex H1 H2 H3. rewrite bool_decide_eq_false_2 by lia. rewrite Hsc.
    rewrite bool_decide_eq_false_2 by lia. cbn [mbind result_bind].
    unfold VarSlice_ctor. rewrite (deref_lookup _ _ _ Hv). cbn [mbind result_bind].
    rewrite Var_ctor_Ok by done. cbn [mbind result_bind].
    rewrite Hsc, Hex. cbn [andb].
    rewrite (bool_decide_eq_true_2 (high ≠ 0 ∨ low ≠ 0)) by done. done.
  - intros Hex Hw. rewrite bool_decide_eq_false_2 by lia. rewrite Hsc.
    rewrite bool_decide_eq_false_2 by lia. cbn [mbind result_bind].
    unfold VarSlice_ctor. rewrite (deref_lookup _ _ _ Hv). cbn [mbind result_bind].
    rewrite Var_ctor_Ok by done. cbn [mbind result_bind].
    rewrite Hsc, Hex. cbn [andb].
    rewrite (bool_decide_eq_false_2 (0 ≠ 0 ∨ 0 ≠ 0)) by (intros [?|?]; done).
    cbn [mbind result_bind].
    destruct (decide (type_ v = Slice)) as [Hty|Hty].
    + destruct (Htag Hty) as (s & sub & Hcls).
      rewrite bool_decide_eq_false_2 by (intros ?; done).
      unfold as_VarSlice. rewrite Hcls. cbn [mbind result_bind mret result_ret alloc].
      eexists _, _. split; [reflexivity|]. split; [reflexivity|].
      split_and!; try done. by rewrite !width_scalar.
    + rewrite bool_decide_eq_true_2 by done.
      cbn [mbind result_bind mret result_ret alloc].
      eexists _, _. split; [reflexivity|]. split; [reflexivity|].
      split_and!; try done. by rewrite !width_scalar.
Qed.

Lemma slice_chain_alloc vars a p r k :
  slice_chain vars p r k → slice_chain (vars ++ [a]) p r k.
Proof.
  induction 1.
  - eapply slice_chain_root; [by apply lookup_alloc_old|done].
  - eapply slice_chain_step; [by apply lookup_alloc_old|done..].
Qed.

Lemma slice_chain_root_tag vars p r k :
  slice_chain vars p r k → ∃ rv, vars !! r = Some rv ∧ type_ rv ≠ Slice.
Proof. induction 1; eauto. Qed.

Lemma VarVarSlice_ctor_shape vars parent slice node :
  VarVarSlice_ctor is_valid_variable_name vars parent slice = Ok node →
  ∃ f, cls node = CSlice f (VarVarSlice slice) ∧ VarSlice.parent_var f = parent.
Proof.
  unfold VarVarSlice_ctor. intros H.
  apply bind_Ok in H as (base & _ & H). apply bind_Ok in H as (par & _ & H).
  apply bind_Ok in H as (idx & _ & H).
  destruct (is_scalar par && negb (explicit_array_ par)).
  - injection H as <-. by eexists.
  - apply bind_Ok in H as (front & _ & H). apply bind_Ok in H as (req & _ & H).
    case_bool_decide; [done|]. injection H as <-. by eexists.
Qed.

Lemma root_parent_after vars this r k fuel node f sub :
  slice_chain vars this r k → (k < fuel)%nat →
  cls node = CSlice f sub → VarSlice.parent_var f = this →
  let vars1 := update (vars ++ [node]) this (slices_emplace (length vars)) in
  VarSlice_get_var_root_parent fuel vars1 (length vars) = Ok r
  ∧ (∃ rv, vars1 !! r = Some rv ∧ type_ rv ≠ Slice)
  ∧ (∃ tv, vars1 !! this = Some tv ∧ length vars ∈ slices_ tv).
Proof.
  intros Hch Hk Hcls Hpar vars1.
  assert (Hch1 : slice_chain vars1 this r k).
  { apply slice_chain_update; [done|]. by apply slice_chain_alloc. }
  assert (∃ tv, vars !! this = Some tv) as [tv Ht] by (inversion Hch; eauto).
  assert (Hlt : (this < length vars)%nat) by by eapply lookup_lt_Some.
  split_and!.
  - unfold VarSlice_get_var_root_parent.
    assert (vars1 !! length vars = Some node) as Hn.
    { unfold vars1. rewrite update_lookup_ne by lia. apply lookup_alloc_new. }
    rewrite (deref_lookup _ _ _ Hn). cbn [mbind result_bind].
    unfold as_VarSlice. rewrite Hcls. cbn [mbind result_bind]. rewrite Hpar.
    by apply slice_root_chain with k.
  - by eapply slice_chain_root_tag.
  - exists (slices_emplace (length vars) tv). split.
    + apply update_lookup_eq. by apply lookup_alloc_old.
    + cbn. apply elem_of_app. right. by apply list_elem_of_singleton.
Qed.

(** A slice made by [Var::operator[]], with bounds or with an index signal,
    has the root of the sliced signal as its root parent: the signal itself
    when it is not a slice, and otherwise the signal found under its chain of
    slices.  That root is never a slice, and the new slice is recorded in
    the slice cache of the signal it was taken from. *)
Theorem slice_root_parent (vars : list Var) (this r k : nat) (high low : Z) (idx : nat)
    (vars1 : list Var) (s fuel : nat) :
  slice_chain vars this r k → (k < fuel)%nat →
  Var_index is_valid_variable_name vars this high low = Ok (vars1, s)
  ∨ Var_index_var is_valid_variable_name vars this idx = Ok (vars1, s) →
  VarSlice_get_var_root_parent fuel vars1 s = Ok r
  ∧ (∃ rv, vars1 !! r = Some rv ∧ type_ rv ≠ Slice)
  ∧ (∃ tv, vars1 !! this = Some tv ∧ s ∈ slices_ tv).
Proof.
  intros Hch Hk [H|H].
  - unfold Var_index in H. apply bind_Ok in H as (v & _ & H).
    case_bool_decide; [done|].
    apply bind_Ok in H as (? & _ & H). apply bind_Ok in H as (node & Hn & H).
    cbn [alloc mret result_ret] in H. injection H as <- <-.
    apply VarSlice_ctor_shape in Hn as (f & Hcls & Hpar & _).
    by eapply root_parent_after.
  - unfold Var_index_var in H. apply bind_Ok in H as (node & Hn & H).
    cbn [alloc mret result_ret] in H. injection H as <- <-.
    apply VarVarSlice_ctor_shape in Hn as (f & Hcls & Hpar).
    by eapply root_parent_after.
Qed.

(** [VarVarSlice::VarVarSlice]: indexing a plain scalar with a signal
    selects one bit, at offsets (0, 0); indexing an array (or a scalar marked
    as an explicit array) peels the outer dimension: the node keeps the
    element width and the inner dimensions, so that its total width is the
    width of one outer element, and its offsets run from 0 to the element
    width minus 1. *)
Theorem VarVarSlice_peels (vars : list Var) (parent slice : nat) (par node : Var) :
  vars !! parent = Some par →
  VarVarSlice_ctor is_valid_variable_name vars parent slice = Ok node →
  ∃ f, cls node = CSlice f (VarVarSlice slice)
    ∧ VarSlice.parent_var f = parent ∧ VarSlice.var_low_ f = 0
    ∧ (size_ par = [1] → explicit_array_ par = false →
       var_width_ node = 1 ∧ size_ node = [1] ∧ width node = 1
       ∧ VarSlice.var_high_ f = 0)
    ∧ (size_ par ≠ [1] ∨ explicit_array_ par = true →
       var_width_ node = var_width_ par
       ∧ size_ node = (if bool_decide (1 < length (size_ par))%nat
                       then tail (size_ par) else [1])
       ∧ width node = u32 (base_width par)
       ∧ VarSlice.var_high_ f = u32 (var_width_ par - 1)).
Proof.
  intros Hp H. unfold VarVarSlice_ctor in H.
  apply bind_Ok in H as (base & _ & H).
  rewrite (deref_lookup _ _ _ Hp) in H. cbn [mbind result_bind] in H.
  apply bind_Ok in H as (idx & _ & H).
  destruct (is_scalar par && negb (explicit_array_ par)) eqn:Hb.
  - injection H as <-. eexists. split; [reflexivity|]. split_and!; try done.
    intros [Hn|He]; apply andb_true_iff in Hb as [Hs Hx].
    + unfold is_scalar in Hs. by apply bool_decide_eq_true in Hs.
    + rewrite He in Hx. done.
  - apply bind_Ok in H as (front & Hf & H). apply bind_Ok in H as (req & _ & H).
    case_bool_decide; [done|]. injection H as <-.
    eexists. split; [reflexivity|]. split_and!; try done.
    + intros Hsz Hex. unfold is_scalar in Hb.
      rewrite bool_decide_eq_true_2, Hex in Hb by done. done.
    + intros _. split_and!; try done.
      unfold width, base_width. cbn [size_ with_cls with_size with_var_width var_width_].
      destruct (size_ par) as [|d [|y rest]] eqn:Hsz; [done|..].
      * rewrite bool_decide_eq_false_2 by (cbn; lia). cbn. by rewrite Z.mul_1_r.
      * rewrite bool_decide_eq_true_2 by (cbn; lia). cbn [tail].
        rewrite fold_width_product by done. by rewrite u32_idemp.
Qed.

End Slices2.

Section Views.
Variable is_valid_variable_name : string → bool.
Variable const_gen : option nat.
Hypothesis empty_name_valid : is_valid_variable_name "" = true.

Lemma assoc_find_emplace {K V} `{EqDecision K} (k : K) (p : V) (l : list (K * V)) :
  assoc_find k l = None → assoc_find k (assoc_emplace k p l) = Some p.
Proof.
  intros H. unfold assoc_emplace. rewrite H.
  induction l as [|[k' v'] l IH]; cbn in *.
  - by rewrite decide_True.
  - destruct (decide (k = k')); [done|]. by apply IH.
Qed.

Lemma VarCasted_ctor_shape vars parent ct node par :
  vars !! parent = Some par →
  VarCasted_ctor is_valid_variable_name vars parent ct = Ok node →
  cls node = CCasted parent ct ∧ type_ node = BaseCasted
  ∧ var_width_ node = width par ∧ size_ node = [1]
  ∧ (ct = Signed → is_signed_ node = true)
  ∧ (ct = Unsigned → is_signed_ node = false).
Proof.
  intros Hp. unfold VarCasted_ctor, Var_ctor.
  rewrite (deref_lookup _ _ _ Hp). cbn [mbind result_bind]. intros H.
  repeat case_match; simplify_eq/=; done.
Qed.

(** [Var::cast] is memoized per cast type: a call that returned a node
    returns the same node when repeated, and the repeated call changes
    nothing.  A node made on a cache miss is a [BaseCasted] view of the
    signal with the signal's total width, signed for a signed cast and
    unsigned for an unsigned cast. *)
Theorem Var_cast_memo (vars : list Var) (this : nat) (ct : VarCastType)
    (vars1 : list Var) (p : nat) :
  Var_cast is_valid_variable_name vars this ct = Ok (vars1, p) →
  Var_cast is_valid_variable_name vars1 this ct = Ok (vars1, p)
  ∧ ∀ v, vars !! this = Some v → assoc_find ct (casted_ v) = None →
      ct ≠ Signed ∨ is_signed_ v = false →
      p = length vars
      ∧ ∃ node, vars1 !! p = Some node
          ∧ cls node = CCasted this ct ∧ type_ node = BaseCasted
          ∧ var_width_ node = width v ∧ size_ node = [1]
          ∧ (ct = Signed → is_signed_ node = true)
          ∧ (ct = Unsigned → is_signed_ node = false).
Proof.
  intros H. unfold Var_cast in H.
  apply bind_Ok in H as (v & Hv & H). apply deref_Ok in Hv.
  assert (Hlt : (this < length vars)%nat) by by eapply lookup_lt_Some.
  destruct (bool_decide (ct = Signed) && is_signed_ v) eqn:Hb.
  - injection H as <- <-. split.
    + unfold Var_cast. rewrite (deref_lookup _ _ _ Hv). cbn [mbind result_bind].
      by rewrite Hb.
    + intros v' Hv' _ Hor. simplify_eq. apply andb_true_iff in Hb as [Hs Hg].
      apply bool_decide_eq_true in Hs. destruct Hor; congruence.
  - destruct (assoc_find ct (casted_ v)) as [q|] eqn:Hfind.
    + injection H as <- <-. split.
      * unfold Var_cast. rewrite (deref_lookup _ _ _ Hv). cbn [mbind result_bind].
        by rewrite Hb, Hfind.
      * intros v' Hv' Hnone. simplify_eq.
    + apply bind_Ok in H as (node & Hn & H).
      cbn [alloc mret result_ret] in H. injection H as <- <-.
      set (f := λ v0, with_casted (assoc_emplace ct (length vars) (casted_ v0)) v0).
      assert (Ht : update (vars ++ [node]) this f !! this = Some (f v)).
      { apply update_lookup_eq. by apply lookup_alloc_old. }
      split.
      * unfold Var_cast. rewrite (deref_lookup _ _ _ Ht). cbn [mbind result_bind].
        cbn [f is_signed_ with_casted casted_]. rewrite Hb.
        by rewrite assoc_find_emplace.
      * intros v' Hv' _ _. simplify_eq. split; [done|].
        exists node. split.
        { rewrite update_lookup_ne by lia. apply lookup_alloc_new. }
        by eapply VarCasted_ctor_shape.
Qed.

(** [Var::extend] is memoized per target width: a call that returned a node
    returns the same node when repeated, and the repeated call changes
    nothing. *)
Theorem Var_extend_memo (vars : list Var) (gens : list Generator.t) (this : nat) (w : Z)
    (vars1 : list Var) (p : nat) :
  Var_extend is_valid_variable_name const_gen vars gens this w = Ok (vars1, p) →
  Var_extend is_valid_variable_name const_gen vars1 gens this w = Ok (vars1, p).
Proof.
  intros H. unfold Var_extend in H.
  apply bind_Ok in H as (v & Hv & H). apply deref_Ok in Hv.
  destruct (assoc_find w (extended_ v)) as [q|] eqn:Hfind.
  - injection H as <- <-.
    unfold Var_extend. rewrite (deref_lookup _ _ _ Hv). cbn [mbind result_bind].
    by rewrite Hfind.
  - apply bind_Ok in H as (node & Hn & H).
    cbn [alloc mret result_ret] in H. injection H as <- <-.
    set (f := λ v0, with_extended (assoc_emplace w (length vars) (extended_ v0)) v0).
    assert (Ht : update (vars ++ [node]) this f !! this = Some (f v)).
    { apply update_lookup_eq. by apply lookup_alloc_old. }
    unfold Var_extend. rewrite (deref_lookup _ _ _ Ht). cbn [mbind result_bind].
    cbn [f with_extended extended_]. by rewrite assoc_find_emplace.
Qed.

(** [VarExtend::VarExtend], reached through [Var::extend] on a cache miss:
    a target width below the signal's width is refused; so is, after that,
    an array or a packed signal that is not a constant; otherwise the
    extension node has the target width and the signal's signedness. *)
Theorem Var_extend_checks (vars : list Var) (gens : list Generator.t) (this : nat)
    (v : Var) (w : Z) :
  vars !! this = Some v → generator v ≠ None →
  assoc_find w (extended_ v) = None →
  (w < width v →
   Var_extend is_valid_variable_name const_gen vars gens this w =
     Throw (VarException "Cannot extend {0} (width={1}) to {2}" [this]))
  ∧ (∀ d rest, width v ≤ w → size_ v = d :: rest →
       rest ≠ [] ∨ 1 < d ∨ (is_packed_ v = true ∧ type_ v ≠ ConstValue) →
       Var_extend is_valid_variable_name const_gen vars gens this w =
         Throw (VarException "Cannot extend an array ({0})" [this]))
  ∧ (width v ≤ w → size_ v = [1] → is_packed_ v = false ∨ type_ v = ConstValue →
     ∃ node,
       Var_extend is_valid_variable_name const_gen vars gens this w =
         Ok (update (vars ++ [node]) this
               (λ v0, with_extended (assoc_emplace w (length vars) (extended_ v0)) v0),
             length vars)
       ∧ cls node = CExpr {| Expr.op := Extend; Expr.left := this; Expr.right := None |}
                      (VarExtend this)
       ∧ type_ node = Expression ∧ var_width_ node = w ∧ width node = u32 w
       ∧ is_signed_ node = is_signed_ v ∧ generator node = generator v).
Proof.
  intros Hv Hg Hfind. unfold Var_extend.
  rewrite (deref_lookup _ _ _ Hv). cbn [mbind result_bind]. rewrite Hfind.
  unfold VarExtend_ctor, Expr_ctor.
  rewrite !(deref_lookup _ _ _ Hv). cbn [deref_opt mbind result_bind mret result_ret].
  rewrite Var_ctor_Ok by done. cbn [mbind result_bind mret result_ret Expr_set_parent].
  split_and!.
  - intros Hw. by rewrite bool_decide_eq_true_2.
  - intros d rest Hw Hsz Hor. rewrite bool_decide_eq_false_2 by lia.
    rewrite Hsz. cbn [mbind result_bind].
    rewrite bool_decide_eq_true_2; [done|].
    destruct Hor as [Hr|[Hd|Hp]]; [left|right; by left|right; by right].
    destruct rest; [done|]. cbn. lia.
  - intros Hw Hsz Hp. rewrite bool_decide_eq_false_2 by lia.
    rewrite Hsz. cbn [mbind result_bind].
    rewrite bool_decide_eq_false_2.
    2:{ intros [H|[H|[H1 H2]]]; [cbn in H; lia|lia|]. destruct Hp; congruence. }
    cbn [alloc]. eexists. split; [reflexivity|].
    split_and!; try done. rewrite width_scalar by (cbn; done). done.
Qed.


End Views.

Section Expressions.

Lemma replace_first_absent target item l :
  target ∉ l → replace_first target item l = l.
Proof.
  induction l as [|x l IH]; intros H; [done|]. cbn.
  apply not_elem_of_cons in H as [Hx Hl].
  rewrite bool_decide_eq_false_2 by done. by rewrite IH.
Qed.

Lemma replace_first_split target item l1 l2 :
  target ∉ l1 → replace_first target item (l1 ++ target :: l2) = l1 ++ item :: l2.
Proof.
  induction l1 as [|x l1 IH]; intros H; cbn.
  - by rewrite bool_decide_eq_true_2.
  - apply not_elem_of_cons in H as [Hx Hl].
    rewrite bool_decide_eq_false_2 by done. by rewrite IH.
Qed.

(** [VarConcat::replace_var] replaces the first occurrence of the target in
    the member list and nothing else: a member list without the target is
    left as it is, and occurrences after the first one stay. *)
Theorem VarConcat_replace_var_first (v : Var) (e : Expr.t) (vs : list nat)
    (target item : nat) :
  cls v = CExpr e (VarConcat vs) →
  (target ∉ vs → VarConcat_replace_var target item v = v)
  ∧ (∀ l1 l2, vs = l1 ++ target :: l2 → target ∉ l1 →
       cls (VarConcat_replace_var target item v) = CExpr e (VarConcat (l1 ++ item :: l2))
       ∧ (∀ x, x ∈ l2 → x ∈ l1 ++ item :: l2)).
Proof.
  intros Hc. unfold VarConcat_replace_var. rewrite Hc. split.
  - intros H. rewrite replace_first_absent by done. destruct v; cbn in *. by subst.
  - intros l1 l2 -> H. rewrite replace_first_split by done. split; [done|].
    intros x Hx. apply elem_of_app. right. by right.
Qed.

Lemma sink_reg_ex_weaken stmt (L1 L2 : nat → Prop) a (r : result (list Var)) :
  (∃ b, r = Ok b ∧ sink_reg stmt L1 a b) → (∀ q, L1 q ↔ L2 q) →
  ∃ b, r = Ok b ∧ sink_reg stmt L2 a b.
Proof.
  intros (b & -> & H) HL. exists b. split; [done|].
  split; [apply H|]. intros q v Hq. destruct H as [_ H].
  destruct (H q v Hq) as (v1 & ? & ? & ? & Hin & Hout).
  exists v1. split_and!; try done.
  - intros HL2. apply Hin. by apply HL.
  - intros HL2. apply Hout. intros ?. apply HL2. by apply HL.
Qed.

Lemma bind_ret_r {A} (m : result A) : (m ≫= λ x, Ok x) = m.
Proof. by destruct m. Qed.

Lemma add_sink_operands stmts gens vars w v ops stmt n :
  vars !! w = Some v → operands v = Some ops →
  add_sink (S n) stmts gens vars w stmt =
    foldM (λ vars' x, add_sink n stmts gens vars' x stmt) ops vars.
Proof.
  intros Hw Hops. cbn [add_sink]. rewrite (deref_lookup _ _ _ Hw).
  cbn [mbind result_bind]. unfold operands in Hops.
  destruct (cls v) as [|t|value sub|e [|c|vs|q]|sl sub|q ct]; try done.
  - injection Hops as <-. destruct (Expr.right e) as [r|]; cbn [foldM].
    + destruct (add_sink n stmts gens vars (Expr.left e) stmt) as [x| |];
        cbn [mbind result_bind]; [|done..]. by rewrite bind_ret_r.
    + by rewrite bind_ret_r.
  - destruct (Expr.right e) as [r|]; [|done]. injection Hops as <-. cbn [foldM].
    destruct (add_sink n stmts gens vars c stmt) as [x| |];
      cbn [mbind result_bind]; [|done..].
    destruct (add_sink n stmts gens x (Expr.left e) stmt) as [y| |];
      cbn [mbind result_bind]; [|done..]. by rewrite bind_ret_r.
  - by injection Hops as <-.
Qed.

Lemma sink_reg_refl stmt vars : sink_reg stmt (λ _, False) vars vars.
Proof. split; [done|]. intros q v Hq. exists v. split_and!; done. Qed.

Lemma sink_reg_trans stmt L1 L2 a b c :
  sink_reg stmt L1 a b → sink_reg stmt L2 b c →
  sink_reg stmt (λ q, L1 q ∨ L2 q) a c.
Proof.
  intros [N1 S1] [N2 S2]. split; [auto|].
  intros q v Hq. destruct (S1 q v Hq) as (v1 & Hq1 & Hc1 & Hs1 & Hin1 & Hout1).
  destruct (S2 q v1 Hq1) as (v2 & Hq2 & Hc2 & Hs2 & Hin2 & Hout2).
  exists v2. split_and!; [done|congruence|set_solver| |].
  - intros [HL|HL]; [apply Hs2; auto|auto].
  - intros HL. rewrite Hout2, Hout1 by tauto. done.
Qed.

Lemma sink_reg_weaken stmt (L1 L2 : nat → Prop) a b :
  (∀ q, L1 q ↔ L2 q) → sink_reg stmt L1 a b → sink_reg stmt L2 a b.
Proof.
  intros HL [N1 S1]. split; [done|].
  intros q v Hq. destruct (S1 q v Hq) as (v1 & ? & ? & ? & Hin & Hout).
  exists v1. split_and!; try done.
  - intros HL2. apply Hin. by apply HL.
  - intros HL2. apply Hout. intros ?. apply HL2. by apply HL.
Qed.

Lemma sink_reg_cls stmt L a b q :
  sink_reg stmt L a b → cls <$> b !! q = cls <$> a !! q.
Proof.
  intros [N1 S1]. destruct (a !! q) as [v|] eqn:Hq.
  - destruct (S1 q v Hq) as (v1 & -> & Hc & _). cbn. by rewrite Hc.
  - by rewrite (N1 q Hq).
Qed.

Lemma plain_signal_operands v : plain_signal v → operands v = None.
Proof. unfold operands. by intros [->|[t ->]]. Qed.

Lemma operands_cls v v' : cls v' = cls v → operands v' = operands v.
Proof. unfold operands. by intros ->. Qed.

Lemma lookup_cls_eq (a b : list Var) q v :
  (∀ q, cls <$> b !! q = cls <$> a !! q) → a !! q = Some v →
  ∃ v', b !! q = Some v' ∧ cls v' = cls v.
Proof.
  intros H Hq. specialize (H q). rewrite Hq in H.
  destruct (b !! q) as [v'|]; [|done]. injection H as H. eauto.
Qed.

Lemma operand_tree_cls a b w d :
  (∀ q, cls <$> b !! q = cls <$> a !! q) →
  operand_tree a w d → operand_tree b w d.
Proof.
  intros H. induction 1 as [r v d Hr Hp|w v ops d Hw Hops _ IH].
  - destruct (lookup_cls_eq a b r v H Hr) as (v' & Hr' & Hc).
    eapply operand_tree_leaf; [done|]. by eapply plain_signal_cls.
  - destruct (lookup_cls_eq a b w v H Hw) as (v' & Hw' & Hc).
    eapply operand_tree_node; [done| |done]. by rewrite (operands_cls _ _ Hc).
Qed.

Lemma leaf_of_cls a b w r :
  (∀ q, cls <$> b !! q = cls <$> a !! q) →
  leaf_of a w r → leaf_of b w r.
Proof.
  intros H. induction 1 as [r v Hr Hp|w v ops x r Hw Hops Hx _ IH].
  - destruct (lookup_cls_eq a b r v H Hr) as (v' & Hr' & Hc).
    eapply leaf_of_self; [done|]. by eapply plain_signal_cls.
  - destruct (lookup_cls_eq a b w v H Hw) as (v' & Hw' & Hc).
    eapply leaf_of_step; [done| |done..]. by rewrite (operands_cls _ _ Hc).
Qed.

Lemma leaf_of_plain vars r q v :
  vars !! r = Some v → plain_signal v → leaf_of vars r q ↔ q = r.
Proof.
  intros Hr Hp. split.
  - inversion 1 as [|? v' ops ? ? Hr' Hops]; [done|]. simplify_eq.
    by rewrite plain_signal_operands in Hops.
  - intros ->. by eapply leaf_of_self.
Qed.

Lemma leaf_of_node vars w v ops q :
  vars !! w = Some v → operands v = Some ops →
  leaf_of vars w q ↔ ∃ x, x ∈ ops ∧ leaf_of vars x q.
Proof.
  intros Hw Hops. split.
  - inversion 1 as [? v' Hr Hp|? v' ops' x ? Hw' Hops' Hx Hl]; simplify_eq.
    + by rewrite plain_signal_operands in Hops.
    + eauto.
  - intros (x & Hx & Hl). by eapply leaf_of_step.
Qed.

Lemma add_sink_tree stmts gens stmt d :
  ∀ vars w fuel, operand_tree vars w d → (d ≤ fuel)%nat →
    ∃ vars', add_sink fuel stmts gens vars w stmt = Ok vars'
      ∧ sink_reg stmt (leaf_of vars w) vars vars'.
Proof.
  induction d as [|d IH]; intros vars w fuel Ht Hf; [inversion Ht|].
  destruct fuel as [|n]; [lia|].
  inversion Ht as [r v d' Hr Hp|w' v ops d' Hw Hops Hall]; simplify_eq.
  - exists (update vars w (Var_add_sink stmt)). split.
    { cbn [add_sink]. rewrite (deref_lookup _ _ _ Hr). cbn [mbind result_bind].
      by destruct Hp as [->|[t ->]]. }
    eapply sink_reg_weaken.
    { intros q. symmetry. by apply leaf_of_plain with v. }
    split.
    + intros q Hq. destruct (decide (w = q)) as [->|Hne]; [congruence|].
      by rewrite update_lookup_ne.
    + intros q x Hq. destruct (decide (w = q)) as [->|Hne].
      * assert (x = v) as -> by congruence. exists (Var_add_sink stmt v).
        split; [by apply update_lookup_eq|].
        split_and!; [done|cbn; apply union_subseteq_r|intros _; cbn; apply elem_of_add|done].
      * exists x. rewrite update_lookup_ne by done. split_and!; done.
  - rewrite (add_sink_operands _ _ _ _ _ _ _ _ Hw Hops).
    eapply sink_reg_ex_weaken; [|intros q; symmetry; by apply leaf_of_node with v].
    clear Hw Hops Ht v. revert vars Hall.
    induction ops as [|x ops IHops]; intros vars Hall.
    + exists vars. split; [done|]. eapply sink_reg_weaken; [|apply sink_reg_refl].
      intros q. split; [done|]. intros (x & Hx & _). by apply elem_of_nil in Hx.
    + cbn [foldM].
      destruct (IH vars x n) as (vars1 & H1 & R1); [apply Hall; by left|lia|].
      rewrite H1. cbn [mbind result_bind].
      assert (Hcls : ∀ q, cls <$> vars1 !! q = cls <$> vars !! q).
      { intros q. by eapply sink_reg_cls. }
      destruct (IHops vars1) as (vars2 & H2 & R2).
      { intros y Hy. eapply operand_tree_cls; [exact Hcls|]. apply Hall. by right. }
      exists vars2. split; [done|].
      eapply sink_reg_weaken; [|eapply sink_reg_trans; [exact R1|exact R2]].
      intros q. split.
      * intros [H|(y & Hy & H)].
        -- exists x. split; [by left|done].
        -- exists y. split; [by right|]. eapply leaf_of_cls; [|exact H].
           intros q'. symmetry. apply Hcls.
      * intros (y & Hy & H). apply elem_of_cons in Hy as [->|Hy]; [by left|].
        right. exists y. split; [done|]. by eapply leaf_of_cls.
Qed.

Lemma leaf_of_target vars w r :
  leaf_of vars w r → ∃ v, vars !! r = Some v ∧ plain_signal v.
Proof. induction 1; eauto. Qed.

(** [Expr::add_sink], [ConditionalExpr::add_sink] and [VarConcat::add_sink]
    only forward the notification to their operands: when the operands of a
    node form a tree of operator, conditional and concatenation nodes over
    plain signals, [add_sink] returns, and it changes nothing but the plain
    signals at the leaves of the tree.  In particular no operator,
    conditional or concatenation node records the statement itself. *)
Theorem add_sink_touches_leaves_only (stmts : list AssignStmt.t) (gens : list Generator.t)
    (vars : list Var) (w d fuel stmt : nat) :
  operand_tree vars w d → (d ≤ fuel)%nat →
  ∃ vars', add_sink fuel stmts gens vars w stmt = Ok vars'
    ∧ (∀ q v, vars !! q = Some v → ¬ leaf_of vars w q → vars' !! q = Some v)
    ∧ (∀ q v, vars !! q = Some v → ¬ plain_signal v → vars' !! q = Some v).
Proof.
  intros Ht Hf. destruct (add_sink_tree stmts gens stmt d vars w fuel Ht Hf)
    as (vars' & H & N & R).
  assert (Hkeep : ∀ q v, vars !! q = Some v → ¬ leaf_of vars w q → vars' !! q = Some v).
  { intros q v Hq Hn. destruct (R q v Hq) as (v' & Hq' & _ & _ & _ & Hout).
    by rewrite <-(Hout Hn). }
  exists vars'. split; [done|]. split; [done|].
  intros q v Hq Hn. apply Hkeep; [done|].
  intros Hl. destruct (leaf_of_target _ _ _ Hl) as (v' & Hq' & Hp).
  apply Hn. congruence.
Qed.

End Expressions.

Section Concatenation.
Variable is_valid_variable_name : string → bool.
Variable const_gen : option nat.
Hypothesis empty_name_valid : is_valid_variable_name "" = true.

Lemma u32_add_l a b : u32 (u32 a + b) = u32 (a + b).
Proof. unfold u32. apply Zplus_mod_idemp_l. Qed.

Lemma members_width_app vars l1 l2 :
  members_width vars (l1 ++ l2) = members_width vars l1 + members_width vars l2.
Proof.
  induction l1 as [|x l1 IH]; cbn; [done|].
  fold (members_width vars (l1 ++ l2)). fold (members_width vars l1).
  destruct (vars !! x); lia.
Qed.

Lemma members_width_snoc vars l x m :
  vars !! x = Some m → members_width vars (l ++ [x]) = members_width vars l + width m.
Proof. intros H. rewrite members_width_app. cbn. rewrite H. lia. Qed.

Lemma Expr_ctor2_shape vars gens left right e l :
  vars !! left = Some l →
  Expr_ctor2 is_valid_variable_name const_gen vars gens left right = Ok e →
  size_ e = size_ l.
Proof.
  intros Hl. unfold Expr_ctor2, Var_ctor. rewrite (deref_lookup _ _ _ Hl).
  cbn [mbind result_bind]. intros H.
  apply bind_Ok in H as (r & _ & H). apply bind_Ok in H as (base & Hb & H).
  apply bind_Ok in H as (g & _ & H). injection H as <-. done.
Qed.

Lemma VarConcat_ctor_width vars gens first second node f s :
  vars !! first = Some f → vars !! second = Some s →
  VarConcat_ctor is_valid_variable_name const_gen vars gens first second = Ok node →
  size_ node = size_ f ∧ var_width_ node = u32 (width f + width s).
Proof.
  intros Hf Hs. unfold VarConcat_ctor. intros H.
  apply bind_Ok in H as (e & He & H).
  rewrite (deref_lookup _ _ _ Hf), (deref_lookup _ _ _ Hs) in H.
  cbn [mbind result_bind] in H. case_bool_decide; [done|]. injection H as <-.
  split; [|done]. cbn. by eapply Expr_ctor2_shape.
Qed.

Lemma VarConcat_ctor_chain_shape vars gens first second node f s e vs :
  vars !! first = Some f → vars !! second = Some s →
  cls f = CExpr e (VarConcat vs) →
  VarConcat_ctor_chain is_valid_variable_name const_gen vars gens first second = Ok node →
  size_ node = size_ f ∧ var_width_ node = u32 (width f + width s)
  ∧ cls node = CExpr (concat_fields first second) (VarConcat (vs ++ [second])).
Proof.
  intros Hf Hs Hc. unfold VarConcat_ctor_chain. intros H.
  apply bind_Ok in H as (x & He & H).
  rewrite (deref_lookup _ _ _ Hf), (deref_lookup _ _ _ Hs) in H.
  cbn [mbind result_bind] in H. unfold as_VarConcat in H. rewrite Hc in H.
  cbn [mbind result_bind] in H. case_bool_decide; [done|]. injection H as <-.
  split_and!; [|done..]. cbn. by eapply Expr_ctor2_shape.
Qed.

(** Concatenating onto a receiver that is not an array (its dimension list
    is [[1]]).  The width of the concatenation is the sum of the total widths
    of its members, reduced modulo 2^32, and the members are listed in the
    order in which they were concatenated: a node made from two signals lists
    the two and has the sum of their widths; appending a signal to a
    concatenation whose width is the sum of its members' widths yields a node
    with the extended member list and, again, the sum as its width. *)
Theorem concat_width_sum (vars : list Var) (gens : list Generator.t) (this var : nat)
    (v s : Var) (vars1 : list Var) (p : nat) :
  vars !! this = Some v → vars !! var = Some s → size_ v = [1] →
  concat is_valid_variable_name const_gen vars gens this var = Ok (vars1, p) →
  ((∀ e vs, cls v ≠ CExpr e (VarConcat vs)) →
   find_concat vars var (concat_vars_ v) = Ok None →
   ∃ node e, vars1 !! p = Some node
     ∧ cls node = CExpr e (VarConcat [this; var]) ∧ size_ node = [1]
     ∧ width node = u32 (members_width vars [this; var]))
  ∧ (∀ e vs, cls v = CExpr e (VarConcat vs) →
       width v = u32 (members_width vars vs) →
       ∃ node e', vars1 !! p = Some node
         ∧ cls node = CExpr e' (VarConcat (vs ++ [var])) ∧ size_ node = [1]
         ∧ width node = u32 (members_width vars (vs ++ [var]))).
Proof.
  intros Hv Hs Hsz H. unfold concat in H.
  rewrite (deref_lookup _ _ _ Hv) in H. cbn [mbind result_bind] in H.
  assert (Hlt : (this < length vars)%nat) by by eapply lookup_lt_Some.
  split.
  - intros Hnc Hfind.
    assert (H' : Var_concat is_valid_variable_name const_gen vars gens this var
                 = Ok (vars1, p)).
    { destruct (cls v) as [|t|value sub|e [|c|vs|q]|sl sub|q ct]; try done.
      by destruct (Hnc e vs). }
    clear H. unfold Var_concat in H'.
    rewrite (deref_lookup _ _ _ Hv) in H'. cbn [mbind result_bind] in H'.
    rewrite Hfind in H'. cbn [mbind result_bind] in H'.
    apply bind_Ok in H' as (node & Hn & H'). cbn [alloc mret result_ret] in H'.
    injection H' as <- <-.
    pose proof (VarConcat_ctor_cls _ _ _ _ _ _ _ Hn) as Hc.
    destruct (VarConcat_ctor_width _ _ _ _ _ _ _ Hv Hs Hn) as [Hsn Hwn].
    exists node, (concat_fields this var). split.
    { rewrite update_lookup_ne by lia. apply lookup_alloc_new. }
    split; [exact Hc|]. split; [congruence|].
    rewrite width_scalar by congruence. rewrite Hwn, u32_idemp.
    cbn. rewrite Hv, Hs. f_equal. lia.
  - intros e vs Hc Hw. rewrite Hc in H. unfold VarConcat_concat in H.
    rewrite (deref_lookup _ _ _ Hv) in H. cbn [mbind result_bind] in H.
    unfold as_VarConcat in H. rewrite Hc in H. cbn [mbind result_bind] in H.
    apply bind_Ok in H as (node & Hn & H). cbn [alloc] in H.
    destruct vs as [|first vs']; [done|].
    apply bind_Ok in H as (? & Hfirst & H). cbn [mret result_ret] in H.
    injection H as <- <-. apply deref_Ok in Hfirst.
    destruct (VarConcat_ctor_chain_shape _ _ _ _ _ _ _ _ _ Hv Hs Hc Hn)
      as (Hsn & Hwn & Hcn).
    destruct (update_lookup_Some (vars ++ [node]) first
                (concat_vars_emplace (length vars)) (length vars) node)
      as (node' & Hn' & Hor); [apply lookup_alloc_new|].
    assert (Hsame : cls node' = cls node ∧ size_ node' = size_ node
                    ∧ var_width_ node' = var_width_ node).
    { destruct Hor as [->| ->]; [done|]. unfold concat_vars_emplace.
      by case_bool_decide. }
    destruct Hsame as (Hc' & Hs' & Hw').
    exists node', (concat_fields this var). split; [done|].
    split; [congruence|]. split; [congruence|].
    rewrite width_scalar by congruence. rewrite Hw', Hwn, u32_idemp.
    rewrite (members_width_snoc _ _ _ _ Hs). by rewrite Hw, u32_add_l.
Qed.

End Concatenation.

Section PackedStructs.

Lemma member_names_fold attrs (acc : gset string) n :
  n ∈ fold_left (λ result (def : string * Z * bool), {[fst (fst def)]} ∪ result) attrs acc
  ↔ n ∈ acc ∨ n ∈ attrs.*1.*1.
Proof.
  revert acc. induction attrs as [|[[m w] sg] attrs IH]; intros acc; cbn.
  - split; [by left|]. intros [?|H]; [done|]. by apply elem_of_nil in H.
  - rewrite IH. rewrite elem_of_union, elem_of_singleton, elem_of_cons. tauto.
Qed.

Lemma member_names_spec struct_ n :
  n ∈ VarPackedStruct_member_names struct_ ↔ n ∈ (PackedStruct.attributes struct_).*1.*1.
Proof.
  unfold VarPackedStruct_member_names. rewrite member_names_fold.
  split; [intros [H|H]; [by apply elem_of_empty in H|done]|by right].
Qed.

Lemma set_up_loop_absent attrs n lo :
  n ∉ attrs.*1.*1 → set_up_loop attrs n lo = None.
Proof.
  revert lo. induction attrs as [|[[m w] sg] attrs IH]; intros lo H; [done|].
  cbn in *. apply not_elem_of_cons in H as [Hm Ha].
  rewrite bool_decide_eq_false_2 by done. by apply IH.
Qed.

Lemma set_up_loop_present attrs n lo :
  n ∈ attrs.*1.*1 → is_Some (set_up_loop attrs n lo).
Proof.
  revert lo. induction attrs as [|[[m w] sg] attrs IH]; intros lo H.
  - by apply elem_of_nil in H.
  - cbn in *. case_bool_decide; [by eexists|].
    apply elem_of_cons in H as [->|H]; [done|]. by apply IH.
Qed.

Lemma fields_width_app l1 l2 :
  fields_width (l1 ++ l2) = fields_width l1 + fields_width l2.
Proof.
  induction l1 as [|d l1 IH]; cbn; [done|].
  fold (fields_width (l1 ++ l2)). fold (fields_width l1). lia.
Qed.

Lemma fields_width_nonneg attrs :
  (∀ d, d ∈ attrs → 1 ≤ snd (fst d)) → 0 ≤ fields_width attrs.
Proof.
  induction attrs as [|d attrs IH]; intros H; cbn; [done|].
  fold (fields_width attrs).
  assert (1 ≤ snd (fst d)) by (apply H; by left).
  assert (0 ≤ fields_width attrs) by (apply IH; intros; apply H; by right). lia.
Qed.

Lemma set_up_loop_split l1 n w sg l2 lo :
  n ∉ l1.*1.*1 → (∀ d, d ∈ l1 → 1 ≤ snd (fst d)) → 1 ≤ w →
  0 ≤ lo → lo + fields_width l1 + w ≤ 2 ^ 32 →
  set_up_loop (l1 ++ (n, w, sg) :: l2) n lo
  = Some (lo + fields_width l1 + w - 1, lo + fields_width l1, sg).
Proof.
  revert lo. induction l1 as [|[[m w'] sg'] l1 IH]; intros lo Hn Hw1 Hw Hlo Hsum.
  - cbn in *. rewrite bool_decide_eq_true_2 by done.
    rewrite u32_small by lia. do 3 f_equal; lia.
  - cbn in *. fold (fields_width l1) in *.
    apply not_elem_of_cons in Hn as [Hm Hn].
    rewrite bool_decide_eq_false_2 by done.
    assert (1 ≤ w') by (apply (Hw1 (m, w', sg')); by left).
    assert (0 ≤ fields_width l1).
    { apply fields_width_nonneg. intros; apply Hw1; by right. }
    rewrite u32_small by lia. rewrite IH; [|done| |done|lia|lia].
    + do 3 f_equal; lia.
    + intros; apply Hw1; by right.
Qed.

Lemma set_up_loop_range attrs n lo h l sg :
  (∀ d, d ∈ attrs → 1 ≤ snd (fst d)) → 0 ≤ lo → lo + fields_width attrs < 2 ^ 32 →
  set_up_loop attrs n lo = Some (h, l, sg) →
  lo ≤ l ∧ l ≤ h ∧ h < lo + fields_width attrs.
Proof.
  revert lo. induction attrs as [|[[m w] sg'] attrs IH]; intros lo Hw Hlo Hsum H; [done|].
  cbn in *. fold (fields_width attrs) in *.
  assert (1 ≤ w) by (apply (Hw (m, w, sg')); by left).
  assert (0 ≤ fields_width attrs).
  { apply fields_width_nonneg. intros; apply Hw; by right. }
  case_bool_decide.
  - injection H as <- <- <-. rewrite u32_small by lia. lia.
  - rewrite u32_small in H by lia. apply IH in H; [lia| |lia|lia].
    intros; apply Hw; by right.
Qed.

Lemma set_up_loop_disjoint attrs n1 n2 lo h1 l1 s1 h2 l2 s2 :
  (∀ d, d ∈ attrs → 1 ≤ snd (fst d)) → 0 ≤ lo → lo + fields_width attrs < 2 ^ 32 →
  n1 ≠ n2 →
  set_up_loop attrs n1 lo = Some (h1, l1, s1) →
  set_up_loop attrs n2 lo = Some (h2, l2, s2) →
  h1 < l2 ∨ h2 < l1.
Proof.
  revert lo. induction attrs as [|[[m w] sg'] attrs IH];
    intros lo Hw Hlo Hsum Hne H1 H2; [done|].
  cbn in *. fold (fields_width attrs) in *.
  assert (1 ≤ w) by (apply (Hw (m, w, sg')); by left).
  assert (0 ≤ fields_width attrs).
  { apply fields_width_nonneg. intros; apply Hw; by right. }
  assert (Hw' : ∀ d, d ∈ attrs → 1 ≤ snd (fst d)) by (intros; apply Hw; by right).
  rewrite (u32_small (lo + w)) in H1, H2 by lia.
  destruct (decide (m = n1)) as [Hm1|Hm1], (decide (m = n2)) as [Hm2|Hm2];
    [congruence|..].
  - rewrite bool_decide_eq_true_2 in H1 by done.
    rewrite bool_decide_eq_false_2 in H2 by done.
    injection H1 as <- <- <-. apply set_up_loop_range in H2; [|done|lia|lia].
    rewrite u32_small by lia. left. lia.
  - rewrite bool_decide_eq_false_2 in H1 by done.
    rewrite bool_decide_eq_true_2 in H2 by done.
    injection H2 as <- <- <-. apply set_up_loop_range in H1; [|done|lia|lia].
    rewrite u32_small by lia. right. lia.
  - rewrite bool_decide_eq_false_2 in H1, H2 by done.
    eapply (IH (lo + w)); [done|lia|lia|done..].
Qed.

Lemma VarPackedStruct_width_sum attrs w0 :
  (∀ d, d ∈ attrs → 1 ≤ snd (fst d)) → 0 ≤ w0 → w0 + fields_width attrs < 2 ^ 32 →
  fold_left (λ width (def : string * Z * bool), u32 (width + snd (fst def))) attrs w0
  = w0 + fields_width attrs.
Proof.
  revert w0. induction attrs as [|d attrs IH]; intros w0 Hw H0 Hsum; cbn in *.
  - lia.
  - fold (fields_width attrs) in *.
    assert (1 ≤ snd (fst d)) by (apply Hw; by left).
    assert (0 ≤ fields_width attrs).
    { apply fields_width_nonneg. intros; apply Hw; by right. }
    rewrite u32_small by lia. rewrite IH; [lia| |lia|lia].
    intros; apply Hw; by right.
Qed.

(** [PackedSlice::set_up] resolves exactly the names that
    [VarPackedStruct::member_names] reports: any other name is refused with
    an [InternalException].  The field found is the first one of that name
    in the table; its low offset is the sum of the widths of the fields
    before it, and its high offset is the low offset plus its width minus 1. *)
Theorem PackedSlice_set_up_layout (struct_ : PackedStruct.t) (member_name : string) :
  (member_name ∉ VarPackedStruct_member_names struct_ →
   PackedSlice_set_up struct_ member_name =
     Throw (InternalException "{0} does not exist in {1}"))
  ∧ (member_name ∈ VarPackedStruct_member_names struct_ →
     succeeds (PackedSlice_set_up struct_ member_name))
  ∧ (∀ l1 w sg l2,
       PackedStruct.attributes struct_ = l1 ++ (member_name, w, sg) :: l2 →
       member_name ∉ l1.*1.*1 → (∀ d, d ∈ l1 → 1 ≤ snd (fst d)) → 1 ≤ w →
       fields_width l1 + w ≤ 2 ^ 32 →
       PackedSlice_set_up struct_ member_name =
         Ok (fields_width l1 + w - 1, fields_width l1, sg)).
Proof.
  unfold PackedSlice_set_up. split_and!.
  - intros H. rewrite member_names_spec in H. by rewrite set_up_loop_absent.
  - intros H. rewrite member_names_spec in H.
    destruct (set_up_loop_present _ _ 0 H) as [r ->]. by eexists.
  - intros l1 w sg l2 -> Hn Hw1 Hw Hsum.
    rewrite set_up_loop_split by (try done; lia). do 3 f_equal; lia.
Qed.

(** In a structure whose fields have positive widths that add up to less
    than 2^32, the width computed by [VarPackedStruct::VarPackedStruct] is
    the sum of the field widths, every member resolved by
    [PackedSlice::set_up] lies inside the structure, and two members with
    different names occupy disjoint bit ranges. *)
Theorem packed_members_disjoint (struct_ : PackedStruct.t) (n1 n2 : string)
    (h1 l1 : Z) (s1 : bool) (h2 l2 : Z) (s2 : bool) :
  (∀ d, d ∈ PackedStruct.attributes struct_ → 1 ≤ snd (fst d)) →
  fields_width (PackedStruct.attributes struct_) < 2 ^ 32 →
  PackedSlice_set_up struct_ n1 = Ok (h1, l1, s1) →
  PackedSlice_set_up struct_ n2 = Ok (h2, l2, s2) →
  VarPackedStruct_width struct_ = fields_width (PackedStruct.attributes struct_)
  ∧ 0 ≤ l1 ∧ l1 ≤ h1 ∧ h1 < VarPackedStruct_width struct_
  ∧ (n1 ≠ n2 → h1 < l2 ∨ h2 < l1).
Proof.
  intros Hw Hsum H1 H2. unfold PackedSlice_set_up, VarPackedStruct_width in *.
  destruct (set_up_loop _ n1 0) as [[[a b] c]|] eqn:E1; [|done].
  destruct (set_up_loop _ n2 0) as [[[a' b'] c']|] eqn:E2; [|done].
  simplify_eq. rewrite VarPackedStruct_width_sum by (try done; lia).
  pose proof (set_up_loop_range _ _ _ _ _ _ Hw (Z.le_refl 0) ltac:(lia) E1).
  split_and!; try lia.
  intros Hne. eapply set_up_loop_disjoint; [exact Hw| | |exact Hne|exact E1|exact E2]; lia.
Qed.

End PackedStructs.

Section EnumProperties.
Variable is_valid_variable_name : string → bool.

Lemma s64_small v : - 2 ^ 63 ≤ v < 2 ^ 63 → s64 v = v.
Proof. intros H. unfold s64. rewrite Z.mod_small by lia. lia. Qed.

(** The constant that [Enum::Enum] makes for the value [v]. *)
Lemma EnumConst_ctor_Ok g v w nm :
  0 ≤ w < 64 → 0 ≤ v < 2 ^ w → is_valid_variable_name (pretty v) = true →
  ∃ c, EnumConst_ctor is_valid_variable_name g (s64 v) w nm = Ok c
    ∧ cls c = CConst v (EnumConst nm) ∧ var_width_ c = w ∧ size_ c = [1]
    ∧ is_signed_ c = false ∧ type_ c = ConstValue ∧ generator c = g.
Proof.
  intros Hw Hv Hn.
  assert (2 ^ w ≤ 2 ^ 63) by (apply Z.pow_le_mono_r; lia).
  rewrite s64_small by lia.
  destruct (Const_ctor_checks is_valid_variable_name g v w false) as [Hin _];
    [lia|lia|cbn; lia|done|].
  unfold EnumConst_ctor. rewrite Hin by (cbn; lia). cbn [mbind result_bind mret result_ret].
  eexists. split; [reflexivity|]. done.
Qed.

Lemma EnumConst_ctor_not_Fault g v w nm :
  0 ≤ w < 64 → EnumConst_ctor is_valid_variable_name g v w nm ≠ Fault.
Proof.
  intros Hw. unfold EnumConst_ctor, Const_ctor, Var_ctor.
  rewrite bool_decide_eq_false_2 by (intros [_ ?]; done).
  destruct (negb _); [done|]. cbn [mbind result_bind].
  pose proof (shift_defined_range v w false) as Hs.
  destruct (Const_range_check v w false) as [[]| |]; [done..|].
  exfalso. apply Hs; [cbn; lia|done].
Qed.

Lemma EnumConst_ctor_Throw g v w nm e :
  EnumConst_ctor is_valid_variable_name g v w nm = Throw e → ∃ msg, e = UserException msg.
Proof.
  unfold EnumConst_ctor, Const_ctor, Var_ctor.
  rewrite bool_decide_eq_false_2 by (intros [_ ?]; done).
  destruct (negb _); [intros [= <-]; by eexists|]. cbn [mbind result_bind].
  unfold Const_range_check.
  repeat case_bool_decide; cbn [mbind result_bind]; intros [= <-]; by eexists.
Qed.

Lemma EnumConst_ctor_unrepresentable g v w nm c :
  0 ≤ w < 64 → 2 ^ w ≤ v < 2 ^ 64 →
  EnumConst_ctor is_valid_variable_name g (s64 v) w nm ≠ Ok c.
Proof.
  intros Hw Hv. unfold EnumConst_ctor, Const_ctor, Var_ctor.
  rewrite bool_decide_eq_false_2 by (intros [_ ?]; done).
  destruct (negb _); [done|]. cbn [mbind result_bind].
  unfold Const_range_check. rewrite bool_decide_eq_false_2 by lia. cbv zeta.
  assert (u64 (s64 v) = v) as ->.
  { unfold u64, s64. rewrite Zminus_mod_idemp_l.
    replace (v + 2 ^ 63 - 2 ^ 63) with v by lia. apply Z.mod_small. lia. }
  rewrite bool_decide_eq_true_2 by lia. done.
Qed.

Lemma Enum_fold_Ok g nm w values :
  0 ≤ w < 64 → NoDup values.*1 →
  (∀ n v, (n, v) ∈ values → 0 ≤ v < 2 ^ w ∧ is_valid_variable_name (pretty v) = true) →
  ∀ vars m, (∀ n, n ∈ values.*1 → m !! n = None) →
    ∃ vars' m', foldM (Enum_step is_valid_variable_name g nm w) values (vars, m) = Ok (vars', m')
      ∧ (∀ q x, vars !! q = Some x → vars' !! q = Some x)
      ∧ (∀ n, n ∉ values.*1 → m' !! n = m !! n)
      ∧ (∀ n v, (n, v) ∈ values →
           ∃ p c, m' !! n = Some p ∧ vars' !! p = Some c
             ∧ cls c = CConst v (EnumConst nm) ∧ var_width_ c = w ∧ size_ c = [1]
             ∧ is_signed_ c = false ∧ type_ c = ConstValue ∧ generator c = g).
Proof.
  intros Hw. induction values as [|[n v] values IH]; intros Hnd Hval vars m Hfresh.
  - exists vars, m. split_and!; try done. intros ?? H. by apply elem_of_nil in H.
  - cbn in Hnd. apply NoDup_cons in Hnd as [Hn Hnd].
    destruct (Hval n v) as [Hv Hname]; [by left|].
    destruct (EnumConst_ctor_Ok g v w nm) as (c & Hc & Hfields); [done..|].
    assert (Hm : m !! n = None) by (apply Hfresh; by left).
    assert (Hstep : Enum_step is_valid_variable_name g nm w (vars, m) (n, v)
                    = Ok (vars ++ [c], <[n := length vars]> m)).
    { unfold Enum_step. cbn [fst snd]. rewrite Hc.
      cbn [mbind result_bind alloc mret result_ret]. unfold map_emplace. by rewrite Hm. }
    destruct (IH Hnd) with (vars := vars ++ [c]) (m := <[n := length vars]> m)
      as (vars' & m' & Hfold & Hold & Hout & Hin).
    { intros n' v' ?. apply (Hval n' v'). by right. }
    { intros n' Hn'. rewrite lookup_insert_ne by (intros ->; done).
      apply Hfresh. by right. }
    exists vars', m'. split.
    { cbn [foldM]. rewrite Hstep. done. }
    split_and!.
    + intros q x Hq. apply Hold. by apply lookup_alloc_old.
    + intros n' Hn'. cbn in Hn'. apply not_elem_of_cons in Hn' as [Hne Hn'].
      rewrite Hout by done. by rewrite lookup_insert_ne.
    + intros n' v' Hin'. apply elem_of_cons in Hin' as [[= -> ->]|Hin']; [|by apply Hin].
      exists (length vars), c. split.
      { rewrite Hout by done. by rewrite lookup_insert_eq. }
      split; [apply Hold, lookup_alloc_new|done].
Qed.

Lemma Enum_fold_bad g nm w values :
  0 ≤ w < 64 →
  (∃ n v, (n, v) ∈ values ∧ 2 ^ w ≤ v < 2 ^ 64) →
  ∀ st, ∃ msg, foldM (Enum_step is_valid_variable_name g nm w) values st = Throw (UserException msg).
Proof.
  intros Hw. induction values as [|[n v] values IH]; intros (n' & v' & Hin & Hbad) st.
  - by apply elem_of_nil in Hin.
  - cbn [foldM].
    destruct (EnumConst_ctor is_valid_variable_name g (s64 v) w nm) as [c|e|] eqn:Hc.
    + assert (Hs : Enum_step is_valid_variable_name g nm w st (n, v)
                   = Ok (fst st ++ [c], map_emplace n (length (fst st)) (snd st))).
      { unfold Enum_step. cbn [fst snd]. by rewrite Hc. }
      rewrite Hs. cbn [mbind result_bind].
      apply elem_of_cons in Hin as [[= -> ->]|Hin].
      * by apply EnumConst_ctor_unrepresentable in Hc.
      * apply IH. eauto.
    + assert (Hs : Enum_step is_valid_variable_name g nm w st (n, v) = Throw e).
      { unfold Enum_step. cbn [fst snd]. by rewrite Hc. }
      rewrite Hs. apply EnumConst_ctor_Throw in Hc as [msg ->]. by exists msg.
    + by apply EnumConst_ctor_not_Fault in Hc.
Qed.

(** [Enum::Enum] and [Enum::get_enum].  When every value fits the
    enumeration's width, construction succeeds, keeps the existing nodes and
    makes one unsigned constant of that width and value for each entry, which
    [get_enum] returns for the entry's name; a name that is not an entry is
    refused with a [UserException].  A value that does not fit the width
    makes the construction fail with a [UserException]. *)
Theorem Enum_ctor_get_enum (vars : list Var) (g : option nat) (nm : string)
    (values : list (string * Z)) (w : Z) :
  0 ≤ w < 64 → NoDup values.*1 →
  ((∀ n v, (n, v) ∈ values → 0 ≤ v < 2 ^ w ∧ is_valid_variable_name (pretty v) = true) →
   ∃ vars' e,
     Enum_ctor is_valid_variable_name vars g nm values w = Ok (vars', e)
     ∧ Enum.name e = nm ∧ Enum.width_ e = w
     ∧ (∀ q x, vars !! q = Some x → vars' !! q = Some x)
     ∧ (∀ n v, (n, v) ∈ values →
          ∃ p c, Enum_get_enum e n = Ok p ∧ vars' !! p = Some c
            ∧ cls c = CConst v (EnumConst nm)
            ∧ var_width_ c = w ∧ size_ c = [1] ∧ is_signed_ c = false
            ∧ type_ c = ConstValue ∧ generator c = g)
     ∧ (∀ n, n ∉ values.*1 →
          Enum_get_enum e n = Throw (UserException "Cannot find {0} in {1}")))
  ∧ ((∃ n v, (n, v) ∈ values ∧ 2 ^ w ≤ v < 2 ^ 64) →
     ∃ msg, Enum_ctor is_valid_variable_name vars g nm values w
            = Throw (UserException msg)).
Proof.
  intros Hw Hnd. split.
  - intros Hval.
    destruct (Enum_fold_Ok g nm w values Hw Hnd Hval vars ∅)
      as (vars' & m' & Hfold & Hold & Hout & Hin); [intros; apply lookup_empty|].
    unfold Enum_ctor. rewrite Hfold.
    cbn [mbind result_bind mret result_ret].
    eexists _, _. split; [reflexivity|]. split_and!; try done.
    + intros n v Hnv. destruct (Hin n v Hnv) as (p & c & Hm & Hp & Hc & Hrest).
      exists p, c. unfold Enum_get_enum. cbn [Enum.values]. rewrite Hm.
      destruct Hrest as (? & ? & ? & ? & ?).
      split_and!; done.
    + intros n Hn. unfold Enum_get_enum. cbn [Enum.values].
      rewrite Hout by done. by rewrite lookup_empty.
  - intros Hbad. destruct (Enum_fold_bad g nm w values Hw Hbad (vars, ∅)) as [msg Hm].
    exists msg. unfold Enum_ctor. by rewrite Hm.
Qed.

End EnumProperties.

Section RenderingProperties.
Variable ExprOpStr : ExprOp → string.
Variable to_string : nat → result string.
Variable handle_name : bool → nat → result string.
Variable handle_name_scope : nat → nat → result string.

Lemma string_app_assoc (a b c : string) : (a +:+ b) +:+ c = a +:+ (b +:+ c).
Proof.
  induction a as [|x a IH]; [done|].
  change (String x ((a +:+ b) +:+ c) = String x (a +:+ (b +:+ c))). by rewrite IH.
Qed.

Lemma as_Expr_cls v e sub : cls v = CExpr e sub → as_Expr v = Ok (e, sub).
Proof. unfold as_Expr. by intros ->. Qed.

Lemma expr_to_string_ignore_top fuel vars b1 b2 :
  ∀ expr is_top,
    expr_to_string ExprOpStr to_string handle_name handle_name_scope
      fuel vars expr is_top false b1 None
    = expr_to_string ExprOpStr to_string handle_name handle_name_scope
        fuel vars expr is_top false b2 None.
Proof.
  induction fuel as [|n IH]; intros expr is_top; [done|].
  cbn [expr_to_string].
  destruct (deref vars expr) as [e| |]; cbn [mbind result_bind]; [|done..].
  destruct (as_Expr e) as [[f sub]| |]; cbn [mbind result_bind]; [|done..].
  case_bool_decide; [done|]. case_bool_decide; [done|].
  destruct (deref vars (Expr.left f)) as [l| |]; cbn [mbind result_bind]; [|done..].
  assert (Hl : (if bool_decide (type_ l = Expression)
       then as_Expr l ≫= λ '(lf, _),
              expr_to_string ExprOpStr to_string handle_name handle_name_scope n vars
                (Expr.left f) (bool_decide (Expr.op f = Expr.op lf)) false b1 None
       else render to_string handle_name handle_name_scope false b1 None (Expr.left f))
     = (if bool_decide (type_ l = Expression)
       then as_Expr l ≫= λ '(lf, _),
              expr_to_string ExprOpStr to_string handle_name handle_name_scope n vars
                (Expr.left f) (bool_decide (Expr.op f = Expr.op lf)) false b2 None
       else render to_string handle_name handle_name_scope false b2 None (Expr.left f))).
  { case_bool_decide; [|done].
    destruct (as_Expr l) as [[lf ?]| |]; cbn [mbind result_bind]; [|done..]. apply IH. }
  rewrite Hl. clear Hl.
  match goal with |- ?m ≫= _ = _ => destruct m as [left_str| |] end;
    cbn [mbind result_bind]; [|done..].
  destruct (Expr.right f) as [rp|]; [|done].
  destruct (deref vars rp) as [r| |]; cbn [mbind result_bind]; [|done..].
  case_bool_decide; [|done].
  destruct (as_Expr r) as [[rf ?]| |]; cbn [mbind result_bind]; [|done..].
  by rewrite (IH rp).
Qed.

(** [Expr::handle_name] with a scope argument returns the text of
    [Expr::to_string]: the scope reaches [expr_to_string] in the position of
    the [ignore_top] flag, which is not read when [use_handle] is unset, so
    no operand is rendered relative to the scope. *)
Theorem Expr_handle_name_scope_is_to_string (fuel : nat) (vars : list Var) (this : nat)
    (scope : option nat) :
  Expr_handle_name_scope ExprOpStr to_string handle_name handle_name_scope
    fuel vars this scope
  = Expr_to_string ExprOpStr to_string handle_name handle_name_scope fuel vars this.
Proof. apply expr_to_string_ignore_top. Qed.

(** The text of a binary node over two operands that are not expressions. *)
Lemma expr_to_string_leaves n vars expr e sub op a b va vb sa sb is_top :
  vars !! expr = Some e → cls e = CExpr {| Expr.op := op; Expr.left := a;
                                          Expr.right := Some b |} sub →
  op ≠ Concat → op ≠ Conditional →
  vars !! a = Some va → type_ va ≠ Expression → to_string a = Ok sa →
  vars !! b = Some vb → type_ vb ≠ Expression → to_string b = Ok sb →
  expr_to_string ExprOpStr to_string handle_name handle_name_scope
    (S n) vars expr is_top false false None
  = Ok (if is_top then sa +:+ " " +:+ ExprOpStr op +:+ " " +:+ sb
        else "(" +:+ sa +:+ " " +:+ ExprOpStr op +:+ " " +:+ sb +:+ ")").
Proof.
  intros He Hc Ho1 Ho2 Ha Hta Hsa Hb Htb Hsb. cbn [expr_to_string].
  rewrite (deref_lookup _ _ _ He). cbn [mbind result_bind].
  rewrite (as_Expr_cls _ _ _ Hc). cbn [mbind result_bind Expr.op Expr.left Expr.right].
  rewrite !bool_decide_eq_false_2 by done.
  rewrite (deref_lookup _ _ _ Ha). cbn [mbind result_bind].
  rewrite bool_decide_eq_false_2 by done. cbn [render]. rewrite Hsa.
  cbn [mbind result_bind]. rewrite (deref_lookup _ _ _ Hb). cbn [mbind result_bind].
  rewrite bool_decide_eq_false_2 by done. cbn [render]. rewrite Hsb.
  cbn [mbind result_bind]. by destruct is_top.
Qed.

(** [expr_to_string] parenthesises a nested operand only when its operator
    differs from the operator of the node above it.  With the same operator
    on both levels the text carries no grouping: [a op (b op c)] and
    [(a op b) op c] are both rendered as [a op b op c]. *)
Theorem expr_to_string_grouping (fuel : nat) (vars : list Var) (op op' : ExprOp)
    (a b c inner_r outer_r inner_l outer_l : nat) (va vb vc ir or_ il ol : Var)
    (s1 s2 s3 s4 : ExprSub) (sa sb sc : string) :
  op ≠ Concat → op ≠ Conditional → op' ≠ Concat → op' ≠ Conditional →
  vars !! a = Some va → type_ va ≠ Expression → to_string a = Ok sa →
  vars !! b = Some vb → type_ vb ≠ Expression → to_string b = Ok sb →
  vars !! c = Some vc → type_ vc ≠ Expression → to_string c = Ok sc →
  vars !! inner_r = Some ir → type_ ir = Expression →
  cls ir = CExpr {| Expr.op := op'; Expr.left := b; Expr.right := Some c |} s1 →
  vars !! outer_r = Some or_ →
  cls or_ = CExpr {| Expr.op := op; Expr.left := a; Expr.right := Some inner_r |} s2 →
  vars !! inner_l = Some il → type_ il = Expression →
  cls il = CExpr {| Expr.op := op'; Expr.left := a; Expr.right := Some b |} s3 →
  vars !! outer_l = Some ol →
  cls ol = CExpr {| Expr.op := op; Expr.left := inner_l; Expr.right := Some c |} s4 →
  let wrap (s : string) := if bool_decide (op = op') then s else "(" +:+ s +:+ ")" in
  Expr_to_string ExprOpStr to_string handle_name handle_name_scope (S (S fuel)) vars outer_r
    = Ok (sa +:+ " " +:+ ExprOpStr op +:+ " "
          +:+ wrap (sb +:+ " " +:+ ExprOpStr op' +:+ " " +:+ sc))
  ∧ Expr_to_string ExprOpStr to_string handle_name handle_name_scope (S (S fuel)) vars outer_l
    = Ok (wrap (sa +:+ " " +:+ ExprOpStr op' +:+ " " +:+ sb)
          +:+ " " +:+ ExprOpStr op +:+ " " +:+ sc)
  ∧ (op = op' →
     Expr_to_string ExprOpStr to_string handle_name handle_name_scope
       (S (S fuel)) vars outer_r
     = Expr_to_string ExprOpStr to_string handle_name handle_name_scope
         (S (S fuel)) vars outer_l).
Proof.
  intros Ho1 Ho2 Ho3 Ho4 Ha Hta Hsa Hb Htb Hsb Hc Htc Hsc
    Hir Htir Hcir Hor Hcor Hil Htil Hcil Hol Hcol wrap.
  assert (Hr : Expr_to_string ExprOpStr to_string handle_name handle_name_scope
                 (S (S fuel)) vars outer_r
               = Ok (sa +:+ " " +:+ ExprOpStr op +:+ " "
                     +:+ wrap (sb +:+ " " +:+ ExprOpStr op' +:+ " " +:+ sc))).
  { unfold Expr_to_string. remember (S fuel) as m eqn:Hm. cbn [expr_to_string].
    rewrite (deref_lookup _ _ _ Hor). cbn [mbind result_bind].
    rewrite (as_Expr_cls _ _ _ Hcor).
    cbn [mbind result_bind Expr.op Expr.left Expr.right].
    rewrite !bool_decide_eq_false_2 by done.
    rewrite (deref_lookup _ _ _ Ha). cbn [mbind result_bind].
    rewrite bool_decide_eq_false_2 by done. cbn [render]. rewrite Hsa.
    cbn [mbind result_bind]. rewrite (deref_lookup _ _ _ Hir). cbn [mbind result_bind].
    rewrite bool_decide_eq_true_2 by done. rewrite (as_Expr_cls _ _ _ Hcir).
    cbn [mbind result_bind Expr.op].
    subst m.
    rewrite (expr_to_string_leaves fuel vars inner_r ir s1 op' b c vb vc sb sc) by done.
    cbn [mbind result_bind mret result_ret]. unfold wrap.
    case_bool_decide; [done|]. by rewrite !string_app_assoc. }
  assert (Hl : Expr_to_string ExprOpStr to_string handle_name handle_name_scope
                 (S (S fuel)) vars outer_l
               = Ok (wrap (sa +:+ " " +:+ ExprOpStr op' +:+ " " +:+ sb)
                     +:+ " " +:+ ExprOpStr op +:+ " " +:+ sc)).
  { unfold Expr_to_string. remember (S fuel) as m eqn:Hm. cbn [expr_to_string].
    rewrite (deref_lookup _ _ _ Hol). cbn [mbind result_bind].
    rewrite (as_Expr_cls _ _ _ Hcol).
    cbn [mbind result_bind Expr.op Expr.left Expr.right].
    rewrite !bool_decide_eq_false_2 by done.
    rewrite (deref_lookup _ _ _ Hil). cbn [mbind result_bind].
    rewrite bool_decide_eq_true_2 by done. rewrite (as_Expr_cls _ _ _ Hcil).
    cbn [mbind result_bind Expr.op].
    subst m.
    rewrite (expr_to_string_leaves fuel vars inner_l il s3 op' a b va vb sa sb) by done.
    cbn [mbind result_bind]. rewrite (deref_lookup _ _ _ Hc). cbn [mbind result_bind].
    rewrite (bool_decide_eq_false_2 (type_ vc = Expression)) by done.
    cbn [render]. rewrite Hsc.
    cbn [mbind result_bind mret result_ret]. unfold wrap.
    case_bool_decide; [done|]. by rewrite !string_app_assoc. }
  split; [exact Hr|]. split; [exact Hl|].
  intros <-. rewrite Hr, Hl. unfold wrap. rewrite !bool_decide_eq_true_2 by done.
  f_equal. by rewrite !string_app_assoc.
Qed.

End RenderingProperties.

Section Names.

Lemma string_app_cons c (g s : string) : String c g +:+ s = String c (g +:+ s).
Proof. reflexivity. Qed.

Lemma string_app_nil_l (s : string) : "" +:+ s = s.
Proof. reflexivity. Qed.

Lemma string_app_nil_r (s : string) : s +:+ "" = s.
Proof. induction s as [|c s IH]; [done|]. by rewrite string_app_cons, IH. Qed.

Lemma string_length_app_one c (g : string) :
  String.length (g +:+ String c "") = (String.length g + 1)%nat.
Proof. induction g as [|x g IH]; [done|]. rewrite string_app_cons. cbn. by rewrite IH. Qed.

Lemma string_prefix_app (g s : string) : String.prefix g (g +:+ s) = true.
Proof.
  induction g as [|c g IH]; [by destruct s|]. rewrite string_app_cons. cbn.
  destruct (Ascii.ascii_dec c c); [done|congruence].
Qed.

Lemma string_index_prefix (g v : string) :
  String.index 0 g v = Some 0%nat ↔ String.prefix g v = true.
Proof.
  destruct v as [|b v']; cbn.
  - destruct g; split; congruence.
  - destruct (String.prefix g (String b v')) eqn:E.
    + cbn in E. by rewrite E.
    + cbn in E. rewrite E. destruct (String.index 0 g v'); split; congruence.
Qed.

Lemma substr_app (g s : string) : substr (g +:+ s) (String.length g) = Some s.
Proof.
  induction g as [|c g IH]; [by destruct s|]. rewrite string_app_cons. cbn. exact IH.
Qed.

Lemma substr_past (g : string) : substr g (String.length g + 1) = None.
Proof. induction g as [|c g IH]; cbn; done. Qed.

(** [Var::handle_name] with a scope argument tests only that the scope's
    handle name is a textual prefix of the signal's handle name, and drops
    the prefix together with the one character after it.  So it gives back
    the plain name of a signal that [Var::handle_name] qualified with a
    non-empty scope name; it accepts any name that merely starts with the
    scope's name, whatever the next character is; it refuses with the
    [VarException] a name that does not start with the scope's name; and a
    name equal to the scope's name makes [substr] throw. *)
Theorem Var_handle_name_scope_strips (g : string) :
  (∀ nm, g ≠ "" → Var_handle_name_scope g (Var_handle_name g nm) = ScopedName nm)
  ∧ (∀ c s, Var_handle_name_scope g (g +:+ String c s) = ScopedName s)
  ∧ (∀ v, String.prefix g v = false → Var_handle_name_scope g v = NotAccessible)
  ∧ Var_handle_name_scope g g = OutOfRange.
Proof.
  assert (Hstrip : ∀ c s, Var_handle_name_scope g (g +:+ String c s) = ScopedName s).
  { intros c s. unfold Var_handle_name_scope.
    destruct (string_index_prefix g (g +:+ String c s)) as [_ ->]; [|apply string_prefix_app].
    cbn [Nat.add].
    replace (g +:+ String c s) with ((g +:+ String c "") +:+ s)
      by (rewrite string_app_assoc; done).
    rewrite <-(string_length_app_one c). by rewrite substr_app. }
  split_and!.
  - intros nm Hg. unfold Var_handle_name. rewrite bool_decide_eq_true_2 by done.
    apply Hstrip.
  - exact Hstrip.
  - intros v Hp. unfold Var_handle_name_scope.
    destruct (String.index 0 g v) as [[|n]|] eqn:E; [|done..].
    apply string_index_prefix in E. congruence.
  - unfold Var_handle_name_scope.
    destruct (string_index_prefix g g) as [_ ->].
    + cbn [Nat.add]. by rewrite substr_past.
    + rewrite <-(string_app_nil_r g) at 2. apply string_prefix_app.
Qed.

End Names.

Section SliceNames.

Lemma pretty_N_char_digit x : is_digit (pretty_N_char x) = true.
Proof. unfold pretty_N_char. by repeat case_match. Qed.

Lemma pretty_N_go_digits x : ∀ s, all_digits s → all_digits (pretty_N_go x s).
Proof.
  induction (N.lt_wf_0 x) as [x _ IH]; intros s Hs.
  destruct (decide (x = 0)%N) as [->|Hx]; [by rewrite pretty_N_go_0|].
  rewrite pretty_N_go_step by lia. apply IH.
  - apply N.div_lt; lia.
  - split; [apply pretty_N_char_digit|done].
Qed.

Lemma pretty_Z_digits z : 0 ≤ z → all_digits (pretty z).
Proof.
  destruct z as [|p|p]; intros Hz; [done| |lia].
  unfold pretty, pretty_Z, pretty, pretty_positive, pretty, pretty_N.
  case_decide; [done|]. by apply pretty_N_go_digits.
Qed.

Lemma digits_sep s1 : ∀ s2 c1 c2 t1 t2,
  all_digits s1 → all_digits s2 → is_digit c1 = false → is_digit c2 = false →
  s1 +:+ String c1 t1 = s2 +:+ String c2 t2 → s1 = s2 ∧ c1 = c2 ∧ t1 = t2.
Proof.
  induction s1 as [|x s1 IH]; intros [|y s2] c1 c2 t1 t2 H1 H2 Hc1 Hc2 H;
    rewrite ?string_app_cons, ?string_app_nil_l in H.
  - by injection H as -> ->.
  - injection H as -> _. destruct H2. congruence.
  - injection H as -> _. destruct H1. congruence.
  - injection H as -> H. destruct H1 as [_ H1], H2 as [_ H2].
    destruct (IH _ _ _ _ _ H1 H2 Hc1 Hc2 H) as (-> & -> & ->). done.
Qed.

(** [VarSlice::get_slice_name]: two slices of the same signal get the same
    name only when they have the same bounds. *)
Theorem get_slice_name_inj (parent_name : string) (high low high' low' : Z) :
  0 ≤ high → 0 ≤ low → 0 ≤ high' → 0 ≤ low' →
  get_slice_name parent_name high low = get_slice_name parent_name high' low' →
  high = high' ∧ low = low'.
Proof.
  intros Hh Hl Hh' Hl' H. unfold get_slice_name in H.
  assert (Hb : is_digit (Ascii.ascii_of_nat 93) = false) by done.
  assert (Hc : is_digit (Ascii.ascii_of_nat 58) = false) by done.
  pose proof (pretty_Z_digits high Hh). pose proof (pretty_Z_digits low Hl).
  pose proof (pretty_Z_digits high' Hh'). pose proof (pretty_Z_digits low' Hl').
  repeat case_bool_decide; subst;
    apply (inj (String.app parent_name)) in H;
    rewrite !string_app_cons, !string_app_nil_l in H; injection H as H;
    apply digits_sep in H as (Hp & Hcc & Ht); try done.
  - apply (inj pretty) in Hp. by subst.
  - apply (inj pretty) in Hp. subst.
    change (":" +:+ pretty low +:+ "]") with (String ":" (pretty low +:+ "]")) in *.
    apply digits_sep in Ht as (Hp & _ & _); try done.
    apply (inj pretty) in Hp. by subst.
Qed.

End SliceNames.

Section Echo.

Lemma echo_lines_after (n : nat) (lines : list string) : ∀ c : nat,
  (2 ≤ n)%nat → (n ≤ c)%nat → Z.of_nat n + 2 < 2 ^ 32 →
  Z.of_nat c + Z.of_nat (length lines) < 2 ^ 32 →
  echo_lines (Z.of_nat n) (Z.of_nat c) lines = green_line <$> take (n + 2 - c) lines.
Proof.
  induction lines as [|line rest IH]; intros c Hn Hc Hn2 Hlen; [by rewrite take_nil|].
  cbn [echo_lines length] in *. unfold CODE_RANGE.
  rewrite !u32_small by lia.
  rewrite bool_decide_eq_false_2 by lia.
  replace (Z.of_nat c + 1) with (Z.of_nat (S c)) by lia.
  rewrite IH by lia.
  destruct (decide (c ≤ n + 1)%nat).
  - rewrite bool_decide_eq_true_2 by lia.
    replace (n + 2 - c)%nat with (S (n + 2 - S c)) by lia. done.
  - rewrite bool_decide_eq_false_2 by lia.
    replace (n + 2 - c)%nat with 0%nat by lia.
    replace (n + 2 - S c)%nat with 0%nat by lia. by rewrite !take_0.
Qed.

Lemma echo_lines_before (n : nat) (lines : list string) : ∀ c : nat,
  (2 ≤ n)%nat → (c < n)%nat → Z.of_nat n + 2 < 2 ^ 32 →
  Z.of_nat c + Z.of_nat (length lines) < 2 ^ 32 →
  echo_lines (Z.of_nat n) (Z.of_nat c) lines =
    (green_line <$> drop (n - 3 - c) (take (n - 1 - c) lines))
    ++ (red_line <$> take 1 (drop (n - 1 - c) lines))
    ++ (green_line <$> take 2 (drop (n - c) lines)).
Proof.
  induction lines as [|line rest IH]; intros c Hn Hc Hn2 Hlen.
  { by rewrite !take_nil, !drop_nil, !take_nil. }
  cbn [echo_lines length] in *. unfold CODE_RANGE.
  rewrite !u32_small by lia.
  replace (Z.of_nat c + 1) with (Z.of_nat (S c)) by lia.
  destruct (decide (S c = n)) as [Heq|Hne].
  - rewrite bool_decide_eq_true_2 by lia.
    rewrite echo_lines_after by lia.
    replace (n - 1 - c)%nat with 0%nat by lia.
    replace (n - 3 - c)%nat with 0%nat by lia.
    replace (n - c)%nat with 1%nat by lia.
    replace (n + 2 - S c)%nat with 2%nat by lia.
    done.
  - rewrite bool_decide_eq_false_2 by lia. rewrite IH by lia.
    replace (n - 1 - c)%nat with (S (n - 1 - S c)) by lia.
    replace (n - c)%nat with (S (n - S c)) by lia.
    cbn [take drop].
    destruct (decide (n ≤ c + 3)%nat).
    + rewrite bool_decide_eq_true_2 by lia.
      replace (n - 3 - c)%nat with 0%nat by lia.
      replace (n - 3 - S c)%nat with 0%nat by lia. done.
    + rewrite bool_decide_eq_false_2 by lia.
      replace (n - 3 - c)%nat with (S (n - 3 - S c)) by lia. done.
Qed.

(** The source echo of [print_ast_node].  For a location on line [n >= 2]
    the loop writes the lines from [n - 2] to [n + 2] that the file has: the
    line itself marked red and the others green.  For a location on line 1
    the unsigned subtraction [line_number - CODE_RANGE] wraps around, and
    the line is written alone, without the two lines that follow it. *)
Theorem echo_lines_window (lines : list string) :
  Z.of_nat (length lines) < 2 ^ 32 - 1 →
  (echo_lines 1 0 lines = red_line <$> take 1 lines)
  ∧ (∀ n : nat, (2 ≤ n)%nat → Z.of_nat n + 2 < 2 ^ 32 →
       echo_lines (Z.of_nat n) 0 lines =
         (green_line <$> drop (n - 3) (take (n - 1) lines))
         ++ (red_line <$> take 1 (drop (n - 1) lines))
         ++ (green_line <$> take 2 (drop n lines))).
Proof.
  intros Hlen. split.
  - destruct lines as [|line rest]; [done|]. cbn [echo_lines length] in *.
    unfold CODE_RANGE. rewrite (u32_small (0 + 1)) by lia.
    rewrite bool_decide_eq_true_2 by done. cbn [take fmap list_fmap app].
    f_equal. rewrite take_0. cbn.
    assert (∀ c : nat, (1 ≤ c)%nat → Z.of_nat c + Z.of_nat (length rest) < 2 ^ 32 - 1 →
              echo_lines 1 (Z.of_nat c) rest = []) as Hnone.
    { clear. induction rest as [|l rest IH]; intros c Hc Hlen; [done|].
      cbn [echo_lines length] in *. unfold CODE_RANGE.
      rewrite (u32_small (Z.of_nat c + 1)) by lia.
      rewrite bool_decide_eq_false_2 by lia.
      replace (u32 (1 - 2)) with (2 ^ 32 - 1) by (by vm_compute).
      rewrite bool_decide_eq_false_2 by lia.
      replace (Z.of_nat c + 1) with (Z.of_nat (S c)) by lia. apply IH; lia. }
    apply (Hnone 1%nat); lia.
  - intros n Hn Hn2.
    pose proof (echo_lines_before n lines 0%nat Hn ltac:(lia) Hn2 ltac:(cbn; lia)) as E.
    rewrite !Nat.sub_0_r in E. exact E.
Qed.

End Echo.

Section UnassignProperties.
Variable Generator_remove_stmt : list Generator.t → nat → nat → result (list Generator.t).

Lemma not_elem_of_remove (x : nat) (X : gset nat) : x ∉ X ∖ {[x]}.
Proof. intros [_ Hx]%elem_of_difference. apply Hx. by apply elem_of_singleton. Qed.

Lemma remove_subseteq (x : nat) (X : gset nat) : X ∖ {[x]} ⊆ X.
Proof. by apply subseteq_difference_l. Qed.

(** [Var::unassign] erases the statement from two link sets only: the
    source set of the receiver and the sink set of the node that is the
    statement's right operand.  Every other node is left as it was: when the
    right operand is a slice, a cast or an expression, the signals under it
    are not touched. *)
Theorem Var_unassign_effect (vars : list Var) (stmts : list AssignStmt.t)
    (gens : list Generator.t) (this stmt : nat) (s : AssignStmt.t)
    (vars' : list Var) (gens' : list Generator.t) :
  stmts !! stmt = Some s →
  Var_unassign Generator_remove_stmt vars stmts gens this stmt = Ok (vars', gens') →
  (∃ tv', vars' !! this = Some tv' ∧ stmt ∉ sources_ tv')
  ∧ (∃ rv', vars' !! AssignStmt.right_ s = Some rv' ∧ stmt ∉ sinks_ rv')
  ∧ (∀ q v, q ≠ this → q ≠ AssignStmt.right_ s → vars !! q = Some v →
       vars' !! q = Some v)
  ∧ (∀ q v, vars !! q = Some v →
       ∃ v', vars' !! q = Some v' ∧ cls v' = cls v
         ∧ sinks_ v' ⊆ sinks_ v ∧ sources_ v' ⊆ sources_ v).
Proof.
  intros Hs H. unfold Var_unassign in H.
  rewrite (deref_lookup _ _ _ Hs) in H. cbn [mbind result_bind] in H.
  apply bind_Ok in H as (rv & Hr & H). apply deref_Ok in Hr.
  apply bind_Ok in H as (tv & Ht & H). apply deref_Ok in Ht.
  destruct (generator tv) as [g|]; [|done].
  apply bind_Ok in H as (gens1 & _ & H). injection H as <- <-.
  set (f := λ v, with_sinks (sinks_ v ∖ {[stmt]}) v) in *.
  set (h := λ v, with_sources (sources_ v ∖ {[stmt]}) v) in *.
  split_and!.
  - exists (h tv). split; [by apply update_lookup_eq|]. cbn. apply not_elem_of_remove.
  - destruct (update_lookup_Some (update vars (AssignStmt.right_ s) f) this h
                (AssignStmt.right_ s) (f rv)) as (rv' & Hrv' & Hor);
      [by apply update_lookup_eq|].
    exists rv'. split; [done|]. destruct Hor as [->| ->]; cbn; apply not_elem_of_remove.
  - intros q v Hq1 Hq2 Hq. by rewrite !update_lookup_ne.
  - intros q v Hq.
    destruct (update_lookup_Some vars (AssignStmt.right_ s) f q v Hq)
      as (v1 & Hv1 & Hor1).
    destruct (update_lookup_Some (update vars (AssignStmt.right_ s) f) this h q v1 Hv1)
      as (v2 & Hv2 & Hor2).
    exists v2. split; [done|].
    destruct Hor1 as [->| ->], Hor2 as [->| ->]; cbn;
      split_and!; first [done|apply remove_subseteq].
Qed.

End UnassignProperties.

Section RelocationChecks.
Variable is_valid_variable_name : string → bool.

Lemma collect_slices_chain vars p r k :
  slice_chain vars p r k → ∀ fuel, (k < fuel)%nat →
  ∃ l, collect_slices fuel vars p = Ok (l, r) ∧ length l = k.
Proof.
  induction 1 as [p v Hp Hty|p v s sub q k Hp Hty Hcls _ IH]; intros fuel Hf;
    (destruct fuel as [|n]; [lia|]); cbn [collect_slices];
    rewrite (deref_lookup _ _ _ Hp); cbn [mbind result_bind].
  - rewrite bool_decide_eq_false_2 by done. by exists [].
  - rewrite bool_decide_eq_true_2 by done. unfold as_VarSlice. rewrite Hcls.
    cbn [mbind result_bind]. destruct (IH n) as (l & -> & Hl); [lia|].
    cbn [mbind result_bind mret result_ret]. exists (p :: l). split; [done|].
    cbn. by rewrite Hl.
Qed.

Lemma set_var_parent_not_found (vars : list Var) (var r k target new_var fuel : nat) :
  slice_chain vars var r k → (k < fuel)%nat → r ≠ target →
  set_var_parent is_valid_variable_name fuel vars var target new_var true
    = Throw (InternalException "Target not found")
  ∧ set_var_parent is_valid_variable_name fuel vars var target new_var false
    = Ok (vars, var).
Proof.
  intros Hch Hf Hne.
  destruct (collect_slices_chain _ _ _ _ Hch fuel Hf) as (l & Hl & Hlen).
  unfold set_var_parent. rewrite Hl. cbn [mbind result_bind].
  by rewrite bool_decide_eq_true_2.
Qed.

(** [set_var_parent] looks for the target under the chain of slices that
    the operand hangs from.  When the signal under the chain is not the
    target, the call throws the internal "Target not found" exception if the
    check was asked for and otherwise changes nothing; when the operand is
    the target itself and no slice lies above it, the call throws the
    internal "Slice cannot be null" exception. *)
Theorem set_var_parent_checks (vars : list Var) (var r k target new_var fuel : nat) :
  slice_chain vars var r k → (k < fuel)%nat →
  (r ≠ target →
   set_var_parent is_valid_variable_name fuel vars var target new_var true
     = Throw (InternalException "Target not found")
   ∧ set_var_parent is_valid_variable_name fuel vars var target new_var false
     = Ok (vars, var))
  ∧ (r = target → k = 0%nat → ∀ check_target,
     set_var_parent is_valid_variable_name fuel vars var target new_var check_target
       = Throw (InternalException "Slice cannot be null")).
Proof.
  intros Hch Hf. split; [intros Hne; by eapply set_var_parent_not_found|].
  destruct (collect_slices_chain _ _ _ _ Hch fuel Hf) as (l & Hl & Hlen).
  unfold set_var_parent. rewrite Hl. cbn [mbind result_bind].
  intros -> -> check. rewrite bool_decide_eq_false_2 by (intros ?; done).
  destruct l; [|done]. by rewrite bool_decide_eq_true_2.
Qed.

(** [stmt_set_left] and [stmt_set_right] throw the internal "Target not
    found" exception when the operand of the statement is a signal with
    storage other than the target, and when it is a slice over another
    signal than the target. *)
Theorem stmt_set_target_not_found (vars : list Var) (stmts : list AssignStmt.t)
    (stmt target new_var fuel : nat) (s : AssignStmt.t) :
  stmts !! stmt = Some s →
  (∀ lv, vars !! AssignStmt.left_ s = Some lv →
     (is_storage_type (type_ lv) = true → AssignStmt.left_ s ≠ target →
      stmt_set_left is_valid_variable_name fuel vars stmts stmt target new_var
        = Throw (InternalException "Target not found"))
     ∧ (∀ r k, type_ lv = Slice → slice_chain vars (AssignStmt.left_ s) r k →
          r ≠ target → (k < fuel)%nat →
          stmt_set_left is_valid_variable_name fuel vars stmts stmt target new_var
            = Throw (InternalException "Target not found")))
  ∧ (∀ rv, vars !! AssignStmt.right_ s = Some rv →
       (is_storage_type (type_ rv) = true → AssignStmt.right_ s ≠ target →
        stmt_set_right is_valid_variable_name fuel vars stmts stmt target new_var
          = Throw (InternalException "Target not found"))
       ∧ (∀ r k, type_ rv = Slice → slice_chain vars (AssignStmt.right_ s) r k →
            r ≠ target → (k < fuel)%nat →
            stmt_set_right is_valid_variable_name fuel vars stmts stmt target new_var
              = Throw (InternalException "Target not found"))).
Proof.
  intros Hs. split.
  - intros lv Hl. unfold stmt_set_left.
    rewrite (deref_lookup _ _ _ Hs). cbn [mbind result_bind].
    rewrite (deref_lookup _ _ _ Hl). cbn [mbind result_bind]. split.
    + intros -> Hne. by rewrite bool_decide_eq_false_2.
    + intros r k Hty Hch Hne Hk. rewrite Hty. cbn.
      destruct (set_var_parent_not_found vars _ r k target new_var fuel Hch Hk Hne)
        as [-> _]. done.
  - intros rv Hr. unfold stmt_set_right.
    rewrite (deref_lookup _ _ _ Hs). cbn [mbind result_bind].
    rewrite (deref_lookup _ _ _ Hr). cbn [mbind result_bind]. split.
    + intros -> Hne. by rewrite bool_decide_eq_false_2.
    + intros r k Hty Hch Hne Hk. rewrite Hty. cbn.
      destruct (set_var_parent_not_found vars _ r k target new_var fuel Hch Hk Hne)
        as [-> _]. done.
Qed.

End RelocationChecks.

Section FunctionCallProperties.
Variable is_valid_variable_name : string → bool.
Hypothesis empty_name_valid : is_valid_variable_name "" = true.

Lemma check_port_connected vars args entry :
  port_connected vars args entry → check_port vars args entry = Ok ().
Proof.
  intros (ap & fv & av & Ha & Hf & Hv & Hw & Hs). unfold check_port. rewrite Ha.
  rewrite (deref_lookup _ _ _ Hf), (deref_lookup _ _ _ Hv). cbn [mbind result_bind].
  by rewrite !bool_decide_eq_false_2 by (intros ?; done).
Qed.

Lemma check_ports_connected vars args ports :
  Forall (port_connected vars args) ports →
  foldM (λ _ entry, check_port vars args entry) ports () = Ok ().
Proof.
  induction 1 as [|entry ports Hc _ IH]; [done|].
  cbn [foldM]. rewrite (check_port_connected _ _ _ Hc). exact IH.
Qed.

Lemma check_ports_first_bad vars args l1 entry l2 e :
  Forall (port_connected vars args) l1 →
  check_port vars args entry = Throw e →
  foldM (λ _ entry, check_port vars args entry) (l1 ++ entry :: l2) () = Throw e.
Proof.
  induction 1 as [|x l1 Hc _ IH]; intros He.
  - cbn [app foldM]. by rewrite He.
  - cbn [app foldM]. rewrite (check_port_connected _ _ _ Hc). by apply IH.
Qed.

(** [FunctionCallVar::FunctionCallVar] checks the ports of the function in
    order.  The first port without an argument, or whose argument differs in
    total width or in signedness, makes the construction throw the
    corresponding [VarException].  When every port is connected to a
    matching argument: a call without a return value is a node of width 0;
    a call that wants the return value of a function that has no return
    handler and is not a DPI function throws a [StmtException]; and
    otherwise the node takes the handler's total width, its dimensions and
    its signedness. *)
Theorem FunctionCallVar_ctor_checks (vars : list Var) (m : option nat)
    (func_def : FunctionStmtBlock.t) (args : gmap string nat) :
  m ≠ None →
  (∀ l1 n fp l2 has_return,
     FunctionStmtBlock.ports_ func_def = l1 ++ (n, fp) :: l2 →
     Forall (port_connected vars args) l1 →
     (args !! n = None →
      FunctionCallVar_ctor is_valid_variable_name vars m func_def args has_return =
        Throw (VarException "{0} is not connected" [fp]))
     ∧ (∀ ap fv av, args !! n = Some ap → vars !! fp = Some fv → vars !! ap = Some av →
          (width fv ≠ width av →
           FunctionCallVar_ctor is_valid_variable_name vars m func_def args has_return =
             Throw (VarException "{0}'s width doesn't match" [fp; ap]))
          ∧ (width fv = width av → is_signed_ fv ≠ is_signed_ av →
             FunctionCallVar_ctor is_valid_variable_name vars m func_def args has_return =
               Throw (VarException "{0}'s sign doesn't match" [fp; ap]))))
  ∧ (Forall (port_connected vars args) (FunctionStmtBlock.ports_ func_def) →
     (∃ node,
        FunctionCallVar_ctor is_valid_variable_name vars m func_def args false = Ok node
        ∧ var_width_ node = 0 ∧ size_ node = [0] ∧ width node = 0
        ∧ is_signed_ node = false ∧ generator node = m)
     ∧ (FunctionStmtBlock.is_dpi func_def = false →
        (FunctionStmtBlock.function_handler_ func_def = None →
         FunctionCallVar_ctor is_valid_variable_name vars m func_def args true =
           Throw (StmtException "{0} doesn't have return value"))
        ∧ (∀ hp h, FunctionStmtBlock.function_handler_ func_def = Some hp →
             vars !! hp = Some h →
             ∃ node,
               FunctionCallVar_ctor is_valid_variable_name vars m func_def args true
                 = Ok node
               ∧ var_width_ node = width h ∧ size_ node = size_ h
               ∧ is_signed_ node = is_signed_ h ∧ generator node = m))).
Proof.
  intros Hm. unfold FunctionCallVar_ctor. rewrite Var_ctor_Ok by done.
  cbn [mbind result_bind]. split.
  - intros l1 n fp l2 has_return -> Hl1. split.
    + intros Ha.
      assert (Hc : check_port vars args (n, fp)
                   = Throw (VarException "{0} is not connected" [fp])).
      { unfold check_port. cbn [fst snd]. by rewrite Ha. }
      by rewrite (check_ports_first_bad vars args l1 (n, fp) l2 _ Hl1 Hc).
    + intros ap fv av Ha Hf Hv. split.
      * intros Hw.
        assert (Hc : check_port vars args (n, fp)
                     = Throw (VarException "{0}'s width doesn't match" [fp; ap])).
        { unfold check_port. cbn [fst snd]. rewrite Ha.
          rewrite (deref_lookup _ _ _ Hf), (deref_lookup _ _ _ Hv).
          cbn [mbind result_bind]. by rewrite bool_decide_eq_true_2. }
        by rewrite (check_ports_first_bad vars args l1 (n, fp) l2 _ Hl1 Hc).
      * intros Hw Hs.
        assert (Hc : check_port vars args (n, fp)
                     = Throw (VarException "{0}'s sign doesn't match" [fp; ap])).
        { unfold check_port. cbn [fst snd]. rewrite Ha.
          rewrite (deref_lookup _ _ _ Hf), (deref_lookup _ _ _ Hv).
          cbn [mbind result_bind]. rewrite bool_decide_eq_false_2 by (intros ?; done).
          by rewrite bool_decide_eq_true_2. }
        by rewrite (check_ports_first_bad vars args l1 (n, fp) l2 _ Hl1 Hc).
  - intros Hall. rewrite (check_ports_connected _ _ _ Hall). cbn [mbind result_bind].
    split.
    + rewrite andb_false_r. cbn [andb]. eexists. split; [reflexivity|]. done.
    + intros Hd. rewrite Hd. cbn [negb andb]. split.
      * intros ->. by rewrite bool_decide_eq_true_2.
      * intros hp h -> Hh. rewrite bool_decide_eq_false_2 by done. cbn [andb].
        rewrite (deref_lookup _ _ _ Hh). cbn [mbind result_bind mret result_ret].
        eexists. split; [reflexivity|]. done.
Qed.

End FunctionCallProperties.

Section SliceCache.
Variable is_valid_variable_name : string → bool.

Lemma VarSlice_ctor_parent_fields vars vars' parent high low par p :
  vars !! parent = Some par → vars' !! parent = Some (slices_emplace p par) →
  VarSlice_ctor is_valid_variable_name vars' parent high low
  = VarSlice_ctor is_valid_variable_name vars parent high low.
Proof.
  intros H H'. unfold VarSlice_ctor.
  rewrite (deref_lookup _ _ _ H), (deref_lookup _ _ _ H'). reflexivity.
Qed.

(** [Var::operator[]] does not memoize: repeating a slice with the same
    bounds allocates a second node with the same contents, and the signal's
    slice cache then holds both nodes. *)
Theorem slices_not_memoized (vars : list Var) (this : nat) (high low : Z)
    (vars1 : list Var) (s1 : nat) :
  Var_index is_valid_variable_name vars this high low = Ok (vars1, s1) →
  ∃ vars2 s2 tv node,
    Var_index is_valid_variable_name vars1 this high low = Ok (vars2, s2)
    ∧ s2 ≠ s1
    ∧ vars2 !! s1 = Some node ∧ vars2 !! s2 = Some node
    ∧ vars2 !! this = Some tv ∧ s1 ∈ slices_ tv ∧ s2 ∈ slices_ tv.
Proof.
  intros H. unfold Var_index in H.
  apply bind_Ok in H as (v & Hv & H). apply deref_Ok in Hv.
  destruct (bool_decide (high < low)) eqn:Hb; [done|].
  apply bind_Ok in H as ([] & Hchk & H). apply bind_Ok in H as (node & Hn & H).
  cbn [alloc mret result_ret] in H. injection H as <- <-.
  assert (Hlt : (this < length vars)%nat) by by eapply lookup_lt_Some.
  set (vars1 := update (vars ++ [node]) this (slices_emplace (length vars))).
  assert (Ht1 : vars1 !! this = Some (slices_emplace (length vars) v)).
  { apply update_lookup_eq. by apply lookup_alloc_old. }
  assert (Hn1 : vars1 !! length vars = Some node).
  { unfold vars1. rewrite update_lookup_ne by lia. apply lookup_alloc_new. }
  assert (Hlen : length vars1 = S (length vars)).
  { unfold vars1. rewrite update_length, length_app. cbn. lia. }
  assert (Hn' : VarSlice_ctor is_valid_variable_name vars1 this high low = Ok node).
  { rewrite <-Hn. unfold VarSlice_ctor.
    rewrite (deref_lookup _ _ _ Hv), (deref_lookup _ _ _ Ht1). reflexivity. }
  eexists _, _, _, node. split.
  { unfold Var_index. rewrite (deref_lookup _ _ _ Ht1). cbn [mbind result_bind].
    rewrite Hb.
    change (is_scalar (slices_emplace (length vars) v)) with (is_scalar v).
    change (width (slices_emplace (length vars) v)) with (width v).
    change (size_ (slices_emplace (length vars) v)) with (size_ v).
    rewrite Hchk. cbn [mbind result_bind]. rewrite Hn'.
    cbn [mbind result_bind alloc mret result_ret]. reflexivity. }
  rewrite Hlen. split; [lia|]. split.
  { rewrite update_lookup_ne by lia. by apply lookup_alloc_old. }
  split.
  { rewrite update_lookup_ne by lia. rewrite <-Hlen. apply lookup_alloc_new. }
  split.
  { apply update_lookup_eq. by apply lookup_alloc_old. }
  cbn. split.
  - apply elem_of_app. left. apply elem_of_app. right. by apply list_elem_of_singleton.
  - apply elem_of_app. right. by apply list_elem_of_singleton.
Qed.

End SliceCache.

(** * Further instances *)

Lemma Const_ctor_representable_witness :
  succeeds (Const_ctor sample_valid_name (Some 0%nat) 5 8 false)
  ∧ ∃ msg, Const_ctor sample_valid_name (Some 0%nat) 256 8 false
           = Throw (UserException msg).
Proof.
  split.
  - apply (Const_ctor_representable sample_valid_name (Some 0%nat) 5 8 false);
      [lia | lia | evaluated | reflexivity | evaluated].
  - apply (Const_ctor_representable sample_valid_name (Some 0%nat) 256 8 false);
      [lia | lia | evaluated | reflexivity | evaluated].
Defined.

Lemma Const_set_value_representable_witness :
  Const_set_value sample_valid_name circuit 9 7
  = Ok (<[9%nat := with_cls (CConst 7 PlainConst) (literal 5 8)]> circuit)
  ∧ Const_set_value sample_valid_name circuit 9 300 = Ok circuit.
Proof.
  split.
  - apply (Const_set_value_representable sample_valid_name circuit 9 (literal 5 8)
             5 PlainConst 7);
      [reflexivity | reflexivity | reflexivity | lia | evaluated | reflexivity
      | evaluated].
  - apply (Const_set_value_representable sample_valid_name circuit 9 (literal 5 8)
             5 PlainConst 300);
      [reflexivity | reflexivity | reflexivity | lia | evaluated | reflexivity
      | evaluated].
Defined.

Lemma fresh_param_sizes_after_set_witness :
  ∃ p, Param_ctor sample_valid_name (Some 0%nat) "P" 32 false = Ok p
  ∧ (∃ msg, Var_set_width_param (circuit ++ [p]) 0 10 = Throw (VarException msg [10%nat]))
  ∧ ∃ vars1 vars2 tv',
      Param_set_value sample_valid_name 1 (circuit ++ [p]) 10 16 = Ok vars1
      ∧ Var_set_width_param vars1 0 10 = Ok vars2
      ∧ vars2 !! 0%nat = Some tv' ∧ var_width_ tv' = 16.
Proof.
  destruct (Param_ctor sample_valid_name (Some 0%nat) "P" 32 false) as [p| |] eqn:E;
    [|vm_compute in E; discriminate..].
  destruct (fresh_param_sizes_after_set sample_valid_name circuit (Some 0%nat) "P" 32
              false p 0 (signal "a" 8 [1] false) 16 E)
    as (Hthrow & vars1 & vars2 & tv' & H1 & H2 & H3 & H4 & _);
    [reflexivity | lia | evaluated | lia | evaluated | reflexivity|].
  exists p. split; [done|]. split; [by eexists|].
  by exists vars1, vars2, tv'.
Defined.

Lemma Var_index_array_witness :
  succeeds (Var_index sample_valid_name circuit 6 4 0)
  ∧ ∃ msg, Var_index sample_valid_name circuit 6 5 0 = Throw (VarException msg [6%nat]).
Proof.
  destruct (Var_index_array sample_valid_name eq_refl circuit 6
              (signal "arr" 8 [4] false) 4 [] 4 0) as (_ & _ & H);
    [reflexivity | reflexivity | done | done | evaluated |].
  destruct (Var_index_array sample_valid_name eq_refl circuit 6
              (signal "arr" 8 [4] false) 4 [] 5 0) as (_ & H' & _);
    [reflexivity | reflexivity | done | done | evaluated |].
  split.
  - destruct H as (sn & f & -> & _); [lia | lia |]. by eexists.
  - eexists. apply H'; lia.
Defined.

Lemma Var_index_scalar_checks_witness :
  succeeds (Var_index sample_valid_name circuit 8 0 0)
  ∧ ∃ msg, Var_index sample_valid_name circuit 8 3 0 = Throw (VarException msg [8%nat]).
Proof.
  destruct (Var_index_scalar_checks sample_valid_name eq_refl circuit 8
              (explicit_signal "e" 8) 3 0) as (_ & _ & H' & H);
    [reflexivity | reflexivity | done | evaluated |].
  split.
  - destruct H as (sn & f & -> & _); [reflexivity | evaluated |]. by eexists.
  - eexists. apply H'; [reflexivity | lia | evaluated | left; lia].
Defined.

Lemma slice_root_parent_witness :
  ∃ vars1 s, Var_index sample_valid_name circuit_views 11 1 0 = Ok (vars1, s)
  ∧ VarSlice_get_var_root_parent 3 vars1 s = Ok 0%nat.
Proof.
  destruct (Var_index sample_valid_name circuit_views 11 1 0) as [[vars1 s]| |] eqn:E;
    [|vm_compute in E; discriminate..].
  exists vars1, s. split; [done|].
  apply (slice_root_parent sample_valid_name circuit_views 11 0 1 1 0 0 vars1 s 3).
  - eapply slice_chain_step; [by vm_compute | reflexivity | reflexivity |].
    eapply slice_chain_root; [reflexivity | done].
  - lia.
  - by left.
Defined.

Lemma VarVarSlice_peels_witness :
  ∃ node, VarVarSlice_ctor sample_valid_name circuit 6 7 = Ok node
  ∧ var_width_ node = 8 ∧ size_ node = [1] ∧ width node = 8.
Proof.
  destruct (VarVarSlice_ctor sample_valid_name circuit 6 7) as [node| |] eqn:E;
    [|vm_compute in E; discriminate..].
  destruct (VarVarSlice_peels sample_valid_name circuit 6 7 (signal "arr" 8 [4] false)
              node eq_refl E) as (f & _ & _ & _ & _ & H).
  destruct H as (H1 & H2 & H3 & _); [by left|].
  by exists node.
Defined.

Lemma slices_not_memoized_witness :
  ∃ vars1 s1 vars2 s2,
    Var_index sample_valid_name circuit 0 7 4 = Ok (vars1, s1)
    ∧ Var_index sample_valid_name vars1 0 7 4 = Ok (vars2, s2)
    ∧ s2 ≠ s1.
Proof.
  destruct (Var_index sample_valid_name circuit 0 7 4) as [[vars1 s1]| |] eqn:E;
    [|vm_compute in E; discriminate..].
  destruct (slices_not_memoized sample_valid_name circuit 0 7 4 vars1 s1 E)
    as (vars2 & s2 & tv & node & H1 & H2 & _).
  by exists vars1, s1, vars2, s2.
Defined.

Lemma Var_cast_memo_witness :
  ∃ vars1 p, Var_cast sample_valid_name circuit 0 Signed = Ok (vars1, p)
  ∧ Var_cast sample_valid_name vars1 0 Signed = Ok (vars1, p)
  ∧ p = 10%nat.
Proof.
  destruct (Var_cast sample_valid_name circuit 0 Signed) as [[vars1 p]| |] eqn:E;
    [|vm_compute in E; discriminate..].
  destruct (Var_cast_memo sample_valid_name circuit 0 Signed vars1 p E) as (H1 & H2).
  destruct (H2 (signal "a" 8 [1] false)) as (-> & _); [reflexivity | reflexivity | by right |].
  by exists vars1, 10%nat.
Defined.

Lemma Var_extend_memo_witness :
  ∃ vars1 p, Var_extend sample_valid_name None circuit top 1 16 = Ok (vars1, p)
  ∧ Var_extend sample_valid_name None vars1 top 1 16 = Ok (vars1, p).
Proof.
  destruct (Var_extend sample_valid_name None circuit top 1 16) as [[vars1 p]| |] eqn:E;
    [|vm_compute in E; discriminate..].
  exists vars1, p. split; [done|].
  exact (Var_extend_memo sample_valid_name None circuit top 1 16 vars1 p E).
Defined.

Lemma Var_extend_checks_witness :
  succeeds (Var_extend sample_valid_name None circuit top 1 16)
  ∧ (∃ msg, Var_extend sample_valid_name None circuit top 1 2
            = Throw (VarException msg [1%nat]))
  ∧ ∃ msg, Var_extend sample_valid_name None circuit top 6 64
           = Throw (VarException msg [6%nat]).
Proof.
  destruct (Var_extend_checks sample_valid_name None eq_refl circuit top 1
              (signal "b" 4 [1] false) 16) as (_ & _ & H1);
    [reflexivity | done | reflexivity |].
  destruct (Var_extend_checks sample_valid_name None eq_refl circuit top 1
              (signal "b" 4 [1] false) 2) as (H2 & _ & _);
    [reflexivity | done | reflexivity |].
  destruct (Var_extend_checks sample_valid_name None eq_refl circuit top 6
              (signal "arr" 8 [4] false) 64) as (_ & H3 & _);
    [reflexivity | done | reflexivity |].
  split; [|split].
  - destruct H1 as (node & -> & _); [evaluated | reflexivity | by left |]. by eexists.
  - eexists. apply H2. evaluated.
  - eexists. apply (H3 4 []); [evaluated | reflexivity | right; left; lia].
Defined.


Lemma add_sink_touches_leaves_only_witness :
  ∃ vars', add_sink 3 [] top expression_circuit 4 0 = Ok vars'
  ∧ vars' !! 3%nat = expression_circuit !! 3%nat
  ∧ vars' !! 4%nat = expression_circuit !! 4%nat.
Proof.
  assert (Hleaf : ∀ r, r ∈ [0%nat; 1%nat; 2%nat] →
                       ∀ d, operand_tree expression_circuit r (S d)).
  { intros r Hr d. apply list_elem_of_lookup in Hr as [i Hi].
    destruct i as [|[|[|i]]]; simplify_eq/=;
      (eapply operand_tree_leaf; [reflexivity|by left]). }
  destruct (add_sink_touches_leaves_only [] top expression_circuit 4 3 3 0)
    as (vars' & Hrun & _ & Hkeep).
  - eapply operand_tree_node; [reflexivity | reflexivity |].
    intros x Hx. apply elem_of_cons in Hx as [->|Hx].
    { apply Hleaf. right. right. by left. }
    apply elem_of_cons in Hx as [->|Hx].
    { eapply operand_tree_node; [reflexivity | reflexivity |].
      intros y Hy. apply Hleaf. apply elem_of_cons in Hy as [->|Hy]; [by left|].
      apply list_elem_of_singleton in Hy as ->. right. by left. }
    apply list_elem_of_singleton in Hx as ->. apply Hleaf. by left.
  - lia.
  - exists vars'. split; [done|].
    split; (apply Hkeep; [reflexivity|]); by intros [?|[? ?]].
Defined.

Lemma concat_width_sum_witness :
  ∃ vars1 p node, concat sample_valid_name None circuit top 0 1 = Ok (vars1, p)
  ∧ vars1 !! p = Some node ∧ width node = 12.
Proof.
  destruct (concat sample_valid_name None circuit top 0 1) as [[vars1 p]| |] eqn:E;
    [|vm_compute in E; discriminate..].
  destruct (concat_width_sum sample_valid_name None circuit top 0 1
              (signal "a" 8 [1] false) (signal "b" 4 [1] false) vars1 p
              eq_refl eq_refl eq_refl E) as (H & _).
  destruct H as (node & e & H1 & _ & _ & H2); [done | reflexivity |].
  by exists vars1, p, node.
Defined.

Lemma VarConcat_replace_var_first_witness :
  cls (VarConcat_replace_var 0 1 doubled_concat)
  = CExpr (concat_fields 0 0) (VarConcat [1%nat; 0%nat])
  ∧ VarConcat_replace_var 2 1 doubled_concat = doubled_concat.
Proof.
  destruct (VarConcat_replace_var_first doubled_concat (concat_fields 0 0)
              [0%nat; 0%nat] 0 1 eq_refl) as (_ & H).
  destruct (VarConcat_replace_var_first doubled_concat (concat_fields 0 0)
              [0%nat; 0%nat] 2 1 eq_refl) as (H' & _).
  split.
  - apply (H [] [0%nat]); [reflexivity | apply not_elem_of_nil].
  - apply H'. intros Hin. apply elem_of_cons in Hin as [|Hin]; [done|].
    by apply list_elem_of_singleton in Hin.
Defined.

Lemma packed_members_disjoint_witness :
  PackedSlice_set_up sample_struct "tag" = Ok (3, 0, false)
  ∧ PackedSlice_set_up sample_struct "payload" = Ok (11, 4, true)
  ∧ VarPackedStruct_width sample_struct = 13
  ∧ (3 < 4 ∨ 11 < 0).
Proof.
  destruct (packed_members_disjoint sample_struct "tag" "payload" 3 0 false 11 4 true)
    as (Hw & _ & _ & _ & Hd); [|evaluated|reflexivity|reflexivity|].
  - intros d Hd. apply list_elem_of_lookup in Hd as [i Hi].
    destruct i as [|[|[|i]]]; simplify_eq/=; lia.
  - split_and!; [reflexivity | reflexivity | done | by apply Hd].
Defined.

Lemma Enum_ctor_get_enum_witness :
  ∃ vars' e,
    Enum_ctor sample_valid_name circuit (Some 0%nat) "state"
      [("IDLE", 0); ("BUSY", 1)] 2 = Ok (vars', e)
    ∧ (∃ p c, Enum_get_enum e "BUSY" = Ok p ∧ vars' !! p = Some c
              ∧ cls c = CConst 1 (EnumConst "state"))
    ∧ Enum_get_enum e "DONE" = Throw (UserException "Cannot find {0} in {1}").
Proof.
  destruct (Enum_ctor_get_enum sample_valid_name circuit (Some 0%nat) "state"
              [("IDLE", 0); ("BUSY", 1)] 2) as (H & _); [lia | |].
  { cbn. repeat constructor; intros Hin.
    - by apply list_elem_of_singleton in Hin.
    - by apply elem_of_nil in Hin. }
  destruct H as (vars' & e & Hrun & _ & _ & _ & Hget & Hmiss).
  { intros n v Hin. apply list_elem_of_lookup in Hin as [i Hi].
    destruct i as [|[|i]]; simplify_eq/=; (split; [lia | reflexivity]). }
  exists vars', e. split; [done|]. split.
  - destruct (Hget "BUSY" 1) as (p & c & H1 & H2 & H3 & _); [right; by left|].
    by exists p, c.
  - apply Hmiss. cbn. intros Hin. apply elem_of_cons in Hin as [|Hin]; [done|].
    by apply list_elem_of_singleton in Hin.
Defined.

Lemma FunctionCallVar_ctor_checks_witness :
  succeeds (FunctionCallVar_ctor sample_valid_name circuit (Some 0%nat)
              sample_function {["x" := 2%nat]} true)
  ∧ FunctionCallVar_ctor sample_valid_name circuit (Some 0%nat) sample_function ∅ true
    = Throw (VarException "{0} is not connected" [0%nat])
  ∧ FunctionCallVar_ctor sample_valid_name circuit (Some 0%nat)
      sample_function {["x" := 1%nat]} true
    = Throw (VarException "{0}'s width doesn't match" [0%nat; 1%nat]).
Proof.
  destruct (FunctionCallVar_ctor_checks sample_valid_name eq_refl circuit
              (Some 0%nat) sample_function {["x" := 2%nat]}) as (_ & H1); [done|].
  destruct (FunctionCallVar_ctor_checks sample_valid_name eq_refl circuit
              (Some 0%nat) sample_function ∅) as (H2 & _); [done|].
  destruct (FunctionCallVar_ctor_checks sample_valid_name eq_refl circuit
              (Some 0%nat) sample_function {["x" := 1%nat]}) as (H3 & _); [done|].
  split_and!.
  - destruct H1 as (_ & H1).
    { repeat constructor. exists 2%nat, (signal "a" 8 [1] false), (signal "x" 8 [1] false).
      split_and!; reflexivity. }
    destruct H1 as (_ & H1); [reflexivity|].
    destruct (H1 2%nat (signal "x" 8 [1] false)) as (node & -> & _);
      [reflexivity | reflexivity |]. by eexists.
  - apply (H2 [] "x" 0%nat [] true); [reflexivity | constructor | reflexivity].
  - destruct (H3 [] "x" 0%nat [] true) as (_ & H); [reflexivity | constructor |].
    apply (H 1%nat (signal "a" 8 [1] false) (signal "b" 4 [1] false));
      [reflexivity | reflexivity | reflexivity | evaluated].
Defined.

Lemma expr_to_string_grouping_witness :
  Expr_to_string sample_ExprOpStr (Var_to_string grouping_circuit)
    (λ _, Var_to_string grouping_circuit) (λ _, Var_to_string grouping_circuit)
    2 grouping_circuit 4 = Ok "a - b - c"
  ∧ Expr_to_string sample_ExprOpStr (Var_to_string grouping_circuit)
      (λ _, Var_to_string grouping_circuit) (λ _, Var_to_string grouping_circuit)
      2 grouping_circuit 6 = Ok "a - b - c".
Proof.
  destruct (expr_to_string_grouping sample_ExprOpStr (Var_to_string grouping_circuit)
              (λ _, Var_to_string grouping_circuit)
              (λ _, Var_to_string grouping_circuit) 0 grouping_circuit Minus Minus
              0 1 2 3 4 5 6
              (signal "a" 8 [1] false) (signal "b" 8 [1] false) (signal "c" 8 [1] false)
              (operator_node {| Expr.op := Minus; Expr.left := 1; Expr.right := Some 2%nat |} PlainExpr 8)
              (operator_node {| Expr.op := Minus; Expr.left := 0; Expr.right := Some 3%nat |} PlainExpr 8)
              (operator_node {| Expr.op := Minus; Expr.left := 0; Expr.right := Some 1%nat |} PlainExpr 8)
              (operator_node {| Expr.op := Minus; Expr.left := 5; Expr.right := Some 2%nat |} PlainExpr 8)
              PlainExpr PlainExpr PlainExpr PlainExpr "a" "b" "c")
    as (H1 & H2 & _); [done..|].
  split; [exact H1 | exact H2].
Defined.

Lemma get_slice_name_inj_witness :
  get_slice_name "a" 7 4 = get_slice_name "a" 7 4 ∧ 7 = 7 ∧ 4 = 4.
Proof.
  split; [reflexivity|].
  apply (get_slice_name_inj "a" 7 4 7 4); [lia | lia | lia | lia | reflexivity].
Defined.

Lemma echo_lines_window_witness :
  echo_lines 1 0 ["l1"; "l2"; "l3"; "l4"; "l5"; "l6"] = [red_line "l1"]
  ∧ echo_lines 4 0 ["l1"; "l2"; "l3"; "l4"; "l5"; "l6"]
    = [green_line "l2"; green_line "l3"; red_line "l4"; green_line "l5";
       green_line "l6"].
Proof.
  destruct (echo_lines_window ["l1"; "l2"; "l3"; "l4"; "l5"; "l6"]) as (H1 & H2);
    [cbn; lia|].
  split; [exact H1|]. apply (H2 4%nat); lia.
Defined.

Lemma Var_unassign_effect_witness :
  ∃ vars' gens' tv',
    Var_unassign sample_remove_stmt wired wired_stmts wired_scopes 0 0 = Ok (vars', gens')
    ∧ vars' !! 0%nat = Some tv' ∧ 0%nat ∉ sources_ tv'.
Proof.
  destruct (Var_unassign sample_remove_stmt wired wired_stmts wired_scopes 0 0)
    as [[vars' gens']| |] eqn:E; [|vm_compute in E; discriminate..].
  destruct (Var_unassign_effect sample_remove_stmt wired wired_stmts wired_scopes 0 0
              {| AssignStmt.left_ := 0%nat; AssignStmt.right_ := 2%nat;
                 AssignStmt.assign_type_ := Undefined;
                 AssignStmt.parent := Some 0%nat |} vars' gens' eq_refl E)
    as ((tv' & H1 & H2) & _).
  by exists vars', gens', tv'.
Defined.

Lemma set_var_parent_checks_witness :
  set_var_parent sample_valid_name 3 circuit_views 12 1 2 true
  = Throw (InternalException "Target not found")
  ∧ set_var_parent sample_valid_name 3 circuit_views 12 1 2 false
    = Ok (circuit_views, 12%nat).
Proof.
  destruct (set_var_parent_checks sample_valid_name circuit_views 12 0 2 1 2 3)
    as (H & _); [|lia|by apply H].
  eapply slice_chain_step; [by vm_compute | reflexivity | reflexivity |].
  eapply slice_chain_step; [by vm_compute | reflexivity | reflexivity |].
  eapply slice_chain_root; [reflexivity | done].
Defined.

Lemma stmt_set_target_not_found_witness :
  stmt_set_left sample_valid_name 1 wired wired_stmts 0 3 1
  = Throw (InternalException "Target not found")
  ∧ stmt_set_right sample_valid_name 1 wired wired_stmts 0 3 1
    = Throw (InternalException "Target not found").
Proof.
  destruct (stmt_set_target_not_found sample_valid_name wired wired_stmts 0 3 1 1
              {| AssignStmt.left_ := 0%nat; AssignStmt.right_ := 2%nat;
                 AssignStmt.assign_type_ := Undefined;
                 AssignStmt.parent := Some 0%nat |} eq_refl) as (HL & HR).
  split.
  - by apply (HL (with_sources {[0%nat; 1%nat]} (signal "a" 8 [1] false))).
  - by apply (HR (with_sinks {[0%nat]} (signal "x" 8 [1] false))).
Defined.

Lemma PackedSlice_set_up_layout_witness :
  PackedSlice_set_up sample_struct "payload" = Ok (11, 4, true)
  ∧ PackedSlice_set_up sample_struct "crc"
    = Throw (InternalException "{0} does not exist in {1}").
Proof.
  destruct (PackedSlice_set_up_layout sample_struct "payload") as (_ & _ & H).
  destruct (PackedSlice_set_up_layout sample_struct "crc") as (H' & _).
  split.
  - apply (H [("tag", 4, false)] 8 true [("valid", 1, false)]);
      [reflexivity | | | lia | evaluated].
    + cbn. intros Hin. by apply list_elem_of_singleton in Hin.
    + intros d Hd. apply list_elem_of_singleton in Hd as ->. cbn. lia.
  - apply H'. evaluated.
Defined.

Lemma Var_handle_name_scope_strips_witness :
  Var_handle_name_scope "top" (Var_handle_name "top" "a") = ScopedName "a"
  ∧ Var_handle_name_scope "top" "topaz" = ScopedName "z"
  ∧ Var_handle_name_scope "top" "other.a" = NotAccessible.
Proof.
  destruct (Var_handle_name_scope_strips "top") as (H1 & H2 & H3 & _).
  split_and!.
  - by apply H1.
  - exact (H2 (Ascii.ascii_of_nat 97) "z").
  - by apply H3.
Defined.

(** * Assignments and parameter chains *)

Section ParameterChains.
Variable is_valid_variable_name : string → bool.





End ParameterChains.

Section Registration.

Lemma same_shape_refl a : same_shape a a.
Proof. by intros q. Qed.

Lemma same_shape_sym a b : same_shape a b → same_shape b a.
Proof. intros H q. destruct (H q). by split. Qed.

Lemma same_shape_lookup a b q v :
  same_shape a b → a !! q = Some v →
  ∃ v', b !! q = Some v' ∧ cls v' = cls v ∧ type_ v' = type_ v.
Proof.
  intros H Hq. destruct (H q) as [Hc Ht]. rewrite Hq in Hc, Ht.
  destruct (b !! q) as [v'|]; [|done]. cbn in Hc, Ht.
  exists v'. split; [done|]. split; congruence.
Qed.

Lemma link_reg_shape stmt R W a b : link_reg stmt R W a b → same_shape a b.
Proof.
  intros [Hlen H] q. destruct (a !! q) as [v|] eqn:Hq.
  - destruct (H q v Hq) as (v' & -> & Hc & Ht & _). cbn. by rewrite Hc, Ht.
  - apply lookup_ge_None in Hq. rewrite <-Hlen in Hq.
    apply lookup_ge_None in Hq. by rewrite Hq.
Qed.

Lemma link_reg_refl stmt a : link_reg stmt (λ _, False) (λ _, False) a a.
Proof. split; [done|]. intros q v Hq. exists v. split_and!; done. Qed.

Lemma link_reg_weaken stmt (R R' W W' : nat → Prop) a b :
  link_reg stmt R W a b →
  (∀ q, R' q ↔ R q) → (∀ q, W' q ↔ W q) →
  link_reg stmt R' W' a b.
Proof.
  intros [Hlen H] HR HW. split; [done|]. intros q v Hq.
  destruct (H q v Hq) as (v' & Hq' & Hc & Ht & Hg & Hs1 & Hs2 & Hr1 & Hr2 & Hw1 & Hw2).
  exists v'. split_and!; try done.
  - intros Hin. apply Hr1. by apply HR.
  - intros Hn. apply Hr2. intros Hin. apply Hn. by apply HR.
  - intros Hin. apply Hw1. by apply HW.
  - intros Hn. apply Hw2. intros Hin. apply Hn. by apply HW.
Qed.

Lemma link_reg_trans stmt (R1 R2 W1 W2 : nat → Prop) a b c :
  link_reg stmt R1 W1 a b → link_reg stmt R2 W2 b c →
  link_reg stmt (λ q, R1 q ∨ R2 q) (λ q, W1 q ∨ W2 q) a c.
Proof.
  intros [Hl1 H1] [Hl2 H2]. split; [congruence|]. intros q v Hq.
  destruct (H1 q v Hq) as (v1 & Hq1 & Hc1 & Ht1 & Hg1 & Hs1 & Hd1 & Hr1 & Hn1 & Hw1 & Hm1).
  destruct (H2 q v1 Hq1) as (v2 & Hq2 & Hc2 & Ht2 & Hg2 & Hs2 & Hd2 & Hr2 & Hn2 & Hw2 & Hm2).
  exists v2. split_and!; try congruence.
  - intros Hnc. rewrite Hg2, Hg1; [done..|]. intros value sub. rewrite Hc1. apply Hnc.
  - by etrans.
  - by etrans.
  - intros [Hin|Hin]; [apply Hs2; by apply Hr1|by apply Hr2].
  - intros Hn. rewrite Hn2, Hn1; [done|tauto..].
  - intros [Hin|Hin]; [apply Hd2; by apply Hw1|by apply Hw2].
  - intros Hn. rewrite Hm2, Hm1; [done|tauto..].
Qed.

Lemma link_reg_update stmt (R W : nat → Prop) vars w f :
  (∀ v, cls (f v) = cls v ∧ type_ (f v) = type_ v
        ∧ ((∀ value sub, cls v ≠ CConst value sub) → generator (f v) = generator v)
        ∧ sinks_ v ⊆ sinks_ (f v) ∧ sources_ v ⊆ sources_ (f v)
        ∧ (R w → stmt ∈ sinks_ (f v)) ∧ (¬ R w → sinks_ (f v) = sinks_ v)
        ∧ (W w → stmt ∈ sources_ (f v)) ∧ (¬ W w → sources_ (f v) = sources_ v)) →
  (∀ q, R q → q = w) → (∀ q, W q → q = w) →
  link_reg stmt R W vars (update vars w f).
Proof.
  intros Hf HR HW. split; [apply update_length|]. intros q v Hq.
  rewrite update_lookup. case_decide as Hw.
  - subst q. rewrite Hq. cbn. exists (f v). split; [done|]. apply Hf.
  - exists v. split; [done|]. split_and!; try done.
    + intros Hin. destruct Hw. symmetry. by apply HR.
    + intros Hin. destruct Hw. symmetry. by apply HW.
Qed.

Lemma slice_chain_shape a b p q k :
  same_shape a b → slice_chain a p q k → slice_chain b p q k.
Proof.
  intros H. induction 1 as [p v Hp Ht|p v s sub q k Hp Ht Hc _ IH].
  - destruct (same_shape_lookup _ _ _ _ H Hp) as (v' & Hp' & _ & Ht').
    eapply slice_chain_root; [exact Hp'|]. by rewrite Ht'.
  - destruct (same_shape_lookup _ _ _ _ H Hp) as (v' & Hp' & Hc' & Ht').
    eapply slice_chain_step; [exact Hp'|by rewrite Ht'|by rewrite Hc'|done].
Qed.

Lemma slice_chain_inj vars p q k q' k' :
  slice_chain vars p q k → slice_chain vars p q' k' → q = q' ∧ k = k'.
Proof.
  intros H. revert q' k'.
  induction H as [p v Hp Ht|p v s sub q k Hp Ht Hc _ IH]; intros q' k' H'.
  - inversion H' as [? v' Hp' Ht'|? v' s' sub' ? ? Hp' Ht' Hc' Hch]; subst; [done|].
    congruence.
  - inversion H' as [? v' Hp' Ht'|? v' s' sub' ? ? Hp' Ht' Hc' Hch]; subst; [congruence|].
    rewrite Hp in Hp'. injection Hp' as <-. rewrite Hc in Hc'. injection Hc' as <- <-.
    destruct (IH _ _ Hch) as [-> ->]. done.
Qed.

Lemma sink_operands_shape a b v v' ops k :
  same_shape a b → cls v' = cls v →
  sink_operands a v ops k → sink_operands b v' ops k.
Proof.
  intros H Hc. destruct 1; rewrite <-Hc in *.
  - by apply sink_operands_expr.
  - by eapply sink_operands_conditional.
  - by eapply sink_operands_concat.
  - by eapply sink_operands_extend.
  - by eapply sink_operands_casted.
  - eapply sink_operands_slice; [done|]. by eapply slice_chain_shape.
Qed.

Lemma sink_operands_inj vars v ops k ops' k' :
  sink_operands vars v ops k → sink_operands vars v ops' k' → ops = ops' ∧ k = k'.
Proof.
  destruct 1 as [e He|e c r He Hr|e vs He|e p He|p ct He|s sub q k He Hch];
    inversion 1 as [e' He'|e' c' r' He' Hr'|e' vs' He'|e' p' He'|p' ct' He'
                   |s' sub' q' k'' He' Hch']; subst; try congruence.
  - rewrite He in He'. by injection He' as <-.
  - rewrite He in He'. injection He' as <- <-. rewrite Hr in Hr'. by injection Hr' as <-.
  - rewrite He in He'. by injection He' as <- <-.
  - rewrite He in He'. by injection He' as <- <-.
  - rewrite He in He'. by injection He' as <- <-.
  - rewrite He in He'. injection He' as <- <-.
    destruct (slice_chain_inj _ _ _ _ _ _ Hch Hch') as [-> ->]. done.
Qed.

Lemma sink_operands_not_plain vars v ops k :
  sink_operands vars v ops k → ¬ plain_signal v.
Proof. destruct 1; intros [?|[? ?]]; congruence. Qed.

Lemma sink_tree_shape a b w d :
  same_shape a b → sink_tree a w d → sink_tree b w d.
Proof.
  intros H. induction 1 as [r v d Hr Hp|r v value sub d Hr Hc|w v ops k d Hw Hops Hk _ IH].
  - destruct (same_shape_lookup _ _ _ _ H Hr) as (v' & Hr' & Hc' & _).
    eapply sink_tree_plain; [done|]. by eapply plain_signal_cls.
  - destruct (same_shape_lookup _ _ _ _ H Hr) as (v' & Hr' & Hc' & _).
    eapply sink_tree_const; [done|]. by rewrite Hc'.
  - destruct (same_shape_lookup _ _ _ _ H Hw) as (v' & Hw' & Hc' & _).
    eapply sink_tree_node; [done| |done|done]. by eapply sink_operands_shape.
Qed.

Lemma sink_leaf_shape a b w r :
  same_shape a b → sink_leaf a w r → sink_leaf b w r.
Proof.
  intros H. induction 1 as [r v Hr Hp|w v ops k x r Hw Hops Hx _ IH].
  - destruct (same_shape_lookup _ _ _ _ H Hr) as (v' & Hr' & Hc' & _).
    eapply sink_leaf_self; [done|]. by eapply plain_signal_cls.
  - destruct (same_shape_lookup _ _ _ _ H Hw) as (v' & Hw' & Hc' & _).
    eapply sink_leaf_step; [done| |done|done]. by eapply sink_operands_shape.
Qed.

Lemma sink_leaf_plain vars r v q :
  vars !! r = Some v → plain_signal v → sink_leaf vars r q ↔ q = r.
Proof.
  intros Hr Hp. split.
  - inversion 1 as [|? v' ops k x ? Hr' Hops]; [done|]. simplify_eq.
    by destruct (sink_operands_not_plain _ _ _ _ Hops).
  - intros ->. by eapply sink_leaf_self.
Qed.

Lemma sink_leaf_const vars r v value sub q :
  vars !! r = Some v → cls v = CConst value sub → ¬ sink_leaf vars r q.
Proof.
  intros Hr Hc. inversion 1 as [? v' Hr' Hp|? v' ops k x ? Hr' Hops]; simplify_eq.
  - destruct Hp as [?|[? ?]]; congruence.
  - destruct Hops; congruence.
Qed.

Lemma sink_leaf_node vars w v ops k q :
  vars !! w = Some v → sink_operands vars v ops k →
  sink_leaf vars w q ↔ ∃ x, x ∈ ops ∧ sink_leaf vars x q.
Proof.
  intros Hw Hops. split.
  - inversion 1 as [? v' Hr Hp|? v' ops' k' x ? Hw' Hops' Hx Hl]; simplify_eq.
    + by destruct (sink_operands_not_plain _ _ _ _ Hops).
    + destruct (sink_operands_inj _ _ _ _ _ _ Hops Hops') as [-> _]. eauto.
  - intros (x & Hx & Hl). by eapply sink_leaf_step.
Qed.

Lemma source_tree_shape a b w d :
  same_shape a b → source_tree a w d → source_tree b w d.
Proof.
  intros H. induction 1 as [r v d Hr Hp|w v s sub q k d Hw Hc Hch Hk _ IH].
  - destruct (same_shape_lookup _ _ _ _ H Hr) as (v' & Hr' & Hc' & _).
    eapply source_tree_plain; [done|]. by eapply plain_signal_cls.
  - destruct (same_shape_lookup _ _ _ _ H Hw) as (v' & Hw' & Hc' & _).
    eapply source_tree_slice; [done|by rewrite Hc'|by eapply slice_chain_shape|done|done].
Qed.

Lemma source_leaf_shape a b w r :
  same_shape a b → source_leaf a w r → source_leaf b w r.
Proof.
  intros H. induction 1 as [r v Hr Hp|w v s sub q k x r Hw Hc Hch Hx _ IH].
  - destruct (same_shape_lookup _ _ _ _ H Hr) as (v' & Hr' & Hc' & _).
    eapply source_leaf_self; [done|]. by eapply plain_signal_cls.
  - destruct (same_shape_lookup _ _ _ _ H Hw) as (v' & Hw' & Hc' & _).
    eapply source_leaf_step; [done|by rewrite Hc'|by eapply slice_chain_shape|done|done].
Qed.

Lemma source_leaf_plain vars r v q :
  vars !! r = Some v → plain_signal v → source_leaf vars r q ↔ q = r.
Proof.
  intros Hr Hp. split.
  - inversion 1 as [|? v' s sub q' k x ? Hr' Hc]; [done|]. simplify_eq.
    destruct Hp as [?|[? ?]]; congruence.
  - intros ->. by eapply source_leaf_self.
Qed.

Lemma source_leaf_slice vars w v s sub q' k q :
  vars !! w = Some v → cls v = CSlice s sub →
  slice_chain vars (VarSlice.parent_var s) q' k →
  source_leaf vars w q ↔ ∃ x, x ∈ q' :: slice_index sub ∧ source_leaf vars x q.
Proof.
  intros Hw Hc Hch. split.
  - inversion 1 as [? v' Hr Hp|? v' s' sub' q'' k' x ? Hw' Hc' Hch' Hx Hl]; simplify_eq.
    + destruct Hp as [?|[? ?]]; congruence.
    + rewrite Hc in Hc'. injection Hc' as <- <-.
      destruct (slice_chain_inj _ _ _ _ _ _ Hch Hch') as [-> _]. eauto.
  - intros (x & Hx & Hl). by eapply source_leaf_step.
Qed.

Lemma scoped_reg stmt R W a b l g :
  link_reg stmt R W a b → scoped a l g → scoped b l g.
Proof.
  intros [_ H] (lv & Hl & Hnc & Hg).
  destruct (H l lv Hl) as (lv' & Hl' & Hc & _ & Hg' & _).
  exists lv'. split; [done|]. split; [intros value sub; rewrite Hc; apply Hnc|].
  by rewrite Hg'.
Qed.


Lemma add_sink_node stmts gens vars w v ops k stmt n :
  vars !! w = Some v → sink_operands vars v ops k → (k ≤ n)%nat →
  add_sink (S n) stmts gens vars w stmt =
    foldM (λ vars' x, add_sink n stmts gens vars' x stmt) ops vars.
Proof.
  intros Hw Hops Hk. cbn [add_sink]. rewrite (deref_lookup _ _ _ Hw).
  cbn [mbind result_bind].
  destruct Hops as [e He|e c r He Hr|e vs He|e p He|p ct He|s sub q k He Hch];
    rewrite He.
  - cbn [foldM]. destruct (add_sink n stmts gens vars (Expr.left e) stmt) as [vars1| |];
      cbn [mbind result_bind]; [|done..].
    destruct (Expr.right e) as [r|]; cbn [foldM]; [|done].
    by destruct (add_sink n stmts gens vars1 r stmt).
  - rewrite Hr. cbn [foldM].
    destruct (add_sink n stmts gens vars c stmt) as [vars1| |];
      cbn [mbind result_bind]; [|done..].
    destruct (add_sink n stmts gens vars1 (Expr.left e) stmt) as [vars2| |];
      cbn [mbind result_bind]; [|done..].
    by destruct (add_sink n stmts gens vars2 r stmt).
  - done.
  - cbn [foldM]. by destruct (add_sink n stmts gens vars p stmt).
  - cbn [foldM]. by destruct (add_sink n stmts gens vars p stmt).
  - rewrite (slice_root_chain _ _ _ _ Hch) by lia. cbn [mbind result_bind foldM].
    destruct (add_sink n stmts gens vars q stmt) as [vars1| |];
      cbn [mbind result_bind]; [|done..].
    destruct sub as [|i]; cbn [slice_index foldM]; [done|].
    by destruct (add_sink n stmts gens vars1 i stmt).
Qed.

Lemma add_source_slice vars w v s sub q k stmt n :
  vars !! w = Some v → cls v = CSlice s sub →
  slice_chain vars (VarSlice.parent_var s) q k → (k ≤ n)%nat →
  add_source (S n) vars w stmt =
    foldM (λ vars' x, add_source n vars' x stmt) (q :: slice_index sub) vars.
Proof.
  intros Hw Hc Hch Hk. cbn [add_source]. rewrite (deref_lookup _ _ _ Hw).
  cbn [mbind result_bind]. rewrite Hc.
  rewrite (slice_root_chain _ _ _ _ Hch) by lia. cbn [mbind result_bind foldM].
  destruct (add_source n vars q stmt) as [vars1| |]; cbn [mbind result_bind]; [|done..].
  destruct sub as [|i]; cbn [slice_index foldM]; [done|].
  by destruct (add_source n vars1 i stmt).
Qed.

(** A sink notification of a well-formed operand returns and registers the
    statement on exactly the plain signals under the operand. *)
Lemma add_sink_reg stmts gens stmt s g gn :
  stmts !! stmt = Some s → gens !! g = Some gn →
  ∀ d vars w fuel, sink_tree vars w d → (d ≤ fuel)%nat →
    scoped vars (AssignStmt.left_ s) g →
    ∃ vars', add_sink fuel stmts gens vars w stmt = Ok vars'
      ∧ link_reg stmt (sink_leaf vars w) (λ _, False) vars vars'.
Proof.
  intros Hs Hgn. induction d as [|d IH]; intros vars w fuel Ht Hf Hsc; [inversion Ht|].
  destruct fuel as [|n]; [lia|].
  inversion Ht as [r v d' Hr Hp|r v value sub d' Hr Hc|w' v ops k d' Hw Hops Hk Hall];
    simplify_eq.
  - exists (update vars w (Var_add_sink stmt)). split.
    { cbn [add_sink]. rewrite (deref_lookup _ _ _ Hr). cbn [mbind result_bind].
      by destruct Hp as [->|[t ->]]. }
    assert (Hreg : link_reg stmt (λ q, q = w) (λ _, False) vars
                     (update vars w (Var_add_sink stmt))).
    { apply link_reg_update; [|done|done].
      intros x. cbn. split_and!; try done.
      + apply union_subseteq_r.
      + intros _. apply elem_of_add. }
    eapply link_reg_weaken; [exact Hreg| |intros q; reflexivity].
    intros q. by apply sink_leaf_plain with v.
  - destruct Hsc as (lv & Hl & Hnc & Hg).
    assert (Hrun : add_sink (S n) stmts gens vars w stmt =
                   Ok (match Generator.parent gn with
                       | Some gp => update vars w (with_generator (Some gp))
                       | None => vars
                       end)).
    { cbn [add_sink]. rewrite (deref_lookup _ _ _ Hr). cbn [mbind result_bind].
      rewrite Hc. unfold Const_add_sink. rewrite (deref_lookup _ _ _ Hs).
      cbn [mbind result_bind]. rewrite (deref_lookup _ _ _ Hl).
      cbn [mbind result_bind]. rewrite Hg. rewrite (deref_lookup _ _ _ Hgn).
      cbn [mbind result_bind]. by destruct (Generator.parent gn). }
    eexists. split; [exact Hrun|].
    assert (Hreg : link_reg stmt (λ _, False) (λ _, False) vars
                     (match Generator.parent gn with
                      | Some gp => update vars w (with_generator (Some gp))
                      | None => vars
                      end)).
    { destruct (Generator.parent gn) as [gp|]; [|apply link_reg_refl].
      split; [apply update_length|]. intros q x Hq.
      rewrite update_lookup. case_decide as Hw.
      + subst q. rewrite Hq. cbn. eexists. split; [done|]. cbn.
        split_and!; try done. intros Hnc'. rewrite Hr in Hq. injection Hq as <-.
        by destruct (Hnc' value sub).
      + exists x. split_and!; done. }
    eapply link_reg_weaken; [exact Hreg| |intros q; reflexivity].
    intros q. split; [|done]. by eapply sink_leaf_const.
  - rewrite (add_sink_node _ _ _ _ _ _ _ _ _ Hw Hops) by lia.
    assert (Hgoal : ∃ vars', foldM (λ vars' x, add_sink n stmts gens vars' x stmt) ops vars
                             = Ok vars'
              ∧ link_reg stmt (λ q, ∃ x, x ∈ ops ∧ sink_leaf vars x q) (λ _, False)
                  vars vars').
    { clear Hops Hw Ht. revert vars Hall Hsc.
      induction ops as [|x ops IHops]; intros vars Hall Hsc.
      - exists vars. split; [done|].
        eapply link_reg_weaken; [apply link_reg_refl| |intros q; reflexivity].
        intros q. split; [|done]. intros (x & Hx & _). by apply elem_of_nil in Hx.
      - cbn [foldM].
        destruct (IH vars x n) as (vars1 & H1 & R1); [apply Hall; by left|lia|done|].
        rewrite H1. cbn [mbind result_bind].
        pose proof (link_reg_shape _ _ _ _ _ R1) as Hsh.
        destruct (IHops vars1) as (vars2 & H2 & R2).
        { intros y Hy. eapply sink_tree_shape; [exact Hsh|]. apply Hall. by right. }
        { by eapply scoped_reg. }
        exists vars2. split; [done|].
        eapply link_reg_weaken; [eapply link_reg_trans; [exact R1|exact R2]| |].
        + intros q. split.
          * intros (y & Hy & H). apply elem_of_cons in Hy as [->|Hy]; [by left|].
            right. exists y. split; [done|]. by eapply sink_leaf_shape.
          * intros [H|(y & Hy & H)].
            -- exists x. split; [by left|done].
            -- exists y. split; [by right|].
               eapply sink_leaf_shape; [apply same_shape_sym; exact Hsh|done].
        + intros q. tauto. }
    destruct Hgoal as (vars' & Hrun & Hreg). exists vars'. split; [done|].
    eapply link_reg_weaken; [exact Hreg| |intros q; reflexivity].
    intros q. by eapply sink_leaf_node.
Qed.

(** A source notification of a well-formed target returns and registers the
    statement on exactly the plain signals under the target. *)
Lemma add_source_reg stmt :
  ∀ d vars w fuel, source_tree vars w d → (d ≤ fuel)%nat →
    ∃ vars', add_source fuel vars w stmt = Ok vars'
      ∧ link_reg stmt (λ _, False) (source_leaf vars w) vars vars'.
Proof.
  induction d as [|d IH]; intros vars w fuel Ht Hf; [inversion Ht|].
  destruct fuel as [|n]; [lia|].
  inversion Ht as [r v d' Hr Hp|w' v s sub q k d' Hw Hc Hch Hk Hall]; simplify_eq.
  - exists (update vars w (Var_add_source stmt)). split.
    { cbn [add_source]. rewrite (deref_lookup _ _ _ Hr). cbn [mbind result_bind].
      by destruct Hp as [->|[t ->]]. }
    assert (Hreg : link_reg stmt (λ _, False) (λ q, q = w) vars
                     (update vars w (Var_add_source stmt))).
    { apply link_reg_update; [|done|done].
      intros x. cbn. split_and!; try done.
      + apply union_subseteq_r.
      + intros _. apply elem_of_add. }
    eapply link_reg_weaken; [exact Hreg|intros q; reflexivity|].
    intros q. by apply source_leaf_plain with v.
  - rewrite (add_source_slice _ _ _ _ _ _ _ _ _ Hw Hc Hch) by lia.
    assert (Hgoal : ∀ ops, ∀ vars, (∀ x, x ∈ ops → source_tree vars x d) →
              ∃ vars', foldM (λ vars' x, add_source n vars' x stmt) ops vars = Ok vars'
                ∧ link_reg stmt (λ _, False) (λ q, ∃ x, x ∈ ops ∧ source_leaf vars x q)
                    vars vars').
    { clear -IH Hf. intros ops. induction ops as [|x ops IHops]; intros vars Hall.
      - exists vars. split; [done|].
        eapply link_reg_weaken; [apply link_reg_refl|intros q; reflexivity|].
        intros q. split; [|done]. intros (x & Hx & _). by apply elem_of_nil in Hx.
      - cbn [foldM].
        destruct (IH vars x n) as (vars1 & H1 & R1); [apply Hall; by left|lia|].
        rewrite H1. cbn [mbind result_bind].
        pose proof (link_reg_shape _ _ _ _ _ R1) as Hsh.
        destruct (IHops vars1) as (vars2 & H2 & R2).
        { intros y Hy. eapply source_tree_shape; [exact Hsh|]. apply Hall. by right. }
        exists vars2. split; [done|].
        eapply link_reg_weaken; [eapply link_reg_trans; [exact R1|exact R2]| |].
        + intros q. tauto.
        + intros q. split.
          * intros (y & Hy & H). apply elem_of_cons in Hy as [->|Hy]; [by left|].
            right. exists y. split; [done|]. by eapply source_leaf_shape.
          * intros [H|(y & Hy & H)].
            -- exists x. split; [by left|done].
            -- exists y. split; [by right|].
               eapply source_leaf_shape; [apply same_shape_sym; exact Hsh|done]. }
    destruct (Hgoal _ vars Hall) as (vars' & Hrun & Hreg).
    exists vars'. split; [done|].
    eapply link_reg_weaken; [exact Hreg|intros r; reflexivity|].
    intros r. by eapply source_leaf_slice.
Qed.

Lemma sink_leaf_target vars w r :
  sink_leaf vars w r → ∃ v, vars !! r = Some v ∧ plain_signal v.
Proof. induction 1; eauto. Qed.

Lemma source_leaf_target vars w r :
  source_leaf vars w r → ∃ v, vars !! r = Some v ∧ plain_signal v.
Proof. induction 1; eauto. Qed.

Lemma source_tree_not_const vars w d v value sub :
  source_tree vars w d → vars !! w = Some v → cls v ≠ CConst value sub.
Proof.
  inversion 1 as [r v' d' Hr Hp|w' v' s sub' q k d' Hw Hc]; intros Hv; simplify_eq.
  - destruct Hp as [?|[? ?]]; congruence.
  - congruence.
Qed.

Lemma AssignStmt_ctor_reg gens vars stmts this var type fuel v dt d g gn :
  vars !! this = Some v →
  source_tree vars this dt → sink_tree vars var d → (dt ≤ fuel)%nat → (d ≤ fuel)%nat →
  generator v = Some g → gens !! g = Some gn →
  ∃ vars',
    AssignStmt_ctor fuel gens vars stmts this var type =
      Ok (vars',
          stmts ++ [{| AssignStmt.left_ := this; AssignStmt.right_ := var;
                       AssignStmt.assign_type_ := type; AssignStmt.parent := None |}],
          length stmts)
    ∧ link_reg (length stmts) (sink_leaf vars var) (source_leaf vars this) vars vars'.
Proof.
  intros Hv Hsrc Hsnk Hdt Hd Hg Hgn. unfold AssignStmt_ctor. cbn [alloc].
  destruct (add_sink_reg (stmts ++ [{| AssignStmt.left_ := this; AssignStmt.right_ := var;
                                       AssignStmt.assign_type_ := type;
                                       AssignStmt.parent := None |}])
              gens (length stmts) _ g gn (lookup_alloc_new stmts _) Hgn d vars var fuel
              Hsnk Hd) as (vars1 & H1 & R1).
  { exists v. split; [done|]. split; [|done].
    intros value sub. by eapply source_tree_not_const. }
  rewrite H1. cbn [mbind result_bind].
  pose proof (link_reg_shape _ _ _ _ _ R1) as Hsh.
  destruct (add_source_reg (length stmts) dt vars1 this fuel) as (vars2 & H2 & R2);
    [by eapply source_tree_shape|done|].
  rewrite H2. cbn [mbind result_bind mret result_ret].
  exists vars2. split; [done|].
  eapply link_reg_weaken; [eapply link_reg_trans; [exact R1|exact R2]| |].
  - intros q. tauto.
  - intros q. split.
    + intros H. right. by eapply source_leaf_shape.
    + intros [[]|H]. eapply source_leaf_shape; [apply same_shape_sym; exact Hsh|done].
Qed.

(** C4 (as amended).  Assigning to a constant, to an expression node, or to
    an enum variable from a source that is not of the same named enum type
    throws.  Assigning to a well-formed target (a plain signal, an enum
    variable given a source of its own enum type, or a slice of a plain
    signal with bounds or with an index signal) from a well-formed source
    (a signal, a constant, or a view, operator, conditional or concatenation
    over such operands) succeeds, and the new statement is registered on the
    signals under both operands: it joins the source set of every signal
    written through the target and the sink set of every signal read by the
    source.  No other link set changes; in particular a constant in the
    source records nothing.  A cast is never a target: assigning to it
    throws. *)
Theorem assign_checks_and_registers (gens : list Generator.t) (vars : list Var)
    (stmts : list AssignStmt.t) (this var : nat) (v : Var) (type : AssignmentType)
    (fuel : nat) :
  vars !! this = Some v →
  ((∃ value sub, cls v = CConst value sub) → type_ v = ConstValue →
     assign fuel gens vars stmts this var type =
       Throw (VarException "Cannot assign {0} to a const {1}" [this; var]))
  ∧ ((∃ e sub, cls v = CExpr e sub) → type_ v = Expression →
     assign fuel gens vars stmts this var type =
       Throw (VarException "Cannot assign {0} to an expression" [this; var]))
  ∧ (∀ t src, cls v = CEnumVar t → vars !! var = Some src → const_tag_ok src →
       enum_type_of src ≠ Some t →
       throws (assign fuel gens vars stmts this var type))
  ∧ (∀ dt d g gn,
       type_ v ≠ ConstValue → type_ v ≠ Expression →
       source_tree vars this dt → sink_tree vars var d →
       (dt ≤ fuel)%nat → (d ≤ fuel)%nat →
       generator v = Some g → gens !! g = Some gn →
       (∀ t, cls v = CEnumVar t →
          ∃ src, vars !! var = Some src ∧ const_tag_ok src
                 ∧ enum_type_of src = Some t) →
       ∃ vars',
         assign fuel gens vars stmts this var type =
           Ok (vars',
               stmts ++ [{| AssignStmt.left_ := this; AssignStmt.right_ := var;
                            AssignStmt.assign_type_ := type;
                            AssignStmt.parent := None |}],
               length stmts)
         ∧ (∀ q, source_leaf vars this q →
              ∃ tv, vars' !! q = Some tv ∧ length stmts ∈ sources_ tv)
         ∧ (∀ r, sink_leaf vars var r →
              ∃ sv, vars' !! r = Some sv ∧ length stmts ∈ sinks_ sv)
         ∧ (∀ q qv, vars !! q = Some qv →
              ∃ qv', vars' !! q = Some qv' ∧ cls qv' = cls qv
                ∧ (¬ sink_leaf vars var q → sinks_ qv' = sinks_ qv)
                ∧ (¬ source_leaf vars this q → sources_ qv' = sources_ qv))
         ∧ (∀ c cv value sub, vars !! c = Some cv → cls cv = CConst value sub →
              ∃ cv', vars' !! c = Some cv' ∧ sinks_ cv' = sinks_ cv
                     ∧ sources_ cv' = sources_ cv))
  ∧ (∀ p ct, cls v = CCasted p ct →
       assign fuel gens vars stmts this var type =
         Throw (VarException "{0} is not allowed to be a sink" [this])).
Proof.
  intros Hv.
  destruct (assign_along_paths gens vars stmts this var v type fuel Hv)
    as (Hconst & Hexpr & Henum & _).
  split; [exact Hconst|]. split; [exact Hexpr|]. split; [exact Henum|].
  split; [|intros p ct Hc; unfold assign; rewrite (deref_lookup _ _ _ Hv);
           cbn [mbind result_bind]; by rewrite Hc].
  intros dt d g gn Hnc Hne Hsrc Hsnk Hdt Hd Hg Hgn Hen.
  destruct (AssignStmt_ctor_reg gens vars stmts this var type fuel v dt d g gn
              Hv Hsrc Hsnk Hdt Hd Hg Hgn) as (vars' & Hrun & Hlen & Hreg).
  assert (Hvar : Var_assign fuel gens vars stmts this var type =
                 AssignStmt_ctor fuel gens vars stmts this var type).
  { unfold Var_assign. rewrite (deref_lookup _ _ _ Hv). cbn [mbind result_bind].
    by rewrite !bool_decide_eq_false_2. }
  exists vars'. split.
  { rewrite <-Hrun, <-Hvar. unfold assign.
    rewrite (deref_lookup _ _ _ Hv). cbn [mbind result_bind].
    destruct (cls v) as [|t|value sub|e sub|s sub|p ct] eqn:Hc; try done.
    - destruct (Hen t eq_refl) as (src & Hs & Htag & Hty).
      unfold EnumVar_assign. rewrite (deref_lookup _ _ _ Hv), (deref_lookup _ _ _ Hs).
      cbn [mbind result_bind]. rewrite Hc.
      unfold is_enum, enum_type_of in *.
      destruct (cls src) as [|t'|value [|dd|]| | |] eqn:Hcs; try done;
        injection Hty as ->; cbn [negb].
      + assert (type_ src ≠ ConstValue) as Hn.
        { intros H. apply Htag in H as (? & ? & ?). congruence. }
        rewrite (bool_decide_eq_false_2 (type_ src = ConstValue)) by done.
        cbn [mbind result_bind]. by rewrite bool_decide_eq_false_2 by (intros ?; done).
      + assert (type_ src = ConstValue) as Hn by (apply Htag; eauto).
        rewrite (bool_decide_eq_true_2 (type_ src = ConstValue)) by done.
        cbn [mbind result_bind]. by rewrite bool_decide_eq_false_2 by (intros ?; done).
    - inversion Hsrc as [r v' d' Hr Hp|w' v' s sub' q k d' Hw Hc']; simplify_eq.
      + destruct Hp as [?|[? ?]]; congruence.
      + congruence. }
  split_and!.
  - intros q Hq. destruct (source_leaf_target _ _ _ Hq) as (qv & Hqv & _).
    destruct (Hreg q qv Hqv) as (qv' & Hq' & _ & _ & _ & _ & _ & _ & _ & Hin & _). eauto.
  - intros r Hr. destruct (sink_leaf_target _ _ _ Hr) as (rv & Hrv & _).
    destruct (Hreg r rv Hrv) as (rv' & Hr' & _ & _ & _ & _ & _ & Hin & _). eauto.
  - intros q qv Hq.
    destruct (Hreg q qv Hq) as (qv' & Hq' & Hc & _ & _ & _ & _ & _ & Hs1 & _ & Hs2).
    eauto.
  - intros c cv value sub Hc Hcc.
    destruct (Hreg c cv Hc) as (cv' & Hc' & _ & _ & _ & _ & _ & _ & Hs1 & _ & Hs2).
    exists cv'. split; [done|]. split.
    + apply Hs1. intros Hl. destruct (sink_leaf_target _ _ _ Hl) as (x & Hx & [?|[? ?]]);
        congruence.
    + apply Hs2. intros Hl. destruct (source_leaf_target _ _ _ Hl) as (x & Hx & [?|[? ?]]);
        congruence.
Qed.

End Registration.

(** C2 (code bug).  [p] and [q] are arrays of four 8-bit elements, of total
    width 32.  The sum [p + q] keeps the dimension list and takes the total
    width as its element width, so its total width is 128; the comparison
    [p < q] keeps the dimension list too and has total width 4. *)
Theorem Expr_ctor_array_width :
  (width <$> array_circuit !! 0%nat) = Some 32
  ∧ (var_width_ <$> array_circuit !! 0%nat) = Some 8
  ∧ match Expr_ctor sample_valid_name None array_circuit top Add 0 (Some 1%nat) with
    | Ok e => var_width_ e = 32 ∧ size_ e = [4] ∧ width e = 128
    | _ => False
    end
  ∧ match Expr_ctor sample_valid_name None array_circuit top LessThan 0 (Some 1%nat) with
    | Ok e => var_width_ e = 1 ∧ size_ e = [4] ∧ width e = 4
    | _ => False
    end.
Proof. vm_compute. done. Qed.

Lemma assign_checks_and_registers_witness :
  (∃ vars' stmts',
     assign 3 top circuit_views [] 12 9 Undefined = Ok (vars', stmts', 0%nat)
     ∧ (∃ tv, vars' !! 0%nat = Some tv ∧ 0%nat ∈ sources_ tv)
     ∧ (∃ c, vars' !! 9%nat = Some c ∧ sinks_ c = ∅))
  ∧ (∃ vars' stmts',
       assign 3 top expression_circuit [] 1 4 Undefined = Ok (vars', stmts', 0%nat)
       ∧ (∃ sv, vars' !! 2%nat = Some sv ∧ 0%nat ∈ sinks_ sv)
       ∧ (∃ tv, vars' !! 1%nat = Some tv ∧ 0%nat ∈ sources_ tv ∧ 0%nat ∈ sinks_ tv))
  ∧ (∃ vars' stmts',
       assign 1 top enum_circuit [] 0 1 Undefined = Ok (vars', stmts', 0%nat)
       ∧ (∃ sv, vars' !! 1%nat = Some sv ∧ 0%nat ∈ sinks_ sv)).
Proof.
  assert (Hchain : slice_chain circuit_views 11 0 1).
  { eapply slice_chain_step; [reflexivity..|].
    eapply slice_chain_root; [reflexivity|done]. }
  split_and!.
  - destruct (assign_checks_and_registers top circuit_views [] 12 9 _ Undefined 3 eq_refl)
      as (_ & _ & _ & Hreg & _).
    destruct (Hreg 2%nat 1%nat 0%nat
                {| Generator.parent := None; Generator.debug := false; Generator.stmts_ := [] |}
                ltac:(done) ltac:(done))
      as (vars' & Hrun & Hsrc & _ & _ & Hconst);
      [ | |lia|lia|reflexivity|reflexivity|done|].
    { eapply source_tree_slice; [reflexivity|reflexivity|exact Hchain|lia|].
      intros x Hx. apply list_elem_of_singleton in Hx as ->.
      eapply source_tree_plain; [reflexivity|by left]. }
    { eapply sink_tree_const; reflexivity. }
    exists vars'. eexists. split; [exact Hrun|]. split.
    + apply Hsrc. eapply source_leaf_step; [reflexivity|reflexivity|exact Hchain| |].
      * by left.
      * eapply source_leaf_self; [reflexivity|by left].
    + destruct (Hconst 9%nat _ 5 PlainConst eq_refl eq_refl) as (c & Hc & Hs & _).
      by exists c.
  - assert (Hleaf : ∀ r, r ∈ [0%nat; 1%nat; 2%nat] →
                         ∀ d, sink_tree expression_circuit r (S d)
                              ∧ sink_leaf expression_circuit r r).
    { intros r Hr d. apply list_elem_of_lookup in Hr as [i Hi].
      destruct i as [|[|[|i]]]; simplify_eq/=;
        (split; [eapply sink_tree_plain; [reflexivity|by left]
               |eapply sink_leaf_self; [reflexivity|by left]]). }
    destruct (assign_checks_and_registers top expression_circuit [] 1 4 _ Undefined 3
                eq_refl) as (_ & _ & _ & Hreg & _).
    destruct (Hreg 1%nat 3%nat 0%nat
                {| Generator.parent := None; Generator.debug := false; Generator.stmts_ := [] |}
                ltac:(done) ltac:(done))
      as (vars' & Hrun & Hsrc & Hsnk & _);
      [ | |lia|lia|reflexivity|reflexivity|done|].
    { eapply source_tree_plain; [reflexivity|by left]. }
    { eapply (sink_tree_node _ 4 _ [2%nat; 3%nat; 0%nat] 0); [reflexivity| |lia|].
      - by apply (sink_operands_conditional _ _
                    {| Expr.op := Conditional; Expr.left := 3; Expr.right := Some 0%nat |}
                    2 0).
      - intros x Hx. apply elem_of_cons in Hx as [->|Hx].
        { apply Hleaf. right. right. by left. }
        apply elem_of_cons in Hx as [->|Hx].
        + eapply (sink_tree_node _ 3 _ [0%nat; 1%nat] 0); [reflexivity| |lia|].
          * by apply (sink_operands_expr _ _
                        {| Expr.op := Add; Expr.left := 0; Expr.right := Some 1%nat |}).
          * intros y Hy. apply Hleaf. apply elem_of_cons in Hy as [->|Hy]; [by left|].
            apply list_elem_of_singleton in Hy as ->. right. by left.
        + apply list_elem_of_singleton in Hx as ->. apply Hleaf. by left. }
    exists vars'. eexists. split; [exact Hrun|]. split.
    + apply Hsnk. eapply sink_leaf_step; [reflexivity| | |].
      * by apply (sink_operands_conditional _ _
                    {| Expr.op := Conditional; Expr.left := 3; Expr.right := Some 0%nat |}
                    2 0).
      * by left.
      * apply (Hleaf 2%nat); [right; right; by left|exact 0%nat].
    + destruct (Hsrc 1%nat) as (tv & Htv & Hin).
      { eapply source_leaf_self; [reflexivity|by left]. }
      destruct (Hsnk 1%nat) as (tv' & Htv' & Hin').
      { eapply sink_leaf_step; [reflexivity| | |].
        - by apply (sink_operands_conditional _ _
                    {| Expr.op := Conditional; Expr.left := 3; Expr.right := Some 0%nat |}
                    2 0).
        - right. by left.
        - eapply sink_leaf_step; [reflexivity| | |].
          + by apply (sink_operands_expr _ _
                        {| Expr.op := Add; Expr.left := 0; Expr.right := Some 1%nat |}).
          + right. by left.
          + apply (Hleaf 1%nat); [right; by left|exact 0%nat]. }
      rewrite Htv in Htv'. injection Htv' as <-. by exists tv.
  - destruct (assign_checks_and_registers top enum_circuit [] 0 1 _ Undefined 1 eq_refl)
      as (_ & _ & _ & Hreg & _).
    destruct (Hreg 1%nat 1%nat 0%nat
                {| Generator.parent := None; Generator.debug := false; Generator.stmts_ := [] |}
                ltac:(done) ltac:(done))
      as (vars' & Hrun & _ & Hsnk & _);
      [ | |lia|lia|reflexivity|reflexivity| |].
    { eapply source_tree_plain; [reflexivity|right; by eexists]. }
    { eapply sink_tree_plain; [reflexivity|right; by eexists]. }
    { intros t Ht. injection Ht as <-. eexists. split; [reflexivity|].
      split; [|reflexivity]. split; [done|]. by intros (? & ? & ?). }
    exists vars'. eexists. split; [exact Hrun|].
    apply Hsnk. eapply sink_leaf_self; [reflexivity|right; by eexists].
Defined.


